(** * The iterative contact solver of phyx (src/Solver.h, src/Solver.cpp)

  A shallow embedding of the solver core and its properties, in three
  parts.  The program: the joint grouping pass
  ([SolvePrepareIndicesSoA]), the array-of-structs kernels, the
  struct-of-arrays kernel template at any vector width, the 16-wide
  kernels written with intrinsics, the prepare and finish steps, and
  the drivers that bind a kernel to an iteration budget.  The
  vocabulary: the invariants, views and scenes of the statements.  The
  properties, each with the lemmas it rests on.

  Numbers.  C++ [int] values that index arrays or count elements are
  [nat]; iteration tags, which start at -1, are [Z]; the iteration sum
  of the finish step is an [int] of 32 bits with its wrap-around
  ([int_add]).  A C++ [float] is modelled twice.  The kernels of every
  backend are stated on exact rationals ([Qc], rationals in lowest
  terms, so that equal numbers are equal terms): what the code computes
  in a run where no operation rounds, overflows or meets a NaN; the two
  constants are the exact values of their binary32 literals.  The AoS
  backend is stated a second time, in [Rounded], on IEEE 754 binary32
  ([Binary32]: the Standard Library's [SpecFloat] at 24 bits of
  precision), with rounding, signed zeros, infinities and NaN.  The
  diagnostic that the finish step returns is a binary32 quotient of
  two converted integers in both.

  Arrays.  An index outside an array is undefined behaviour in the
  source; here such a read gives the default value and such a write is
  dropped, and the theorems that depend on it assume the indices in
  range. *)

From Stdlib Require Import ZArith QArith Qcanon Qcabs Lia Lqa.
From Stdlib Require Import Floats.SpecFloat.
From stdpp Require Import base list.

(** ** Exact arithmetic standing for [float] *)

Module Float.

Local Open Scope Qc_scope.

Abbreviation float := Qc.

Definition ltb (a b : float) : bool :=
  match a ?= b with Lt => true | _ => false end.

(** [fabsf] *)
Definition fabsf (a : float) : float := Qcabs a.

(** [std::max(a, b)]: [(a < b) ? b : a] *)
Definition max (a b : float) : float := if ltb a b then b else a.

Definition of_Z (n : Z) : float := Q2Qc (inject_Z n).

End Float.

Import Float.

(** ** IEEE 754 binary32, the [float] of the processor *)

(** A C++ [float] with its rounding and its special values: the
    operations of [SpecFloat] at 24 bits of precision and an exponent
    limit of 128, which round to nearest, ties to even.  A value is a
    signed zero, a signed infinity, NaN, or [S754_finite s m e], the
    number [(-1)^s * m * 2^e]. *)
Module Binary32.

Definition prec : Z := 24.
Definition emax : Z := 128.

Abbreviation binary32 := spec_float.

Abbreviation NaN := S754_nan.

Definition add : binary32 -> binary32 -> binary32 := SFadd prec emax.
Definition sub : binary32 -> binary32 -> binary32 := SFsub prec emax.
Definition mul : binary32 -> binary32 -> binary32 := SFmul prec emax.
Definition div : binary32 -> binary32 -> binary32 := SFdiv prec emax.

(** Unary minus and [fabsf] *)
Definition opp : binary32 -> binary32 := SFopp.
Definition fabsf : binary32 -> binary32 := SFabs.

(** [a < b] and [a <= b]; both are false when an operand is NaN. *)
Definition ltb : binary32 -> binary32 -> bool := SFltb.
Definition leb : binary32 -> binary32 -> bool := SFleb.

(** [std::max(a, b)]: [(a < b) ? b : a] *)
Definition max (a b : binary32) : binary32 := if ltb a b then b else a.

(** [float(n)] of an integer [n] *)
Definition of_int (n : Z) : binary32 := binary_normalize prec emax n 0 false.

(** [0.0f], [1.0f] and [-1.0f] *)
Definition zero : binary32 := S754_zero false.
Definition one : binary32 := S754_finite false 8388608 (-23).
Definition minus_one : binary32 := S754_finite true 8388608 (-23).

Definition is_nan (a : binary32) : bool :=
  match a with S754_nan => true | _ => false end.

Definition is_zero (a : binary32) : bool :=
  match a with S754_zero _ => true | _ => false end.

(** Neither an infinity nor NaN. *)
Definition is_finite (a : binary32) : bool :=
  match a with S754_zero _ | S754_finite _ _ _ => true | _ => false end.

(** The rational that a finite value stands for. *)
Definition to_Q (a : binary32) : Q :=
  match a with
  | S754_finite s m e =>
      let q := (inject_Z (Z.pos m) * Qpower 2 e)%Q in
      if s then Qopp q else q
  | _ => 0%Q
  end.

(** The same number: equal, or two zeros of either sign. *)
Definition same (a b : binary32) : Prop :=
  a = b \/ (is_zero a = true /\ is_zero b = true).

(** Not negative, or not a number. *)
Definition nonneg_or_nan (a : binary32) : Prop :=
  is_nan a = true \/ leb zero a = true.

End Binary32.

Declare Scope binary32_scope.
Delimit Scope binary32_scope with binary32.

Infix "+" := Binary32.add : binary32_scope.
Infix "-" := Binary32.sub : binary32_scope.
Infix "*" := Binary32.mul : binary32_scope.
Notation "- a" := (Binary32.opp a) : binary32_scope.

(** ** A C++ [int] *)

(** 32 bits, two's complement: a sum that leaves the range wraps, as
    the processor's addition does. *)
Definition int_wrap (z : Z) : Z :=
  ((z + 2147483648) mod 4294967296 - 2147483648)%Z.

Definition int_add (a b : Z) : Z := int_wrap (a + b).

(** ** Data model (Vector2.h, RigidBody.h and Joints.h) *)

(** Modelled from the spec: Vector2.h is not among the sources; the
    two components that Solver.cpp reads as [.x] and [.y]. *)
Record Vector2f := mkVector2f { x : float; y : float }.

(** Modelled from the spec: RigidBody.h is not among the sources.  The
    fields of [RigidBody] that the solver reads or writes, under the
    names Solver.cpp uses: the linear and angular velocity, the
    displacing (positional correction) channel and the two iteration
    tags. *)
Record RigidBody := mkRigidBody {
  velocity : Vector2f;
  angularVelocity : float;
  displacingVelocity : Vector2f;
  displacingAngularVelocity : float;
  lastIteration : Z;
  lastDisplacementIteration : Z
}.

(** Modelled from the spec: Joints.h is not among the sources.  One
    constraint row, with the fields Solver.cpp reads and writes.  The
    friction limiter has the same shape; the solver never reads its
    [dstVelocity] nor its displacing channel. *)
Record Limiter := mkLimiter {
  normalProjector1 : Vector2f;
  normalProjector2 : Vector2f;
  angularProjector1 : float;
  angularProjector2 : float;
  compMass1_linear : Vector2f;
  compMass2_linear : Vector2f;
  compMass1_angular : float;
  compMass2_angular : float;
  compInvMass : float;
  accumulatedImpulse : float;
  dstVelocity : float;
  dstDisplacingVelocity : float;
  accumulatedDisplacingImpulse : float
}.

(** Modelled from the spec: Joints.h is not among the sources.  A
    contact joint has back-references [body1Index], [body2Index] into
    the body array and direct pointers [body1], [body2] for the AoS
    backend; the model resolves the pointers through the indices, so
    two joints on one body, or the two ends of one joint on one body,
    share that body. *)
Record ContactJoint := mkContactJoint {
  body1Index : nat;
  body2Index : nat;
  normalLimiter : Limiter;
  frictionLimiter : Limiter
}.

Definition zero2 : Vector2f := mkVector2f 0%Qc 0%Qc.

#[global] Instance Vector2f_inhabited : Inhabited Vector2f := populate zero2.

#[global] Instance RigidBody_inhabited : Inhabited RigidBody :=
  populate (mkRigidBody zero2 0%Qc zero2 0%Qc 0%Z 0%Z).

#[global] Instance Limiter_inhabited : Inhabited Limiter :=
  populate (mkLimiter zero2 zero2 0%Qc 0%Qc zero2 zero2 0%Qc 0%Qc 0%Qc 0%Qc 0%Qc 0%Qc 0%Qc).

#[global] Instance ContactJoint_inhabited : Inhabited ContactJoint :=
  populate (mkContactJoint 0 0 inhabitant inhabitant).

(** ** Grouping: [Solver::SolvePrepareIndicesSoA]

  The three scratch arrays of the solver that the grouping pass works
  on.  [jointGroup_joints] is the live prefix ([size] entries) of the
  work list.  An index outside an array is undefined behaviour in the
  source; here such a read gives the default value and such a write
  is dropped, and the theorems assume the indices in range. *)

Record Groups := mkGroups {
  jointGroup_bodies : list nat;
  jointGroup_joints : list nat;
  joint_index : list nat
}.

(** Local variables of the inner [for] loop. *)
Record Scan := mkScan {
  scan_i : nat;
  groupSize : nat;
  scan_arrays : Groups
}.

Section Grouping.

Variable contactJoints : list ContactJoint.
Variable groupSizeTarget : nat.

(** The guard of the inner loop:
    [i < jointGroup_joints.size && groupSize < groupSizeTarget]. *)
Definition scan_guard (s : Scan) : bool :=
  (scan_i s <? length (jointGroup_joints (scan_arrays s)))
  && (groupSize s <? groupSizeTarget).

(** One run of the body of the inner loop. *)
Definition scan_body (tag groupOffset : nat) (s : Scan) : Scan :=
  let g := scan_arrays s in
  let i := scan_i s in
  let jointIndex := jointGroup_joints g !!! i in
  let joint := contactJoints !!! jointIndex in
  if (jointGroup_bodies g !!! body1Index joint <? tag)
     && (jointGroup_bodies g !!! body2Index joint <? tag)
  then
    let bodies := <[body2Index joint := tag]>
                    (<[body1Index joint := tag]> (jointGroup_bodies g)) in
    let index := <[groupOffset + groupSize s := jointIndex]> (joint_index g) in
    let size := length (jointGroup_joints g) in
    let joints := take (size - 1)
                    (<[i := jointGroup_joints g !!! (size - 1)]>
                       (jointGroup_joints g)) in
    mkScan i (S (groupSize s)) (mkGroups bodies joints index)
  else
    mkScan (S i) (groupSize s) g.

(** The inner loop; [None] when the fuel runs out before the guard
    fails. *)
Fixpoint scan (fuel : nat) (tag groupOffset : nat) (s : Scan) : option Scan :=
  if scan_guard s then
    match fuel with
    | O => None
    | S fuel' => scan fuel' tag groupOffset (scan_body tag groupOffset s)
    end
  else Some s.

(** The outer [while] loop with its locals [tag] and [groupOffset];
    it returns the arrays and [groupOffset] when it exits.  [scanFuel]
    is the fuel handed to each inner loop. *)
Fixpoint rounds (scanFuel fuel : nat) (tag groupOffset : nat) (g : Groups)
  : option (nat * Groups) :=
  if groupSizeTarget <=? length (jointGroup_joints g) then
    match fuel with
    | O => None
    | S fuel' =>
        let tag := S tag in
        match scan scanFuel tag groupOffset (mkScan 0 0 g) with
        | None => None
        | Some s =>
            let groupOffset := groupOffset + groupSize s in
            if groupSize s <? groupSizeTarget
            then Some (groupOffset, scan_arrays s)
            else rounds scanFuel fuel' tag groupOffset (scan_arrays s)
        end
    end
  else Some (groupOffset, g).

(** [for (i = 0; i < jointGroup_joints.size; ++i)
       joint_index[groupOffset + i] = jointGroup_joints[i];] *)
Fixpoint fill_rest (groupOffset i : nat) (rest : list nat) (index : list nat)
  : list nat :=
  match rest with
  | [] => index
  | j :: rest' =>
      fill_rest groupOffset (S i) rest' (<[groupOffset + i := j]> index)
  end.

(** [for (i = 0; i < jointCount; ++i) a[i] = i;] *)
Definition fill_identity (jointCount : nat) (a : list nat) : list nat :=
  foldl (fun a i => <[i := i]> a) a (seq 0 jointCount).

(** [for (i = 0; i < bodiesCount; ++i) jointGroup_bodies[i] = 0;]
    after [resize(bodiesCount)]. *)
Definition clear_tags (bodiesCount : nat) : list nat := replicate bodiesCount 0.

Definition SolvePrepareIndicesSoA_fuel (fuel : nat) (bodiesCount : nat)
    (g : Groups) : option (nat * Groups) :=
  let jointCount := length contactJoints in
  if groupSizeTarget =? 1 then
    Some (jointCount,
          mkGroups (jointGroup_bodies g) (jointGroup_joints g)
            (fill_identity jointCount (joint_index g)))
  else
    let g0 := mkGroups (clear_tags bodiesCount) (seq 0 jointCount)
                (joint_index g) in
    match rounds fuel fuel 0 0 g0 with
    | None => None
    | Some (groupOffset, g1) =>
        Some ((groupOffset / groupSizeTarget) * groupSizeTarget,
              mkGroups (jointGroup_bodies g1) (jointGroup_joints g1)
                (fill_rest groupOffset 0 (jointGroup_joints g1)
                   (joint_index g1)))
    end.

(** The function with the fuel that its loops need for any input:
    one round per joint at most, and one more test of the guard. *)
Definition SolvePrepareIndicesSoA (bodiesCount : nat) (g : Groups)
  : option (nat * Groups) :=
  SolvePrepareIndicesSoA_fuel (S (length contactJoints)) bodiesCount g.

End Grouping.

(** The K4 scene of the specification: four bodies, a joint on every pair. *)
Definition joint_on (b1 b2 : nat) : ContactJoint :=
  mkContactJoint b1 b2 inhabitant inhabitant.

Definition k4_joints : list ContactJoint :=
  [joint_on 0 1; joint_on 0 2; joint_on 0 3;
   joint_on 1 2; joint_on 1 3; joint_on 2 3].

(** ** Solver state of the struct-of-arrays backends *)

(** [Solver::SolveBody]: the per-body state of one channel.  The source
    keeps [lastIteration] in the fourth float slot as a bit-cast
    integer; the model keeps the integer. *)
Module SolveBody.
Record t := mk {
  velocity : Vector2f;
  angularVelocity : float;
  lastIteration : Z
}.
End SolveBody.

#[global] Instance SolveBody_inhabited : Inhabited SolveBody.t :=
  populate (SolveBody.mk zero2 0%Qc 0%Z).

(** One lane of [ContactJointPacked<N>]: every array [field[N]] of the
    block taken at one lane.  The packed array is modelled as the list
    of its lanes, lane [i mod N] of block [i / N] at position [i]. *)
Module ContactJointPacked.
Record t := mk {
  body1Index : nat;
  body2Index : nat;

  normalLimiter_normalProjector1X : float;
  normalLimiter_normalProjector1Y : float;
  normalLimiter_normalProjector2X : float;
  normalLimiter_normalProjector2Y : float;
  normalLimiter_angularProjector1 : float;
  normalLimiter_angularProjector2 : float;

  normalLimiter_compMass1_linearX : float;
  normalLimiter_compMass1_linearY : float;
  normalLimiter_compMass2_linearX : float;
  normalLimiter_compMass2_linearY : float;
  normalLimiter_compMass1_angular : float;
  normalLimiter_compMass2_angular : float;
  normalLimiter_compInvMass : float;
  normalLimiter_accumulatedImpulse : float;

  normalLimiter_dstVelocity : float;
  normalLimiter_dstDisplacingVelocity : float;
  normalLimiter_accumulatedDisplacingImpulse : float;

  frictionLimiter_normalProjector1X : float;
  frictionLimiter_normalProjector1Y : float;
  frictionLimiter_normalProjector2X : float;
  frictionLimiter_normalProjector2Y : float;
  frictionLimiter_angularProjector1 : float;
  frictionLimiter_angularProjector2 : float;

  frictionLimiter_compMass1_linearX : float;
  frictionLimiter_compMass1_linearY : float;
  frictionLimiter_compMass2_linearX : float;
  frictionLimiter_compMass2_linearY : float;
  frictionLimiter_compMass1_angular : float;
  frictionLimiter_compMass2_angular : float;
  frictionLimiter_compInvMass : float;
  frictionLimiter_accumulatedImpulse : float
}.

(** [store(v, &jointP.normalLimiter_accumulatedImpulse[iP])] *)
Definition store_normalLimiter_accumulatedImpulse (v : float) (j : t) : t :=
  mk (body1Index j) (body2Index j)
    (normalLimiter_normalProjector1X j) (normalLimiter_normalProjector1Y j)
    (normalLimiter_normalProjector2X j) (normalLimiter_normalProjector2Y j)
    (normalLimiter_angularProjector1 j) (normalLimiter_angularProjector2 j)
    (normalLimiter_compMass1_linearX j) (normalLimiter_compMass1_linearY j)
    (normalLimiter_compMass2_linearX j) (normalLimiter_compMass2_linearY j)
    (normalLimiter_compMass1_angular j) (normalLimiter_compMass2_angular j)
    (normalLimiter_compInvMass j) v
    (normalLimiter_dstVelocity j) (normalLimiter_dstDisplacingVelocity j)
    (normalLimiter_accumulatedDisplacingImpulse j)
    (frictionLimiter_normalProjector1X j) (frictionLimiter_normalProjector1Y j)
    (frictionLimiter_normalProjector2X j) (frictionLimiter_normalProjector2Y j)
    (frictionLimiter_angularProjector1 j) (frictionLimiter_angularProjector2 j)
    (frictionLimiter_compMass1_linearX j) (frictionLimiter_compMass1_linearY j)
    (frictionLimiter_compMass2_linearX j) (frictionLimiter_compMass2_linearY j)
    (frictionLimiter_compMass1_angular j) (frictionLimiter_compMass2_angular j)
    (frictionLimiter_compInvMass j) (frictionLimiter_accumulatedImpulse j).

(** [store(v, &jointP.normalLimiter_accumulatedDisplacingImpulse[iP])] *)
Definition store_normalLimiter_accumulatedDisplacingImpulse (v : float) (j : t) : t :=
  mk (body1Index j) (body2Index j)
    (normalLimiter_normalProjector1X j) (normalLimiter_normalProjector1Y j)
    (normalLimiter_normalProjector2X j) (normalLimiter_normalProjector2Y j)
    (normalLimiter_angularProjector1 j) (normalLimiter_angularProjector2 j)
    (normalLimiter_compMass1_linearX j) (normalLimiter_compMass1_linearY j)
    (normalLimiter_compMass2_linearX j) (normalLimiter_compMass2_linearY j)
    (normalLimiter_compMass1_angular j) (normalLimiter_compMass2_angular j)
    (normalLimiter_compInvMass j) (normalLimiter_accumulatedImpulse j)
    (normalLimiter_dstVelocity j) (normalLimiter_dstDisplacingVelocity j)
    v
    (frictionLimiter_normalProjector1X j) (frictionLimiter_normalProjector1Y j)
    (frictionLimiter_normalProjector2X j) (frictionLimiter_normalProjector2Y j)
    (frictionLimiter_angularProjector1 j) (frictionLimiter_angularProjector2 j)
    (frictionLimiter_compMass1_linearX j) (frictionLimiter_compMass1_linearY j)
    (frictionLimiter_compMass2_linearX j) (frictionLimiter_compMass2_linearY j)
    (frictionLimiter_compMass1_angular j) (frictionLimiter_compMass2_angular j)
    (frictionLimiter_compInvMass j) (frictionLimiter_accumulatedImpulse j).

(** [store(v, &jointP.frictionLimiter_accumulatedImpulse[iP])] *)
Definition store_frictionLimiter_accumulatedImpulse (v : float) (j : t) : t :=
  mk (body1Index j) (body2Index j)
    (normalLimiter_normalProjector1X j) (normalLimiter_normalProjector1Y j)
    (normalLimiter_normalProjector2X j) (normalLimiter_normalProjector2Y j)
    (normalLimiter_angularProjector1 j) (normalLimiter_angularProjector2 j)
    (normalLimiter_compMass1_linearX j) (normalLimiter_compMass1_linearY j)
    (normalLimiter_compMass2_linearX j) (normalLimiter_compMass2_linearY j)
    (normalLimiter_compMass1_angular j) (normalLimiter_compMass2_angular j)
    (normalLimiter_compInvMass j) (normalLimiter_accumulatedImpulse j)
    (normalLimiter_dstVelocity j) (normalLimiter_dstDisplacingVelocity j)
    (normalLimiter_accumulatedDisplacingImpulse j)
    (frictionLimiter_normalProjector1X j) (frictionLimiter_normalProjector1Y j)
    (frictionLimiter_normalProjector2X j) (frictionLimiter_normalProjector2Y j)
    (frictionLimiter_angularProjector1 j) (frictionLimiter_angularProjector2 j)
    (frictionLimiter_compMass1_linearX j) (frictionLimiter_compMass1_linearY j)
    (frictionLimiter_compMass2_linearX j) (frictionLimiter_compMass2_linearY j)
    (frictionLimiter_compMass1_angular j) (frictionLimiter_compMass2_angular j)
    (frictionLimiter_compInvMass j) v.
End ContactJointPacked.

#[global] Instance ContactJointPacked_inhabited : Inhabited ContactJointPacked.t :=
  populate (ContactJointPacked.mk 0 0
    0%Qc 0%Qc 0%Qc 0%Qc 0%Qc 0%Qc 0%Qc 0%Qc 0%Qc 0%Qc 0%Qc 0%Qc 0%Qc 0%Qc
    0%Qc 0%Qc 0%Qc
    0%Qc 0%Qc 0%Qc 0%Qc 0%Qc 0%Qc 0%Qc 0%Qc 0%Qc 0%Qc 0%Qc 0%Qc 0%Qc 0%Qc).

(** The arrays owned by the solver besides the packed blocks, which the
    source passes to its functions by reference. *)
Record Solver := mkSolver {
  contactJoints : list ContactJoint;
  solveBodiesImpulse : list SolveBody.t;
  solveBodiesDisplacement : list SolveBody.t;
  groups : Groups
}.

(** ** Field updates *)

Section Updates.

Local Open Scope Qc_scope.

Definition set_accumulatedImpulse (v : float) (l : Limiter) : Limiter :=
  mkLimiter (normalProjector1 l) (normalProjector2 l)
    (angularProjector1 l) (angularProjector2 l)
    (compMass1_linear l) (compMass2_linear l)
    (compMass1_angular l) (compMass2_angular l)
    (compInvMass l) v
    (dstVelocity l) (dstDisplacingVelocity l) (accumulatedDisplacingImpulse l).

Definition set_accumulatedDisplacingImpulse (v : float) (l : Limiter) : Limiter :=
  mkLimiter (normalProjector1 l) (normalProjector2 l)
    (angularProjector1 l) (angularProjector2 l)
    (compMass1_linear l) (compMass2_linear l)
    (compMass1_angular l) (compMass2_angular l)
    (compInvMass l) (accumulatedImpulse l)
    (dstVelocity l) (dstDisplacingVelocity l) v.

Definition set_normalLimiter (l : Limiter) (j : ContactJoint) : ContactJoint :=
  mkContactJoint (body1Index j) (body2Index j) l (frictionLimiter j).

Definition set_frictionLimiter (l : Limiter) (j : ContactJoint) : ContactJoint :=
  mkContactJoint (body1Index j) (body2Index j) (normalLimiter j) l.

(** [body->velocity.x += lin.x * delta; body->velocity.y += lin.y * delta;
     body->angularVelocity += ang * delta;] *)
Definition add_velocity (lin : Vector2f) (ang delta : float) (b : RigidBody)
  : RigidBody :=
  mkRigidBody
    (mkVector2f (x (velocity b) + x lin * delta) (y (velocity b) + y lin * delta))
    (angularVelocity b + ang * delta)
    (displacingVelocity b) (displacingAngularVelocity b)
    (lastIteration b) (lastDisplacementIteration b).

(** The same three statements on the displacing channel. *)
Definition add_displacingVelocity (lin : Vector2f) (ang delta : float)
    (b : RigidBody) : RigidBody :=
  mkRigidBody (velocity b) (angularVelocity b)
    (mkVector2f (x (displacingVelocity b) + x lin * delta)
                (y (displacingVelocity b) + y lin * delta))
    (displacingAngularVelocity b + ang * delta)
    (lastIteration b) (lastDisplacementIteration b).

Definition set_lastIteration (i : Z) (b : RigidBody) : RigidBody :=
  mkRigidBody (velocity b) (angularVelocity b)
    (displacingVelocity b) (displacingAngularVelocity b)
    i (lastDisplacementIteration b).

Definition set_lastDisplacementIteration (i : Z) (b : RigidBody) : RigidBody :=
  mkRigidBody (velocity b) (angularVelocity b)
    (displacingVelocity b) (displacingAngularVelocity b)
    (lastIteration b) i.

End Updates.

(** ** Constants of Solver.cpp *)

(** [1e-4f] and [0.3f]: the values of the two binary32 literals,
    [13743895 * 2^-37] and [10066330 * 2^-25]. *)
Definition kProductiveImpulse : float := Q2Qc (13743895 # 137438953472).
Definition kFrictionCoefficient : float := Q2Qc (5033165 # 16777216).

(** ** The array-of-structs backend *)

(** The caller's body array and the solver's joints, the state the AoS
    backend works on. *)
Record AoS := mkAoS {
  aos_bodies : list RigidBody;
  aos_joints : list ContactJoint
}.

Section KernelsAoS.

Local Open Scope Qc_scope.

(** [Solver::SolvePrepareAoS] *)
Definition SolvePrepareAoS (bodies : list RigidBody) (bodiesCount : nat)
  : list RigidBody :=
  foldl (fun bodies bodyIndex =>
           alter (fun b => set_lastDisplacementIteration (-1)
                             (set_lastIteration (-1) b)) bodyIndex bodies)
    bodies (seq 0 bodiesCount).

(** The early-out of the impulse kernel:
    [body1->lastIteration < iterationIndex - 1
     && body2->lastIteration < iterationIndex - 1]. *)
Definition skip_AoS (iterationIndex last1 last2 : Z) : bool :=
  (last1 <? iterationIndex - 1)%Z && (last2 <? iterationIndex - 1)%Z.

(** [normaldV] of the impulse kernel, from the normal limiter and the
    two bodies as they are when the joint is visited. *)
Definition normaldV_AoS (nl : Limiter) (body1 body2 : RigidBody) : float :=
  let normaldV := dstVelocity nl in
  let normaldV := normaldV - x (normalProjector1 nl) * x (velocity body1) in
  let normaldV := normaldV - y (normalProjector1 nl) * y (velocity body1) in
  let normaldV := normaldV - angularProjector1 nl * angularVelocity body1 in
  let normaldV := normaldV - x (normalProjector2 nl) * x (velocity body2) in
  let normaldV := normaldV - y (normalProjector2 nl) * y (velocity body2) in
  let normaldV := normaldV - angularProjector2 nl * angularVelocity body2 in
  normaldV.

(** [normalDeltaImpulse] after its clamp:
    [if (normalDeltaImpulse + accumulatedImpulse < 0.0f)
       normalDeltaImpulse = -accumulatedImpulse;] *)
Definition normalDeltaImpulse_AoS (nl : Limiter) (body1 body2 : RigidBody)
  : float :=
  let normalDeltaImpulse := normaldV_AoS nl body1 body2 * compInvMass nl in
  if ltb (normalDeltaImpulse + accumulatedImpulse nl) 0
  then - accumulatedImpulse nl
  else normalDeltaImpulse.

(** [frictiondV], against the velocities that the normal impulse left. *)
Definition frictiondV_AoS (fl : Limiter) (body1 body2 : RigidBody) : float :=
  let frictiondV := 0 in
  let frictiondV := frictiondV - x (normalProjector1 fl) * x (velocity body1) in
  let frictiondV := frictiondV - y (normalProjector1 fl) * y (velocity body1) in
  let frictiondV := frictiondV - angularProjector1 fl * angularVelocity body1 in
  let frictiondV := frictiondV - x (normalProjector2 fl) * x (velocity body2) in
  let frictiondV := frictiondV - y (normalProjector2 fl) * y (velocity body2) in
  let frictiondV := frictiondV - angularProjector2 fl * angularVelocity body2 in
  frictiondV.

(** [frictionDeltaImpulse] after the friction cap; [nl] is the normal
    limiter with its accumulator already updated. *)
Definition frictionDeltaImpulse_AoS (nl fl : Limiter) (body1 body2 : RigidBody)
  : float :=
  let frictionDeltaImpulse := frictiondV_AoS fl body1 body2 * compInvMass fl in
  let reactionForce := accumulatedImpulse nl in
  let accumulatedImpulse := accumulatedImpulse fl in
  let frictionForce := accumulatedImpulse + frictionDeltaImpulse in
  let frictionCoefficient := kFrictionCoefficient in
  if ltb (reactionForce * frictionCoefficient) (fabsf frictionForce)
  then
    let dir := if ltb 0 frictionForce then 1 else - (1) in
    let frictionForce := dir * reactionForce * frictionCoefficient in
    frictionForce - accumulatedImpulse
  else frictionDeltaImpulse.

(** The body of the loop of [Solver::SolveJointsImpulsesAoS] after the
    early-out, for the joint at [jointIndex]; the boolean is whether it
    set [productive].  [body1] and [body2] are pointers in the source:
    every read goes to the body array as it is at that statement. *)
Definition SolveJointsImpulsesAoS_joint (iterationIndex : Z) (jointIndex : nat)
    (s : AoS) : AoS * bool :=
  let joint := aos_joints s !!! jointIndex in
  let bodies := aos_bodies s in
  let body1 := body1Index joint in
  let body2 := body2Index joint in
  let nl := normalLimiter joint in
  let fl := frictionLimiter joint in
  let normalDeltaImpulse :=
    normalDeltaImpulse_AoS nl (bodies !!! body1) (bodies !!! body2) in
  let bodies :=
    alter (add_velocity (compMass1_linear nl) (compMass1_angular nl)
             normalDeltaImpulse) body1 bodies in
  let bodies :=
    alter (add_velocity (compMass2_linear nl) (compMass2_angular nl)
             normalDeltaImpulse) body2 bodies in
  let nl := set_accumulatedImpulse (accumulatedImpulse nl + normalDeltaImpulse) nl in
  let frictionDeltaImpulse :=
    frictionDeltaImpulse_AoS nl fl (bodies !!! body1) (bodies !!! body2) in
  let fl := set_accumulatedImpulse (accumulatedImpulse fl + frictionDeltaImpulse) fl in
  let bodies :=
    alter (add_velocity (compMass1_linear fl) (compMass1_angular fl)
             frictionDeltaImpulse) body1 bodies in
  let bodies :=
    alter (add_velocity (compMass2_linear fl) (compMass2_angular fl)
             frictionDeltaImpulse) body2 bodies in
  let joints :=
    <[jointIndex := set_frictionLimiter fl (set_normalLimiter nl joint)]>
      (aos_joints s) in
  let cumulativeImpulse :=
    Float.max (fabsf normalDeltaImpulse) (fabsf frictionDeltaImpulse) in
  if ltb kProductiveImpulse cumulativeImpulse
  then
    let bodies := alter (set_lastIteration iterationIndex) body1 bodies in
    let bodies := alter (set_lastIteration iterationIndex) body2 bodies in
    (mkAoS bodies joints, true)
  else (mkAoS bodies joints, false).

(** The body of the loop of [Solver::SolveJointsImpulsesAoS]. *)
Definition SolveJointsImpulsesAoS_body (iterationIndex : Z) (jointIndex : nat)
    (s : AoS) : AoS * bool :=
  let joint := aos_joints s !!! jointIndex in
  if skip_AoS iterationIndex
       (lastIteration (aos_bodies s !!! body1Index joint))
       (lastIteration (aos_bodies s !!! body2Index joint))
  then (s, false)
  else SolveJointsImpulsesAoS_joint iterationIndex jointIndex s.

(** A [for] loop over the joints [jointStart .. jointStart + jointCount)
    that runs [body] on each and returns whether any run was
    productive. *)
Definition for_joints {S : Type} (body : nat -> S -> S * bool)
    (jointStart jointCount : nat) (s : S) : S * bool :=
  foldl (fun (acc : S * bool) jointIndex =>
           let (s', productive) := body jointIndex (fst acc) in
           (s', snd acc || productive))
    (s, false) (seq jointStart jointCount).

(** [Solver::SolveJointsImpulsesAoS] *)
Definition SolveJointsImpulsesAoS (jointStart jointCount : nat)
    (iterationIndex : Z) (s : AoS) : AoS * bool :=
  for_joints (SolveJointsImpulsesAoS_body iterationIndex) jointStart jointCount s.

(** The early-out of the displacement kernel. *)
Definition skip_displacement_AoS (iterationIndex last1 last2 : Z) : bool :=
  (last1 <? iterationIndex - 1)%Z && (last2 <? iterationIndex - 1)%Z.

(** [dV] of the displacement kernel. *)
Definition displacingdV_AoS (nl : Limiter) (body1 body2 : RigidBody) : float :=
  let dV := dstDisplacingVelocity nl in
  let dV := dV - x (normalProjector1 nl) * x (displacingVelocity body1) in
  let dV := dV - y (normalProjector1 nl) * y (displacingVelocity body1) in
  let dV := dV - angularProjector1 nl * displacingAngularVelocity body1 in
  let dV := dV - x (normalProjector2 nl) * x (displacingVelocity body2) in
  let dV := dV - y (normalProjector2 nl) * y (displacingVelocity body2) in
  let dV := dV - angularProjector2 nl * displacingAngularVelocity body2 in
  dV.

(** [displacingDeltaImpulse] after its clamp. *)
Definition displacingDeltaImpulse_AoS (nl : Limiter) (body1 body2 : RigidBody)
  : float :=
  let displacingDeltaImpulse := displacingdV_AoS nl body1 body2 * compInvMass nl in
  if ltb (displacingDeltaImpulse + accumulatedDisplacingImpulse nl) 0
  then - accumulatedDisplacingImpulse nl
  else displacingDeltaImpulse.

(** The body of the loop of [Solver::SolveJointsDisplacementAoS] after
    the early-out. *)
Definition SolveJointsDisplacementAoS_joint (iterationIndex : Z)
    (jointIndex : nat) (s : AoS) : AoS * bool :=
  let joint := aos_joints s !!! jointIndex in
  let bodies := aos_bodies s in
  let body1 := body1Index joint in
  let body2 := body2Index joint in
  let nl := normalLimiter joint in
  let displacingDeltaImpulse :=
    displacingDeltaImpulse_AoS nl (bodies !!! body1) (bodies !!! body2) in
  let bodies :=
    alter (add_displacingVelocity (compMass1_linear nl) (compMass1_angular nl)
             displacingDeltaImpulse) body1 bodies in
  let bodies :=
    alter (add_displacingVelocity (compMass2_linear nl) (compMass2_angular nl)
             displacingDeltaImpulse) body2 bodies in
  let nl := set_accumulatedDisplacingImpulse
              (accumulatedDisplacingImpulse nl + displacingDeltaImpulse) nl in
  let joints := <[jointIndex := set_normalLimiter nl joint]> (aos_joints s) in
  if ltb kProductiveImpulse (fabsf displacingDeltaImpulse)
  then
    let bodies := alter (set_lastDisplacementIteration iterationIndex) body1 bodies in
    let bodies := alter (set_lastDisplacementIteration iterationIndex) body2 bodies in
    (mkAoS bodies joints, true)
  else (mkAoS bodies joints, false).

(** The body of the loop of [Solver::SolveJointsDisplacementAoS]. *)
Definition SolveJointsDisplacementAoS_body (iterationIndex : Z) (jointIndex : nat)
    (s : AoS) : AoS * bool :=
  let joint := aos_joints s !!! jointIndex in
  if skip_displacement_AoS iterationIndex
       (lastDisplacementIteration (aos_bodies s !!! body1Index joint))
       (lastDisplacementIteration (aos_bodies s !!! body2Index joint))
  then (s, false)
  else SolveJointsDisplacementAoS_joint iterationIndex jointIndex s.

(** [Solver::SolveJointsDisplacementAoS] *)
Definition SolveJointsDisplacementAoS (jointStart jointCount : nat)
    (iterationIndex : Z) (s : AoS) : AoS * bool :=
  for_joints (SolveJointsDisplacementAoS_body iterationIndex)
    jointStart jointCount s.

(** [Solver::SolveFinishAoS]: [iterationSum] is an [int], the result
    the binary32 quotient
    [float(iterationSum) / float(contactJoints.size())]. *)
Definition SolveFinishAoS (s : AoS) : Binary32.binary32 :=
  let iterationSum :=
    foldl (fun (iterationSum : Z) (joint : ContactJoint) =>
             let body1 := aos_bodies s !!! body1Index joint in
             let body2 := aos_bodies s !!! body2Index joint in
             let iterationSum :=
               int_add iterationSum
                 (int_add (Z.max (lastIteration body1) (lastIteration body2)) 2) in
             int_add iterationSum
               (int_add (Z.max (lastDisplacementIteration body1)
                           (lastDisplacementIteration body2)) 2))
      0%Z (aos_joints s) in
  Binary32.div (Binary32.of_int iterationSum)
    (Binary32.of_int (Z.of_nat (length (aos_joints s)))).

End KernelsAoS.

(** ** Drivers: a kernel bound to an iteration budget *)

(** What an iteration loop of a driver did: the state it left, the
    number of passes it ran, and whether it left through [break]. *)
Record Loop (S : Type) := mkLoop {
  loop_state : S;
  loop_passes : nat;
  loop_broke : bool
}.

Arguments mkLoop {S} _ _ _.
Arguments loop_state {S} _.
Arguments loop_passes {S} _.
Arguments loop_broke {S} _.

(** [for (iterationIndex = 0; iterationIndex < count; iterationIndex++)
       { bool productive = pass(iterationIndex); if (!productive) break; }]
    from [iterationIndex] on, with [remaining = count - iterationIndex]. *)
Fixpoint iterate {S : Type} (pass : Z -> S -> S * bool) (remaining : nat)
    (iterationIndex : Z) (s : S) : Loop S :=
  match remaining with
  | O => mkLoop s 0 false
  | Datatypes.S remaining' =>
      let (s', productive) := pass iterationIndex s in
      if productive
      then
        let rest := iterate pass remaining' (iterationIndex + 1)%Z s' in
        mkLoop (loop_state rest) (Datatypes.S (loop_passes rest)) (loop_broke rest)
      else mkLoop s' 1 true
  end.

(** The two loops that every driver runs after its prepare step. *)
Definition impulse_loop {S : Type} (impulses : Z -> S -> S * bool)
    (contactIterationsCount : nat) (s : S) : Loop S :=
  iterate impulses contactIterationsCount 0%Z s.

Definition displacement_loop {S : Type} (displacement : Z -> S -> S * bool)
    (penetrationIterationsCount : nat) (s : S) : Loop S :=
  iterate displacement penetrationIterationsCount 0%Z s.

(** The shape shared by the drivers: the impulse loop, the displacement
    loop, the finish step. *)
Definition solve {S R : Type} (impulses displacement : Z -> S -> S * bool)
    (finish : S -> R)
    (contactIterationsCount penetrationIterationsCount : nat) (s : S) : R :=
  let s := loop_state (impulse_loop impulses contactIterationsCount s) in
  let s := loop_state (displacement_loop displacement penetrationIterationsCount s) in
  finish s.

(** [Solver::SolveJointsAoS]: the bodies and joints it leaves and the
    average it returns. *)
Definition SolveJointsAoS (joints : list ContactJoint)
    (bodies : list RigidBody) (bodiesCount : nat)
    (contactIterationsCount penetrationIterationsCount : nat)
  : AoS * Binary32.binary32 :=
  solve (SolveJointsImpulsesAoS 0 (length joints))
    (SolveJointsDisplacementAoS 0 (length joints))
    (fun s => (s, SolveFinishAoS s))
    contactIterationsCount penetrationIterationsCount
    (mkAoS (SolvePrepareAoS bodies bodiesCount) joints).

(** ** The struct-of-arrays backends *)

(** Modelled from the spec: base/SIMD.h, with the vector types
    [simd::VNf<VN>], [VNi<VN>], [VNb<VN>] and their operations, is not
    among the sources.  The operations act lane by lane; these are the
    lane operations the kernels use, as the specification states them
    (4.4: [max(a, b)], [select(mask, b, a)], the sign of the second
    operand applied to the cap) and as the hand-written kernel
    [SolveJointsImpulsesSoA_FMA] spells them with intrinsics
    ([flipsign]: the sign bit of [y] xor-ed into [x]; [select(a, b, m)]:
    [b] where the mask is set, as [blendv]). *)
Module simd.

Local Open Scope Qc_scope.

Definition max (a b : float) : float := if ltb a b then b else a.

Definition abs (a : float) : float := Qcabs a.

Definition flipsign (x y : float) : float := if ltb y 0 then - x else x.

Definition select {A : Type} (a b : A) (mask : bool) : A :=
  if mask then b else a.

End simd.

Section KernelsSoA.

Local Open Scope Qc_scope.

Import ContactJointPacked.

(** The registers [body_velocityX], [body_velocityY],
    [body_angularVelocity] and [body_lastIteration] of one body in one
    lane are kept together as a [SolveBody.t].  The three statements
    [body_velocityX += linX * delta; body_velocityY += linY * delta;
     body_angularVelocity += ang * delta;] *)
Definition add_impulse (linX linY ang delta : float) (body : SolveBody.t)
  : SolveBody.t :=
  SolveBody.mk
    (mkVector2f (x (SolveBody.velocity body) + linX * delta)
                (y (SolveBody.velocity body) + linY * delta))
    (SolveBody.angularVelocity body + ang * delta)
    (SolveBody.lastIteration body).

(** [body_lastIteration = select(body_lastIteration, iterationIndex0, productive)] *)
Definition select_lastIteration (iterationIndex0 : Z) (productive : bool)
    (body : SolveBody.t) : SolveBody.t :=
  SolveBody.mk (SolveBody.velocity body) (SolveBody.angularVelocity body)
    (simd.select (SolveBody.lastIteration body) iterationIndex0 productive).

(** [normaldV] of one lane of the impulse kernel. *)
Definition normaldV_SoA (jointP : ContactJointPacked.t)
    (body1 body2 : SolveBody.t) : float :=
  let normaldV := normalLimiter_dstVelocity jointP in
  let normaldV := normaldV - normalLimiter_normalProjector1X jointP * x (SolveBody.velocity body1) in
  let normaldV := normaldV - normalLimiter_normalProjector1Y jointP * y (SolveBody.velocity body1) in
  let normaldV := normaldV - normalLimiter_angularProjector1 jointP * SolveBody.angularVelocity body1 in
  let normaldV := normaldV - normalLimiter_normalProjector2X jointP * x (SolveBody.velocity body2) in
  let normaldV := normaldV - normalLimiter_normalProjector2Y jointP * y (SolveBody.velocity body2) in
  let normaldV := normaldV - normalLimiter_angularProjector2 jointP * SolveBody.angularVelocity body2 in
  normaldV.

(** [normalDeltaImpulse] after
    [normalDeltaImpulse = max(normalDeltaImpulse, -j_normalLimiter_accumulatedImpulse)]. *)
Definition normalDeltaImpulse_SoA (jointP : ContactJointPacked.t)
    (body1 body2 : SolveBody.t) : float :=
  let normalDeltaImpulse :=
    normaldV_SoA jointP body1 body2 * normalLimiter_compInvMass jointP in
  simd.max normalDeltaImpulse (- normalLimiter_accumulatedImpulse jointP).

(** [frictiondV] of one lane. *)
Definition frictiondV_SoA (jointP : ContactJointPacked.t)
    (body1 body2 : SolveBody.t) : float :=
  let frictiondV := 0 in
  let frictiondV := frictiondV - frictionLimiter_normalProjector1X jointP * x (SolveBody.velocity body1) in
  let frictiondV := frictiondV - frictionLimiter_normalProjector1Y jointP * y (SolveBody.velocity body1) in
  let frictiondV := frictiondV - frictionLimiter_angularProjector1 jointP * SolveBody.angularVelocity body1 in
  let frictiondV := frictiondV - frictionLimiter_normalProjector2X jointP * x (SolveBody.velocity body2) in
  let frictiondV := frictiondV - frictionLimiter_normalProjector2Y jointP * y (SolveBody.velocity body2) in
  let frictiondV := frictiondV - frictionLimiter_angularProjector2 jointP * SolveBody.angularVelocity body2 in
  frictiondV.

(** [frictionDeltaImpulse] after the branchless friction cap;
    [j_normalLimiter_accumulatedImpulse] is the register after the
    normal impulse was added. *)
Definition frictionDeltaImpulse_SoA (jointP : ContactJointPacked.t)
    (j_normalLimiter_accumulatedImpulse : float)
    (body1 body2 : SolveBody.t) : float :=
  let frictionDeltaImpulse :=
    frictiondV_SoA jointP body1 body2 * frictionLimiter_compInvMass jointP in
  let reactionForce := j_normalLimiter_accumulatedImpulse in
  let accumulatedImpulse := frictionLimiter_accumulatedImpulse jointP in
  let frictionForce := accumulatedImpulse + frictionDeltaImpulse in
  let reactionForceScaled := reactionForce * kFrictionCoefficient in
  let frictionForceAbs := simd.abs frictionForce in
  let reactionForceScaledSigned := simd.flipsign reactionForceScaled frictionForce in
  let frictionDeltaImpulseAdjusted := reactionForceScaledSigned - accumulatedImpulse in
  simd.select frictionDeltaImpulse frictionDeltaImpulseAdjusted
    (ltb reactionForceScaled frictionForceAbs).

(** The arithmetic of one lane of [Solver::SolveJointsImpulsesSoA]
    between the early-out and the scatter: from the state of the two
    bodies as gathered, the new state of the two bodies, the lane of the
    packed joint with its two accumulators stored, and the lane of
    [productive]. *)
Definition SolveJointsImpulsesSoA_lane (iterationIndex : Z)
    (body1 body2 : SolveBody.t) (jointP : ContactJointPacked.t)
  : SolveBody.t * SolveBody.t * ContactJointPacked.t * bool :=
  let iterationIndex0 := iterationIndex in
  let j_normalLimiter_accumulatedImpulse := normalLimiter_accumulatedImpulse jointP in
  let j_frictionLimiter_accumulatedImpulse := frictionLimiter_accumulatedImpulse jointP in
  let normalDeltaImpulse := normalDeltaImpulse_SoA jointP body1 body2 in
  let body1 :=
    add_impulse (normalLimiter_compMass1_linearX jointP)
      (normalLimiter_compMass1_linearY jointP)
      (normalLimiter_compMass1_angular jointP) normalDeltaImpulse body1 in
  let body2 :=
    add_impulse (normalLimiter_compMass2_linearX jointP)
      (normalLimiter_compMass2_linearY jointP)
      (normalLimiter_compMass2_angular jointP) normalDeltaImpulse body2 in
  let j_normalLimiter_accumulatedImpulse :=
    j_normalLimiter_accumulatedImpulse + normalDeltaImpulse in
  let frictionDeltaImpulse :=
    frictionDeltaImpulse_SoA jointP j_normalLimiter_accumulatedImpulse
      body1 body2 in
  let j_frictionLimiter_accumulatedImpulse :=
    j_frictionLimiter_accumulatedImpulse + frictionDeltaImpulse in
  let body1 :=
    add_impulse (frictionLimiter_compMass1_linearX jointP)
      (frictionLimiter_compMass1_linearY jointP)
      (frictionLimiter_compMass1_angular jointP) frictionDeltaImpulse body1 in
  let body2 :=
    add_impulse (frictionLimiter_compMass2_linearX jointP)
      (frictionLimiter_compMass2_linearY jointP)
      (frictionLimiter_compMass2_angular jointP) frictionDeltaImpulse body2 in
  let jointP :=
    store_frictionLimiter_accumulatedImpulse j_frictionLimiter_accumulatedImpulse
      (store_normalLimiter_accumulatedImpulse j_normalLimiter_accumulatedImpulse
         jointP) in
  let cumulativeImpulse :=
    simd.max (simd.abs normalDeltaImpulse) (simd.abs frictionDeltaImpulse) in
  let productive := ltb kProductiveImpulse cumulativeImpulse in
  (select_lastIteration iterationIndex0 productive body1,
   select_lastIteration iterationIndex0 productive body2,
   jointP, productive).

(** [dV] of one lane of the displacement kernel. *)
Definition displacingdV_SoA (jointP : ContactJointPacked.t)
    (body1 body2 : SolveBody.t) : float :=
  let dV := normalLimiter_dstDisplacingVelocity jointP in
  let dV := dV - normalLimiter_normalProjector1X jointP * x (SolveBody.velocity body1) in
  let dV := dV - normalLimiter_normalProjector1Y jointP * y (SolveBody.velocity body1) in
  let dV := dV - normalLimiter_angularProjector1 jointP * SolveBody.angularVelocity body1 in
  let dV := dV - normalLimiter_normalProjector2X jointP * x (SolveBody.velocity body2) in
  let dV := dV - normalLimiter_normalProjector2Y jointP * y (SolveBody.velocity body2) in
  let dV := dV - normalLimiter_angularProjector2 jointP * SolveBody.angularVelocity body2 in
  dV.

(** [displacingDeltaImpulse] after its [max]. *)
Definition displacingDeltaImpulse_SoA (jointP : ContactJointPacked.t)
    (body1 body2 : SolveBody.t) : float :=
  let displacingDeltaImpulse :=
    displacingdV_SoA jointP body1 body2 * normalLimiter_compInvMass jointP in
  simd.max displacingDeltaImpulse
    (- normalLimiter_accumulatedDisplacingImpulse jointP).

(** The arithmetic of one lane of [Solver::SolveJointsDisplacementSoA]. *)
Definition SolveJointsDisplacementSoA_lane (iterationIndex : Z)
    (body1 body2 : SolveBody.t) (jointP : ContactJointPacked.t)
  : SolveBody.t * SolveBody.t * ContactJointPacked.t * bool :=
  let iterationIndex0 := iterationIndex in
  let j_normalLimiter_accumulatedDisplacingImpulse :=
    normalLimiter_accumulatedDisplacingImpulse jointP in
  let displacingDeltaImpulse := displacingDeltaImpulse_SoA jointP body1 body2 in
  let body1 :=
    add_impulse (normalLimiter_compMass1_linearX jointP)
      (normalLimiter_compMass1_linearY jointP)
      (normalLimiter_compMass1_angular jointP) displacingDeltaImpulse body1 in
  let body2 :=
    add_impulse (normalLimiter_compMass2_linearX jointP)
      (normalLimiter_compMass2_linearY jointP)
      (normalLimiter_compMass2_angular jointP) displacingDeltaImpulse body2 in
  let j_normalLimiter_accumulatedDisplacingImpulse :=
    j_normalLimiter_accumulatedDisplacingImpulse + displacingDeltaImpulse in
  let jointP :=
    store_normalLimiter_accumulatedDisplacingImpulse
      j_normalLimiter_accumulatedDisplacingImpulse jointP in
  let productive := ltb kProductiveImpulse (simd.abs displacingDeltaImpulse) in
  (select_lastIteration iterationIndex0 productive body1,
   select_lastIteration iterationIndex0 productive body2,
   jointP, productive).

(** One channel of the SoA state: the body array of the channel and the
    packed joints. *)
Record SoA := mkSoA {
  soa_bodies : list SolveBody.t;
  soa_packed : list ContactJointPacked.t
}.

(** [body_productive] of one lane:
    [body1_lastIteration > iterationIndex2 | body2_lastIteration > iterationIndex2]
    with [iterationIndex2 = iterationIndex - 2]. *)
Definition body_productive (iterationIndex last1 last2 : Z) : bool :=
  let iterationIndex2 := (iterationIndex - 2)%Z in
  (iterationIndex2 <? last1)%Z || (iterationIndex2 <? last2)%Z.

(** The body of the loop of the kernel template of vector width [VN]
    for the batch of lanes [jointIndex .. jointIndex + VN), given the
    arithmetic of a lane: gather ([loadindexed4]) the two bodies of
    every lane, leave if no lane is productive, compute every lane,
    store the accumulators, scatter ([storeindexed4]) the first bodies
    and then the second bodies. *)
Definition SolveJointsSoA_body
    (lane : Z -> SolveBody.t -> SolveBody.t -> ContactJointPacked.t ->
            SolveBody.t * SolveBody.t * ContactJointPacked.t * bool)
    (VN : nat) (iterationIndex : Z) (jointIndex : nat) (s : SoA) : SoA * bool :=
  let lanes := seq jointIndex VN in
  let gathered :=
    map (fun i =>
           let jointP := soa_packed s !!! i in
           (i, soa_bodies s !!! body1Index jointP,
               soa_bodies s !!! body2Index jointP, jointP)) lanes in
  if forallb (fun '(_, body1, body2, _) =>
                negb (body_productive iterationIndex
                        (SolveBody.lastIteration body1)
                        (SolveBody.lastIteration body2))) gathered
  then (s, false)
  else
    let computed :=
      map (fun '(i, body1, body2, jointP) =>
             (i, lane iterationIndex body1 body2 jointP)) gathered in
    let packed :=
      foldl (fun packed '(i, (_, _, jointP, _)) => <[i := jointP]> packed)
        (soa_packed s) computed in
    let bodies :=
      foldl (fun bodies '(_, (body1, _, jointP, _)) =>
               <[body1Index jointP := body1]> bodies)
        (soa_bodies s) computed in
    let bodies :=
      foldl (fun bodies '(_, (_, body2, jointP, _)) =>
               <[body2Index jointP := body2]> bodies)
        bodies computed in
    (mkSoA bodies packed,
     existsb (fun '(_, (_, _, _, productive)) => productive) computed).

(** The loop of the kernels: [jointIndex] from [jointStart] in steps of
    [VN] while below [jointStart + jointCount].  The source asserts
    that [jointStart] and [jointCount] are multiples of [VN]. *)
Definition for_batches (body : nat -> SoA -> SoA * bool)
    (VN jointStart jointCount : nat) (s : SoA) : SoA * bool :=
  foldl (fun (acc : SoA * bool) k =>
           let (s', productive) := body (jointStart + k * VN)%nat (fst acc) in
           (s', snd acc || productive))
    (s, false) (seq 0 ((jointCount + VN - 1) / VN)%nat).

(** [Solver::SolveJointsImpulsesSoA<VN, N>] on [solveBodiesImpulse] *)
Definition SolveJointsImpulsesSoA (VN jointStart jointCount : nat)
    (iterationIndex : Z) (s : SoA) : SoA * bool :=
  for_batches (SolveJointsSoA_body SolveJointsImpulsesSoA_lane VN iterationIndex)
    VN jointStart jointCount s.

(** [Solver::SolveJointsDisplacementSoA<VN, N>] on
    [solveBodiesDisplacement] *)
Definition SolveJointsDisplacementSoA (VN jointStart jointCount : nat)
    (iterationIndex : Z) (s : SoA) : SoA * bool :=
  for_batches (SolveJointsSoA_body SolveJointsDisplacementSoA_lane VN iterationIndex)
    VN jointStart jointCount s.

End KernelsSoA.

(** ** The hand-written 16-wide kernels ([__AVX2__] and [__FMA__]) *)

(** The AVX2 and FMA intrinsics that the 16-wide kernels use, on one
    lane and in exact arithmetic: [sign] is the sign-bit mask, so
    [_mm256_xor_ps(sign, a)] negates, [_mm256_andnot_ps(sign, a)] is the
    absolute value, and
    [_mm256_xor_ps(_mm256_and_ps(y, sign), x)] gives [x] the sign of [y]
    times its own. *)
Module avx.

Local Open Scope Qc_scope.

Definition fnmadd_ps (a b c : float) : float := - (a * b) + c.

Definition fmadd_ps (a b c : float) : float := a * b + c.

Definition max_ps (a b : float) : float := if ltb a b then b else a.

Definition xor_sign (a : float) : float := - a.

Definition andnot_sign (a : float) : float := Qcabs a.

Definition xor_and_sign (y x : float) : float := if ltb y 0 then - x else x.

Definition cmp_gt (a b : float) : bool := ltb b a.

Definition blendv {A : Type} (a b : A) (mask : bool) : A :=
  if mask then b else a.

End avx.

Section KernelsFMA.

Local Open Scope Qc_scope.

Import ContactJointPacked.

(** The three [fmadd] statements that add an impulse to the registers of
    one body. *)
Definition fmadd_impulse (linX linY ang delta : float) (body : SolveBody.t)
  : SolveBody.t :=
  SolveBody.mk
    (mkVector2f (avx.fmadd_ps linX delta (x (SolveBody.velocity body)))
                (avx.fmadd_ps linY delta (y (SolveBody.velocity body))))
    (avx.fmadd_ps ang delta (SolveBody.angularVelocity body))
    (SolveBody.lastIteration body).

(** [body_lastIteration = blendv(body_lastIteration, iterationIndex0, productive)] *)
Definition blendv_lastIteration (iterationIndex0 : Z) (productive : bool)
    (body : SolveBody.t) : SolveBody.t :=
  SolveBody.mk (SolveBody.velocity body) (SolveBody.angularVelocity body)
    (avx.blendv (SolveBody.lastIteration body) iterationIndex0 productive).

(** [normalDeltaImpulse] of one lane of [SolveJointsImpulsesSoA_FMA],
    after [_mm256_max_ps]. *)
Definition normalDeltaImpulse_FMA (jointP : ContactJointPacked.t)
    (body1 body2 : SolveBody.t) : float :=
  let normaldV1 := normalLimiter_dstVelocity jointP in
  let normaldV1 := avx.fnmadd_ps (normalLimiter_normalProjector1X jointP) (x (SolveBody.velocity body1)) normaldV1 in
  let normaldV1 := avx.fnmadd_ps (normalLimiter_normalProjector1Y jointP) (y (SolveBody.velocity body1)) normaldV1 in
  let normaldV1 := avx.fnmadd_ps (normalLimiter_angularProjector1 jointP) (SolveBody.angularVelocity body1) normaldV1 in
  let normaldV2 := 0 in
  let normaldV2 := avx.fnmadd_ps (normalLimiter_normalProjector2X jointP) (x (SolveBody.velocity body2)) normaldV2 in
  let normaldV2 := avx.fnmadd_ps (normalLimiter_normalProjector2Y jointP) (y (SolveBody.velocity body2)) normaldV2 in
  let normaldV2 := avx.fnmadd_ps (normalLimiter_angularProjector2 jointP) (SolveBody.angularVelocity body2) normaldV2 in
  let normaldV := normaldV1 + normaldV2 in
  let normalDeltaImpulse := normaldV * normalLimiter_compInvMass jointP in
  avx.max_ps normalDeltaImpulse
    (avx.xor_sign (normalLimiter_accumulatedImpulse jointP)).

(** [frictionDeltaImpulse] of one lane, after [_mm256_blendv_ps]. *)
Definition frictionDeltaImpulse_FMA (jointP : ContactJointPacked.t)
    (j_normalLimiter_accumulatedImpulse : float)
    (body1 body2 : SolveBody.t) : float :=
  let frictiondV0 := 0 in
  let frictiondV0 := avx.fnmadd_ps (frictionLimiter_normalProjector1X jointP) (x (SolveBody.velocity body1)) frictiondV0 in
  let frictiondV0 := avx.fnmadd_ps (frictionLimiter_normalProjector1Y jointP) (y (SolveBody.velocity body1)) frictiondV0 in
  let frictiondV0 := avx.fnmadd_ps (frictionLimiter_angularProjector1 jointP) (SolveBody.angularVelocity body1) frictiondV0 in
  let frictiondV1 := 0 in
  let frictiondV1 := avx.fnmadd_ps (frictionLimiter_normalProjector2X jointP) (x (SolveBody.velocity body2)) frictiondV1 in
  let frictiondV1 := avx.fnmadd_ps (frictionLimiter_normalProjector2Y jointP) (y (SolveBody.velocity body2)) frictiondV1 in
  let frictiondV1 := avx.fnmadd_ps (frictionLimiter_angularProjector2 jointP) (SolveBody.angularVelocity body2) frictiondV1 in
  let frictiondV := frictiondV0 + frictiondV1 in
  let frictionDeltaImpulse := frictiondV * frictionLimiter_compInvMass jointP in
  let reactionForce := j_normalLimiter_accumulatedImpulse in
  let accumulatedImpulse := frictionLimiter_accumulatedImpulse jointP in
  let frictionForce := accumulatedImpulse + frictionDeltaImpulse in
  let reactionForceScaled := reactionForce * kFrictionCoefficient in
  let frictionForceAbs := avx.andnot_sign frictionForce in
  let reactionForceScaledSigned := avx.xor_and_sign frictionForce reactionForceScaled in
  let frictionDeltaImpulseAdjusted := reactionForceScaledSigned - accumulatedImpulse in
  let frictionSelector := avx.cmp_gt frictionForceAbs reactionForceScaled in
  avx.blendv frictionDeltaImpulse frictionDeltaImpulseAdjusted frictionSelector.

(** The arithmetic of one lane of [Solver::SolveJointsImpulsesSoA_FMA]. *)
Definition SolveJointsImpulsesSoA_FMA_lane (iterationIndex : Z)
    (body1 body2 : SolveBody.t) (jointP : ContactJointPacked.t)
  : SolveBody.t * SolveBody.t * ContactJointPacked.t * bool :=
  let iterationIndex0 := iterationIndex in
  let j_normalLimiter_accumulatedImpulse := normalLimiter_accumulatedImpulse jointP in
  let j_frictionLimiter_accumulatedImpulse := frictionLimiter_accumulatedImpulse jointP in
  let normalDeltaImpulse := normalDeltaImpulse_FMA jointP body1 body2 in
  let body1 :=
    fmadd_impulse (normalLimiter_compMass1_linearX jointP)
      (normalLimiter_compMass1_linearY jointP)
      (normalLimiter_compMass1_angular jointP) normalDeltaImpulse body1 in
  let body2 :=
    fmadd_impulse (normalLimiter_compMass2_linearX jointP)
      (normalLimiter_compMass2_linearY jointP)
      (normalLimiter_compMass2_angular jointP) normalDeltaImpulse body2 in
  let j_normalLimiter_accumulatedImpulse :=
    j_normalLimiter_accumulatedImpulse + normalDeltaImpulse in
  let frictionDeltaImpulse :=
    frictionDeltaImpulse_FMA jointP j_normalLimiter_accumulatedImpulse
      body1 body2 in
  let j_frictionLimiter_accumulatedImpulse :=
    j_frictionLimiter_accumulatedImpulse + frictionDeltaImpulse in
  let body1 :=
    fmadd_impulse (frictionLimiter_compMass1_linearX jointP)
      (frictionLimiter_compMass1_linearY jointP)
      (frictionLimiter_compMass1_angular jointP) frictionDeltaImpulse body1 in
  let body2 :=
    fmadd_impulse (frictionLimiter_compMass2_linearX jointP)
      (frictionLimiter_compMass2_linearY jointP)
      (frictionLimiter_compMass2_angular jointP) frictionDeltaImpulse body2 in
  let jointP :=
    store_frictionLimiter_accumulatedImpulse j_frictionLimiter_accumulatedImpulse
      (store_normalLimiter_accumulatedImpulse j_normalLimiter_accumulatedImpulse
         jointP) in
  let cumulativeImpulse :=
    avx.max_ps (avx.andnot_sign normalDeltaImpulse)
      (avx.andnot_sign frictionDeltaImpulse) in
  let productive := avx.cmp_gt cumulativeImpulse kProductiveImpulse in
  (blendv_lastIteration iterationIndex0 productive body1,
   blendv_lastIteration iterationIndex0 productive body2,
   jointP, productive).

(** [displacingDeltaImpulse] of one lane of
    [SolveJointsDisplacementSoA_FMA], after [_mm256_max_ps]. *)
Definition displacingDeltaImpulse_FMA (jointP : ContactJointPacked.t)
    (body1 body2 : SolveBody.t) : float :=
  let dV0 := normalLimiter_dstDisplacingVelocity jointP in
  let dV0 := avx.fnmadd_ps (normalLimiter_normalProjector1X jointP) (x (SolveBody.velocity body1)) dV0 in
  let dV0 := avx.fnmadd_ps (normalLimiter_normalProjector1Y jointP) (y (SolveBody.velocity body1)) dV0 in
  let dV0 := avx.fnmadd_ps (normalLimiter_angularProjector1 jointP) (SolveBody.angularVelocity body1) dV0 in
  let dV1 := 0 in
  let dV1 := avx.fnmadd_ps (normalLimiter_normalProjector2X jointP) (x (SolveBody.velocity body2)) dV1 in
  let dV1 := avx.fnmadd_ps (normalLimiter_normalProjector2Y jointP) (y (SolveBody.velocity body2)) dV1 in
  let dV1 := avx.fnmadd_ps (normalLimiter_angularProjector2 jointP) (SolveBody.angularVelocity body2) dV1 in
  let dV := dV0 + dV1 in
  let displacingDeltaImpulse := dV * normalLimiter_compInvMass jointP in
  avx.max_ps displacingDeltaImpulse
    (avx.xor_sign (normalLimiter_accumulatedDisplacingImpulse jointP)).

(** The arithmetic of one lane of [Solver::SolveJointsDisplacementSoA_FMA]. *)
Definition SolveJointsDisplacementSoA_FMA_lane (iterationIndex : Z)
    (body1 body2 : SolveBody.t) (jointP : ContactJointPacked.t)
  : SolveBody.t * SolveBody.t * ContactJointPacked.t * bool :=
  let iterationIndex0 := iterationIndex in
  let j_normalLimiter_accumulatedDisplacingImpulse :=
    normalLimiter_accumulatedDisplacingImpulse jointP in
  let displacingDeltaImpulse := displacingDeltaImpulse_FMA jointP body1 body2 in
  let body1 :=
    fmadd_impulse (normalLimiter_compMass1_linearX jointP)
      (normalLimiter_compMass1_linearY jointP)
      (normalLimiter_compMass1_angular jointP) displacingDeltaImpulse body1 in
  let body2 :=
    fmadd_impulse (normalLimiter_compMass2_linearX jointP)
      (normalLimiter_compMass2_linearY jointP)
      (normalLimiter_compMass2_angular jointP) displacingDeltaImpulse body2 in
  let j_normalLimiter_accumulatedDisplacingImpulse :=
    j_normalLimiter_accumulatedDisplacingImpulse + displacingDeltaImpulse in
  let jointP :=
    store_normalLimiter_accumulatedDisplacingImpulse
      j_normalLimiter_accumulatedDisplacingImpulse jointP in
  let productive :=
    avx.cmp_gt (avx.andnot_sign displacingDeltaImpulse) kProductiveImpulse in
  (blendv_lastIteration iterationIndex0 productive body1,
   blendv_lastIteration iterationIndex0 productive body2,
   jointP, productive).

(** [body_productive] of one lane of the 16-wide kernels:
    [max(body1_lastIteration, body2_lastIteration) > iterationIndex2]. *)
Definition body_productive_FMA (iterationIndex last1 last2 : Z) : bool :=
  let iterationIndex2 := (iterationIndex - 2)%Z in
  (iterationIndex2 <? Z.max last1 last2)%Z.

(** The body of the loop of the 16-wide kernels for the block of lanes
    [jointIndex .. jointIndex + 16): gather the two bodies of every
    lane, leave if no lane is productive, compute every lane, store the
    accumulators, and store the two bodies of each lane in turn. *)
Definition SolveJointsSoA_FMA_body
    (lane : Z -> SolveBody.t -> SolveBody.t -> ContactJointPacked.t ->
            SolveBody.t * SolveBody.t * ContactJointPacked.t * bool)
    (iterationIndex : Z) (jointIndex : nat) (s : SoA) : SoA * bool :=
  let lanes := seq jointIndex 16 in
  let gathered :=
    map (fun i =>
           let jointP := soa_packed s !!! i in
           (i, soa_bodies s !!! body1Index jointP,
               soa_bodies s !!! body2Index jointP, jointP)) lanes in
  if forallb (fun '(_, body1, body2, _) =>
                negb (body_productive_FMA iterationIndex
                        (SolveBody.lastIteration body1)
                        (SolveBody.lastIteration body2))) gathered
  then (s, false)
  else
    let computed :=
      map (fun '(i, body1, body2, jointP) =>
             (i, lane iterationIndex body1 body2 jointP)) gathered in
    let packed :=
      foldl (fun packed '(i, (_, _, jointP, _)) => <[i := jointP]> packed)
        (soa_packed s) computed in
    let bodies :=
      foldl (fun bodies '(_, (body1, body2, jointP, _)) =>
               <[body2Index jointP := body2]>
                 (<[body1Index jointP := body1]> bodies))
        (soa_bodies s) computed in
    (mkSoA bodies packed,
     existsb (fun '(_, (_, _, _, productive)) => productive) computed).

(** [Solver::SolveJointsImpulsesSoA_FMA] on [solveBodiesImpulse] *)
Definition SolveJointsImpulsesSoA_FMA (jointStart jointCount : nat)
    (iterationIndex : Z) (s : SoA) : SoA * bool :=
  for_batches (SolveJointsSoA_FMA_body SolveJointsImpulsesSoA_FMA_lane
                 iterationIndex) 16 jointStart jointCount s.

(** [Solver::SolveJointsDisplacementSoA_FMA] on [solveBodiesDisplacement] *)
Definition SolveJointsDisplacementSoA_FMA (jointStart jointCount : nat)
    (iterationIndex : Z) (s : SoA) : SoA * bool :=
  for_batches (SolveJointsSoA_FMA_body SolveJointsDisplacementSoA_FMA_lane
                 iterationIndex) 16 jointStart jointCount s.

End KernelsFMA.

(** ** Packing, unpacking and the SoA drivers *)

(** Modelled from the spec: base/AlignedArray.h is not among the
    sources.  [resize(n)] sets the size of the array to [n]; entries
    below the old size keep their content (the scratch arrays "grow
    monotonically"), new entries hold unspecified values, here the
    default. *)
Definition resize {A : Type} `{Inhabited A} (n : nat) (a : list A) : list A :=
  take n a ++ replicate (n - length a) inhabitant.

Section PackingSoA.

Local Open Scope Qc_scope.

(** The assignments of [Solver::SolvePrepareSoA] that fill lane [iP] of
    [jointP] from [joint], field by field. *)
Definition pack (joint : ContactJoint) : ContactJointPacked.t :=
  ContactJointPacked.mk
    (body1Index joint)
    (body2Index joint)
    (x (normalProjector1 (normalLimiter joint)))
    (y (normalProjector1 (normalLimiter joint)))
    (x (normalProjector2 (normalLimiter joint)))
    (y (normalProjector2 (normalLimiter joint)))
    (angularProjector1 (normalLimiter joint))
    (angularProjector2 (normalLimiter joint))
    (x (compMass1_linear (normalLimiter joint)))
    (y (compMass1_linear (normalLimiter joint)))
    (x (compMass2_linear (normalLimiter joint)))
    (y (compMass2_linear (normalLimiter joint)))
    (compMass1_angular (normalLimiter joint))
    (compMass2_angular (normalLimiter joint))
    (compInvMass (normalLimiter joint))
    (accumulatedImpulse (normalLimiter joint))
    (dstVelocity (normalLimiter joint))
    (dstDisplacingVelocity (normalLimiter joint))
    (accumulatedDisplacingImpulse (normalLimiter joint))
    (x (normalProjector1 (frictionLimiter joint)))
    (y (normalProjector1 (frictionLimiter joint)))
    (x (normalProjector2 (frictionLimiter joint)))
    (y (normalProjector2 (frictionLimiter joint)))
    (angularProjector1 (frictionLimiter joint))
    (angularProjector2 (frictionLimiter joint))
    (x (compMass1_linear (frictionLimiter joint)))
    (y (compMass1_linear (frictionLimiter joint)))
    (x (compMass2_linear (frictionLimiter joint)))
    (y (compMass2_linear (frictionLimiter joint)))
    (compMass1_angular (frictionLimiter joint))
    (compMass2_angular (frictionLimiter joint))
    (compInvMass (frictionLimiter joint))
    (accumulatedImpulse (frictionLimiter joint)).

(** The three assignments of [Solver::SolveFinishSoA] that write the
    accumulators of lane [iP] of [jointP] back to [joint]. *)
Definition unpack (jointP : ContactJointPacked.t) (joint : ContactJoint)
  : ContactJoint :=
  let nl :=
    set_accumulatedDisplacingImpulse
      (ContactJointPacked.normalLimiter_accumulatedDisplacingImpulse jointP)
      (set_accumulatedImpulse
         (ContactJointPacked.normalLimiter_accumulatedImpulse jointP)
         (normalLimiter joint)) in
  let fl :=
    set_accumulatedImpulse
      (ContactJointPacked.frictionLimiter_accumulatedImpulse jointP)
      (frictionLimiter joint) in
  set_frictionLimiter fl (set_normalLimiter nl joint).

(** [Solver::SolvePrepareSoA<N>]: the group offset, the solver and the
    packed array, or [None] when the grouping pass does not return. *)
Definition SolvePrepareSoA (solver : Solver)
    (joint_packed : list ContactJointPacked.t)
    (bodies : list RigidBody) (bodiesCount groupSizeTarget : nat)
  : option (nat * Solver * list ContactJointPacked.t) :=
  let solveBodiesImpulse :=
    foldl (fun (a : list SolveBody.t) i =>
             <[i := SolveBody.mk (velocity (bodies !!! i))
                      (angularVelocity (bodies !!! i)) (-1)]> a)
      (resize bodiesCount (solveBodiesImpulse solver)) (seq 0 bodiesCount) in
  let solveBodiesDisplacement :=
    foldl (fun (a : list SolveBody.t) i =>
             <[i := SolveBody.mk (displacingVelocity (bodies !!! i))
                      (displacingAngularVelocity (bodies !!! i)) (-1)]> a)
      (resize bodiesCount (solveBodiesDisplacement solver)) (seq 0 bodiesCount) in
  let jointCount := length (contactJoints solver) in
  let g := groups solver in
  let g := mkGroups (jointGroup_bodies g) (jointGroup_joints g)
             (resize jointCount (joint_index g)) in
  let joint_packed := resize jointCount joint_packed in
  match SolvePrepareIndicesSoA (contactJoints solver) groupSizeTarget
          bodiesCount g with
  | None => None
  | Some (groupOffset, g) =>
      let joint_packed :=
        foldl (fun (a : list ContactJointPacked.t) i =>
                 <[i := pack (contactJoints solver !!! (joint_index g !!! i))]> a)
          joint_packed (seq 0 jointCount) in
      Some (groupOffset,
            mkSolver (contactJoints solver) solveBodiesImpulse
              solveBodiesDisplacement g,
            joint_packed)
  end.

(** [Solver::SolveFinishSoA<N>]: the caller's bodies, the solver and the
    returned average, the binary32 quotient
    [float(iterationSum) / float(jointCount)] of an [int] sum. *)
Definition SolveFinishSoA (solver : Solver)
    (joint_packed : list ContactJointPacked.t)
    (bodies : list RigidBody) (bodiesCount : nat)
  : list RigidBody * Solver * Binary32.binary32 :=
  let bodies :=
    foldl (fun (bodies : list RigidBody) i =>
             alter (fun b =>
                      mkRigidBody
                        (SolveBody.velocity (solveBodiesImpulse solver !!! i))
                        (SolveBody.angularVelocity (solveBodiesImpulse solver !!! i))
                        (SolveBody.velocity (solveBodiesDisplacement solver !!! i))
                        (SolveBody.angularVelocity (solveBodiesDisplacement solver !!! i))
                        (lastIteration b) (lastDisplacementIteration b))
               i bodies)
      bodies (seq 0 bodiesCount) in
  let jointCount := length (contactJoints solver) in
  let joints :=
    foldl (fun (joints : list ContactJoint) i =>
             alter (unpack (joint_packed !!! i))
               (joint_index (groups solver) !!! i) joints)
      (contactJoints solver) (seq 0 jointCount) in
  let iterationSum :=
    foldl (fun (iterationSum : Z) i =>
             let jointP := joint_packed !!! i in
             let bi1 := ContactJointPacked.body1Index jointP in
             let bi2 := ContactJointPacked.body2Index jointP in
             let iterationSum :=
               int_add iterationSum
                 (int_add
                    (Z.max (SolveBody.lastIteration (solveBodiesImpulse solver !!! bi1))
                       (SolveBody.lastIteration (solveBodiesImpulse solver !!! bi2)))
                    2) in
             int_add iterationSum
               (int_add
                  (Z.max (SolveBody.lastIteration (solveBodiesDisplacement solver !!! bi1))
                     (SolveBody.lastIteration (solveBodiesDisplacement solver !!! bi2)))
                  2))
      0%Z (seq 0 jointCount) in
  (bodies,
   mkSolver joints (solveBodiesImpulse solver) (solveBodiesDisplacement solver)
     (groups solver),
   Binary32.div (Binary32.of_int iterationSum)
     (Binary32.of_int (Z.of_nat jointCount))).

(** The state of an SoA driver between prepare and finish: the solver
    and the packed array it was handed. *)
Definition SoAState : Type := Solver * list ContactJointPacked.t.

(** A kernel run on the impulse channel, [solveBodiesImpulse]. *)
Definition on_impulse (kernel : SoA -> SoA * bool) (st : SoAState)
  : SoAState * bool :=
  let (solver, joint_packed) := st in
  let (s, productive) := kernel (mkSoA (solveBodiesImpulse solver) joint_packed) in
  (mkSolver (contactJoints solver) (soa_bodies s)
     (solveBodiesDisplacement solver) (groups solver),
   soa_packed s, productive).

(** A kernel run on the displacement channel, [solveBodiesDisplacement]. *)
Definition on_displacement (kernel : SoA -> SoA * bool) (st : SoAState)
  : SoAState * bool :=
  let (solver, joint_packed) := st in
  let (s, productive) := kernel (mkSoA (solveBodiesDisplacement solver) joint_packed) in
  (mkSolver (contactJoints solver) (solveBodiesImpulse solver)
     (soa_bodies s) (groups solver),
   soa_packed s, productive).

(** One pass of a backend with a grouped prefix and a scalar tail:
    [productive |= wide(0, groupOffset);
     productive |= scalar(groupOffset, jointCount - groupOffset);] *)
Definition grouped_pass (wide scalar : nat -> nat -> Z -> SoA -> SoA * bool)
    (groupOffset jointCount : nat) (iterationIndex : Z) (s : SoA)
  : SoA * bool :=
  let productive := false in
  let (s, p) := wide 0%nat groupOffset iterationIndex s in
  let productive := productive || p in
  let (s, p) := scalar groupOffset (jointCount - groupOffset)%nat
                  iterationIndex s in
  (s, productive || p).

(** [Solver::SolveJointsSoA_Scalar] *)
Definition SolveJointsSoA_Scalar (solver : Solver)
    (joint_packed4 : list ContactJointPacked.t)
    (bodies : list RigidBody) (bodiesCount : nat)
    (contactIterationsCount penetrationIterationsCount : nat)
  : option (list RigidBody * Solver * Binary32.binary32) :=
  match SolvePrepareSoA solver joint_packed4 bodies bodiesCount 1 with
  | None => None
  | Some (_, solver, joint_packed4) =>
      let jointCount := length (contactJoints solver) in
      Some (solve
              (fun i => on_impulse (SolveJointsImpulsesSoA 1 0 jointCount i))
              (fun i => on_displacement (SolveJointsDisplacementSoA 1 0 jointCount i))
              (fun st => SolveFinishSoA (fst st) (snd st) bodies bodiesCount)
              contactIterationsCount penetrationIterationsCount
              (solver, joint_packed4))
  end.

(** [Solver::SolveJointsSoA_SSE2] ([VN = 4], on [joint_packed4]) and
    [Solver::SolveJointsSoA_AVX2] ([VN = 8], on [joint_packed8]). *)
Definition SolveJointsSoA_SIMD (VN : nat) (solver : Solver)
    (joint_packed : list ContactJointPacked.t)
    (bodies : list RigidBody) (bodiesCount : nat)
    (contactIterationsCount penetrationIterationsCount : nat)
  : option (list RigidBody * Solver * Binary32.binary32) :=
  match SolvePrepareSoA solver joint_packed bodies bodiesCount VN with
  | None => None
  | Some (groupOffset, solver, joint_packed) =>
      let jointCount := length (contactJoints solver) in
      Some (solve
              (fun i => on_impulse
                 (grouped_pass (SolveJointsImpulsesSoA VN)
                    (SolveJointsImpulsesSoA 1) groupOffset jointCount i))
              (fun i => on_displacement
                 (grouped_pass (SolveJointsDisplacementSoA VN)
                    (SolveJointsDisplacementSoA 1) groupOffset jointCount i))
              (fun st => SolveFinishSoA (fst st) (snd st) bodies bodiesCount)
              contactIterationsCount penetrationIterationsCount
              (solver, joint_packed))
  end.

Definition SolveJointsSoA_SSE2 := SolveJointsSoA_SIMD 4.

Definition SolveJointsSoA_AVX2 := SolveJointsSoA_SIMD 8.

(** [Solver::SolveJointsSoA_FMA], on [joint_packed16] *)
Definition SolveJointsSoA_FMA (solver : Solver)
    (joint_packed16 : list ContactJointPacked.t)
    (bodies : list RigidBody) (bodiesCount : nat)
    (contactIterationsCount penetrationIterationsCount : nat)
  : option (list RigidBody * Solver * Binary32.binary32) :=
  match SolvePrepareSoA solver joint_packed16 bodies bodiesCount 16 with
  | None => None
  | Some (groupOffset, solver, joint_packed16) =>
      let jointCount := length (contactJoints solver) in
      Some (solve
              (fun i => on_impulse
                 (grouped_pass SolveJointsImpulsesSoA_FMA
                    (SolveJointsImpulsesSoA 1) groupOffset jointCount i))
              (fun i => on_displacement
                 (grouped_pass SolveJointsDisplacementSoA_FMA
                    (SolveJointsDisplacementSoA 1) groupOffset jointCount i))
              (fun st => SolveFinishSoA (fst st) (snd st) bodies bodiesCount)
              contactIterationsCount penetrationIterationsCount
              (solver, joint_packed16))
  end.

End PackingSoA.

(** ** The array-of-structs backend in binary32 *)

(** The AoS backend once more, statement for statement as above, with
    every [float] a [Binary32] value and every operation rounded: what
    the processor computes.  A compound assignment [a += b * c] is a
    rounded product followed by a rounded sum. *)
Module Rounded.

Local Open Scope binary32_scope.

Abbreviation float := Binary32.binary32.

(** Modelled from the spec: Vector2.h, RigidBody.h and Joints.h are not
    among the sources; the same fields as in the data model above. *)
Record Vector2f := mkVector2f { x : float; y : float }.

Record RigidBody := mkRigidBody {
  velocity : Vector2f;
  angularVelocity : float;
  displacingVelocity : Vector2f;
  displacingAngularVelocity : float;
  lastIteration : Z;
  lastDisplacementIteration : Z
}.

Record Limiter := mkLimiter {
  normalProjector1 : Vector2f;
  normalProjector2 : Vector2f;
  angularProjector1 : float;
  angularProjector2 : float;
  compMass1_linear : Vector2f;
  compMass2_linear : Vector2f;
  compMass1_angular : float;
  compMass2_angular : float;
  compInvMass : float;
  accumulatedImpulse : float;
  dstVelocity : float;
  dstDisplacingVelocity : float;
  accumulatedDisplacingImpulse : float
}.

Record ContactJoint := mkContactJoint {
  body1Index : nat;
  body2Index : nat;
  normalLimiter : Limiter;
  frictionLimiter : Limiter
}.

Definition zero2 : Vector2f := mkVector2f Binary32.zero Binary32.zero.

#[global] Instance Vector2f_inhabited : Inhabited Vector2f := populate zero2.

#[global] Instance RigidBody_inhabited : Inhabited RigidBody :=
  populate (mkRigidBody zero2 Binary32.zero zero2 Binary32.zero 0%Z 0%Z).

#[global] Instance Limiter_inhabited : Inhabited Limiter :=
  populate (mkLimiter zero2 zero2 Binary32.zero Binary32.zero zero2 zero2
              Binary32.zero Binary32.zero Binary32.zero Binary32.zero
              Binary32.zero Binary32.zero Binary32.zero).

#[global] Instance ContactJoint_inhabited : Inhabited ContactJoint :=
  populate (mkContactJoint 0 0 inhabitant inhabitant).

Definition set_accumulatedImpulse (v : float) (l : Limiter) : Limiter :=
  mkLimiter (normalProjector1 l) (normalProjector2 l)
    (angularProjector1 l) (angularProjector2 l)
    (compMass1_linear l) (compMass2_linear l)
    (compMass1_angular l) (compMass2_angular l)
    (compInvMass l) v
    (dstVelocity l) (dstDisplacingVelocity l) (accumulatedDisplacingImpulse l).

Definition set_accumulatedDisplacingImpulse (v : float) (l : Limiter) : Limiter :=
  mkLimiter (normalProjector1 l) (normalProjector2 l)
    (angularProjector1 l) (angularProjector2 l)
    (compMass1_linear l) (compMass2_linear l)
    (compMass1_angular l) (compMass2_angular l)
    (compInvMass l) (accumulatedImpulse l)
    (dstVelocity l) (dstDisplacingVelocity l) v.

Definition set_normalLimiter (l : Limiter) (j : ContactJoint) : ContactJoint :=
  mkContactJoint (body1Index j) (body2Index j) l (frictionLimiter j).

Definition set_frictionLimiter (l : Limiter) (j : ContactJoint) : ContactJoint :=
  mkContactJoint (body1Index j) (body2Index j) (normalLimiter j) l.

(** [body->velocity.x += lin.x * delta; body->velocity.y += lin.y * delta;
     body->angularVelocity += ang * delta;] *)
Definition add_velocity (lin : Vector2f) (ang delta : float) (b : RigidBody)
  : RigidBody :=
  mkRigidBody
    (mkVector2f (x (velocity b) + x lin * delta) (y (velocity b) + y lin * delta))
    (angularVelocity b + ang * delta)
    (displacingVelocity b) (displacingAngularVelocity b)
    (lastIteration b) (lastDisplacementIteration b).

(** The same three statements on the displacing channel. *)
Definition add_displacingVelocity (lin : Vector2f) (ang delta : float)
    (b : RigidBody) : RigidBody :=
  mkRigidBody (velocity b) (angularVelocity b)
    (mkVector2f (x (displacingVelocity b) + x lin * delta)
                (y (displacingVelocity b) + y lin * delta))
    (displacingAngularVelocity b + ang * delta)
    (lastIteration b) (lastDisplacementIteration b).

Definition set_lastIteration (i : Z) (b : RigidBody) : RigidBody :=
  mkRigidBody (velocity b) (angularVelocity b)
    (displacingVelocity b) (displacingAngularVelocity b)
    i (lastDisplacementIteration b).

Definition set_lastDisplacementIteration (i : Z) (b : RigidBody) : RigidBody :=
  mkRigidBody (velocity b) (angularVelocity b)
    (displacingVelocity b) (displacingAngularVelocity b)
    (lastIteration b) i.

(** [1e-4f] and [0.3f], the binary32 values nearest to the decimal
    numbers: [13743895 * 2^-37] and [10066330 * 2^-25]. *)
Definition kProductiveImpulse : float := S754_finite false 13743895 (-37).
Definition kFrictionCoefficient : float := S754_finite false 10066330 (-25).

Record AoS := mkAoS {
  aos_bodies : list RigidBody;
  aos_joints : list ContactJoint
}.

(** [Solver::SolvePrepareAoS] *)
Definition SolvePrepareAoS (bodies : list RigidBody) (bodiesCount : nat)
  : list RigidBody :=
  foldl (fun bodies bodyIndex =>
           alter (fun b => set_lastDisplacementIteration (-1)
                             (set_lastIteration (-1) b)) bodyIndex bodies)
    bodies (seq 0 bodiesCount).

(** [normaldV] of the impulse kernel: six rounded products, each
    subtracted in turn with a rounding. *)
Definition normaldV_AoS (nl : Limiter) (body1 body2 : RigidBody) : float :=
  let normaldV := dstVelocity nl in
  let normaldV := normaldV - x (normalProjector1 nl) * x (velocity body1) in
  let normaldV := normaldV - y (normalProjector1 nl) * y (velocity body1) in
  let normaldV := normaldV - angularProjector1 nl * angularVelocity body1 in
  let normaldV := normaldV - x (normalProjector2 nl) * x (velocity body2) in
  let normaldV := normaldV - y (normalProjector2 nl) * y (velocity body2) in
  let normaldV := normaldV - angularProjector2 nl * angularVelocity body2 in
  normaldV.

(** [normalDeltaImpulse] after its clamp:
    [if (normalDeltaImpulse + accumulatedImpulse < 0.0f)
       normalDeltaImpulse = -accumulatedImpulse;] *)
Definition normalDeltaImpulse_AoS (nl : Limiter) (body1 body2 : RigidBody)
  : float :=
  let normalDeltaImpulse := normaldV_AoS nl body1 body2 * compInvMass nl in
  if Binary32.ltb (normalDeltaImpulse + accumulatedImpulse nl) Binary32.zero
  then - accumulatedImpulse nl
  else normalDeltaImpulse.

(** [frictiondV], against the velocities that the normal impulse left. *)
Definition frictiondV_AoS (fl : Limiter) (body1 body2 : RigidBody) : float :=
  let frictiondV := Binary32.zero in
  let frictiondV := frictiondV - x (normalProjector1 fl) * x (velocity body1) in
  let frictiondV := frictiondV - y (normalProjector1 fl) * y (velocity body1) in
  let frictiondV := frictiondV - angularProjector1 fl * angularVelocity body1 in
  let frictiondV := frictiondV - x (normalProjector2 fl) * x (velocity body2) in
  let frictiondV := frictiondV - y (normalProjector2 fl) * y (velocity body2) in
  let frictiondV := frictiondV - angularProjector2 fl * angularVelocity body2 in
  frictiondV.

(** The test of the friction cap:
    [fabsf(frictionForce) > (reactionForce * frictionCoefficient)]. *)
Definition friction_capped (nl fl : Limiter) (body1 body2 : RigidBody) : bool :=
  let frictionDeltaImpulse := frictiondV_AoS fl body1 body2 * compInvMass fl in
  let reactionForce := accumulatedImpulse nl in
  let accumulatedImpulse := accumulatedImpulse fl in
  let frictionForce := accumulatedImpulse + frictionDeltaImpulse in
  let frictionCoefficient := kFrictionCoefficient in
  Binary32.ltb (reactionForce * frictionCoefficient) (Binary32.fabsf frictionForce).

(** [frictionDeltaImpulse] after the friction cap; [nl] is the normal
    limiter with its accumulator already updated. *)
Definition frictionDeltaImpulse_AoS (nl fl : Limiter) (body1 body2 : RigidBody)
  : float :=
  let frictionDeltaImpulse := frictiondV_AoS fl body1 body2 * compInvMass fl in
  let reactionForce := accumulatedImpulse nl in
  let accumulatedImpulse := accumulatedImpulse fl in
  let frictionForce := accumulatedImpulse + frictionDeltaImpulse in
  let frictionCoefficient := kFrictionCoefficient in
  if friction_capped nl fl body1 body2
  then
    let dir := if Binary32.ltb Binary32.zero frictionForce
               then Binary32.one else Binary32.minus_one in
    let frictionForce := dir * reactionForce * frictionCoefficient in
    frictionForce - accumulatedImpulse
  else frictionDeltaImpulse.

(** The body of the loop of [Solver::SolveJointsImpulsesAoS] after the
    early-out, for the joint at [jointIndex]; [body1] and [body2] are
    pointers in the source: every read goes to the body array as it is
    at that statement. *)
Definition SolveJointsImpulsesAoS_joint (iterationIndex : Z) (jointIndex : nat)
    (s : AoS) : AoS * bool :=
  let joint := aos_joints s !!! jointIndex in
  let bodies := aos_bodies s in
  let body1 := body1Index joint in
  let body2 := body2Index joint in
  let nl := normalLimiter joint in
  let fl := frictionLimiter joint in
  let normalDeltaImpulse :=
    normalDeltaImpulse_AoS nl (bodies !!! body1) (bodies !!! body2) in
  let bodies :=
    alter (add_velocity (compMass1_linear nl) (compMass1_angular nl)
             normalDeltaImpulse) body1 bodies in
  let bodies :=
    alter (add_velocity (compMass2_linear nl) (compMass2_angular nl)
             normalDeltaImpulse) body2 bodies in
  let nl := set_accumulatedImpulse (accumulatedImpulse nl + normalDeltaImpulse) nl in
  let frictionDeltaImpulse :=
    frictionDeltaImpulse_AoS nl fl (bodies !!! body1) (bodies !!! body2) in
  let fl := set_accumulatedImpulse (accumulatedImpulse fl + frictionDeltaImpulse) fl in
  let bodies :=
    alter (add_velocity (compMass1_linear fl) (compMass1_angular fl)
             frictionDeltaImpulse) body1 bodies in
  let bodies :=
    alter (add_velocity (compMass2_linear fl) (compMass2_angular fl)
             frictionDeltaImpulse) body2 bodies in
  let joints :=
    <[jointIndex := set_frictionLimiter fl (set_normalLimiter nl joint)]>
      (aos_joints s) in
  let cumulativeImpulse :=
    Binary32.max (Binary32.fabsf normalDeltaImpulse)
      (Binary32.fabsf frictionDeltaImpulse) in
  if Binary32.ltb kProductiveImpulse cumulativeImpulse
  then
    let bodies := alter (set_lastIteration iterationIndex) body1 bodies in
    let bodies := alter (set_lastIteration iterationIndex) body2 bodies in
    (mkAoS bodies joints, true)
  else (mkAoS bodies joints, false).

(** The body of the loop of [Solver::SolveJointsImpulsesAoS]. *)
Definition SolveJointsImpulsesAoS_body (iterationIndex : Z) (jointIndex : nat)
    (s : AoS) : AoS * bool :=
  let joint := aos_joints s !!! jointIndex in
  if skip_AoS iterationIndex
       (lastIteration (aos_bodies s !!! body1Index joint))
       (lastIteration (aos_bodies s !!! body2Index joint))
  then (s, false)
  else SolveJointsImpulsesAoS_joint iterationIndex jointIndex s.

(** [Solver::SolveJointsImpulsesAoS] *)
Definition SolveJointsImpulsesAoS (jointStart jointCount : nat)
    (iterationIndex : Z) (s : AoS) : AoS * bool :=
  for_joints (SolveJointsImpulsesAoS_body iterationIndex) jointStart jointCount s.

(** [dV] of the displacement kernel. *)
Definition displacingdV_AoS (nl : Limiter) (body1 body2 : RigidBody) : float :=
  let dV := dstDisplacingVelocity nl in
  let dV := dV - x (normalProjector1 nl) * x (displacingVelocity body1) in
  let dV := dV - y (normalProjector1 nl) * y (displacingVelocity body1) in
  let dV := dV - angularProjector1 nl * displacingAngularVelocity body1 in
  let dV := dV - x (normalProjector2 nl) * x (displacingVelocity body2) in
  let dV := dV - y (normalProjector2 nl) * y (displacingVelocity body2) in
  let dV := dV - angularProjector2 nl * displacingAngularVelocity body2 in
  dV.

(** [displacingDeltaImpulse] after its clamp. *)
Definition displacingDeltaImpulse_AoS (nl : Limiter) (body1 body2 : RigidBody)
  : float :=
  let displacingDeltaImpulse := displacingdV_AoS nl body1 body2 * compInvMass nl in
  if Binary32.ltb (displacingDeltaImpulse + accumulatedDisplacingImpulse nl)
       Binary32.zero
  then - accumulatedDisplacingImpulse nl
  else displacingDeltaImpulse.

(** The body of the loop of [Solver::SolveJointsDisplacementAoS] after
    the early-out. *)
Definition SolveJointsDisplacementAoS_joint (iterationIndex : Z)
    (jointIndex : nat) (s : AoS) : AoS * bool :=
  let joint := aos_joints s !!! jointIndex in
  let bodies := aos_bodies s in
  let body1 := body1Index joint in
  let body2 := body2Index joint in
  let nl := normalLimiter joint in
  let displacingDeltaImpulse :=
    displacingDeltaImpulse_AoS nl (bodies !!! body1) (bodies !!! body2) in
  let bodies :=
    alter (add_displacingVelocity (compMass1_linear nl) (compMass1_angular nl)
             displacingDeltaImpulse) body1 bodies in
  let bodies :=
    alter (add_displacingVelocity (compMass2_linear nl) (compMass2_angular nl)
             displacingDeltaImpulse) body2 bodies in
  let nl := set_accumulatedDisplacingImpulse
              (accumulatedDisplacingImpulse nl + displacingDeltaImpulse) nl in
  let joints := <[jointIndex := set_normalLimiter nl joint]> (aos_joints s) in
  if Binary32.ltb kProductiveImpulse (Binary32.fabsf displacingDeltaImpulse)
  then
    let bodies := alter (set_lastDisplacementIteration iterationIndex) body1 bodies in
    let bodies := alter (set_lastDisplacementIteration iterationIndex) body2 bodies in
    (mkAoS bodies joints, true)
  else (mkAoS bodies joints, false).

(** The body of the loop of [Solver::SolveJointsDisplacementAoS]. *)
Definition SolveJointsDisplacementAoS_body (iterationIndex : Z) (jointIndex : nat)
    (s : AoS) : AoS * bool :=
  let joint := aos_joints s !!! jointIndex in
  if skip_displacement_AoS iterationIndex
       (lastDisplacementIteration (aos_bodies s !!! body1Index joint))
       (lastDisplacementIteration (aos_bodies s !!! body2Index joint))
  then (s, false)
  else SolveJointsDisplacementAoS_joint iterationIndex jointIndex s.

(** [Solver::SolveJointsDisplacementAoS] *)
Definition SolveJointsDisplacementAoS (jointStart jointCount : nat)
    (iterationIndex : Z) (s : AoS) : AoS * bool :=
  for_joints (SolveJointsDisplacementAoS_body iterationIndex)
    jointStart jointCount s.

(** [Solver::SolveFinishAoS] *)
Definition SolveFinishAoS (s : AoS) : float :=
  let iterationSum :=
    foldl (fun (iterationSum : Z) (joint : ContactJoint) =>
             let body1 := aos_bodies s !!! body1Index joint in
             let body2 := aos_bodies s !!! body2Index joint in
             let iterationSum :=
               int_add iterationSum
                 (int_add (Z.max (lastIteration body1) (lastIteration body2)) 2) in
             int_add iterationSum
               (int_add (Z.max (lastDisplacementIteration body1)
                           (lastDisplacementIteration body2)) 2))
      0%Z (aos_joints s) in
  Binary32.div (Binary32.of_int iterationSum)
    (Binary32.of_int (Z.of_nat (length (aos_joints s)))).

(** [Solver::SolveJointsAoS] *)
Definition SolveJointsAoS (joints : list ContactJoint)
    (bodies : list RigidBody) (bodiesCount : nat)
    (contactIterationsCount penetrationIterationsCount : nat)
  : AoS * float :=
  solve (SolveJointsImpulsesAoS 0 (length joints))
    (SolveJointsDisplacementAoS 0 (length joints))
    (fun s => (s, SolveFinishAoS s))
    contactIterationsCount penetrationIterationsCount
    (mkAoS (SolvePrepareAoS bodies bodiesCount) joints).

(** *** Vocabulary of the properties of the rounded kernels *)

(** The same vector, body, limiter, joint and state: the same numbers
    field by field. *)
Definition same_vector (u v : Vector2f) : Prop :=
  Binary32.same (x u) (x v) /\ Binary32.same (y u) (y v).

Definition same_body (b b' : RigidBody) : Prop :=
  same_vector (velocity b) (velocity b')
  /\ Binary32.same (angularVelocity b) (angularVelocity b')
  /\ same_vector (displacingVelocity b) (displacingVelocity b')
  /\ Binary32.same (displacingAngularVelocity b) (displacingAngularVelocity b')
  /\ lastIteration b = lastIteration b'
  /\ lastDisplacementIteration b = lastDisplacementIteration b'.

(** Two limiters with the same accumulators and every other field
    equal. *)
Definition same_limiter (l l' : Limiter) : Prop :=
  Binary32.same (accumulatedImpulse l) (accumulatedImpulse l')
  /\ Binary32.same (accumulatedDisplacingImpulse l)
       (accumulatedDisplacingImpulse l')
  /\ set_accumulatedImpulse Binary32.zero
       (set_accumulatedDisplacingImpulse Binary32.zero l)
     = set_accumulatedImpulse Binary32.zero
         (set_accumulatedDisplacingImpulse Binary32.zero l').

Definition same_joint (j j' : ContactJoint) : Prop :=
  body1Index j = body1Index j'
  /\ body2Index j = body2Index j'
  /\ same_limiter (normalLimiter j) (normalLimiter j')
  /\ same_limiter (frictionLimiter j) (frictionLimiter j').

Definition same_state (s s' : AoS) : Prop :=
  Forall2 same_body (aos_bodies s) (aos_bodies s')
  /\ Forall2 same_joint (aos_joints s) (aos_joints s').

(** P1 on a joint, with the comparisons of binary32: both normal
    accumulators are at least zero and the friction accumulator is
    within [accumulatedImpulse * kFrictionCoefficient], the product as
    the kernel rounds it.  None of the three is NaN. *)
Definition accumulators_ok (joint : ContactJoint) : Prop :=
  Binary32.leb Binary32.zero (accumulatedImpulse (normalLimiter joint)) = true
  /\ Binary32.leb Binary32.zero
       (accumulatedDisplacingImpulse (normalLimiter joint)) = true
  /\ Binary32.leb
       (Binary32.fabsf (accumulatedImpulse (frictionLimiter joint)))
       (accumulatedImpulse (normalLimiter joint) * kFrictionCoefficient) = true.

(** The sign part of P1, up to NaN. *)
Definition sign_ok (joint : ContactJoint) : Prop :=
  Binary32.nonneg_or_nan (accumulatedImpulse (normalLimiter joint))
  /\ Binary32.nonneg_or_nan (accumulatedDisplacingImpulse (normalLimiter joint)).

(** Both limiters of the joint have no effective mass. *)
Definition degenerate (joint : ContactJoint) : Prop :=
  Binary32.is_zero (compInvMass (normalLimiter joint)) = true
  /\ Binary32.is_zero (compInvMass (frictionLimiter joint)) = true.

(** The twelve mass components that scale an impulse into a velocity
    change are finite. *)
Definition masses (l : Limiter) : list float :=
  [x (compMass1_linear l); y (compMass1_linear l); compMass1_angular l;
   x (compMass2_linear l); y (compMass2_linear l); compMass2_angular l].

Definition finite_masses (joint : ContactJoint) : Prop :=
  Forall (fun a => Binary32.is_finite a = true)
    (masses (normalLimiter joint) ++ masses (frictionLimiter joint)).

(** The three velocity errors that the kernels compute for the joint on
    the two bodies are finite: no product or sum overflowed. *)
Definition errors_finite (joint : ContactJoint) (body1 body2 : RigidBody)
  : Prop :=
  Binary32.is_finite (normaldV_AoS (normalLimiter joint) body1 body2) = true
  /\ Binary32.is_finite (frictiondV_AoS (frictionLimiter joint) body1 body2)
     = true
  /\ Binary32.is_finite (displacingdV_AoS (normalLimiter joint) body1 body2)
     = true.

(** Every [float] of a body, and of a joint, is finite. *)
Definition finite_vector (v : Vector2f) : bool :=
  Binary32.is_finite (x v) && Binary32.is_finite (y v).

Definition finite_body (b : RigidBody) : bool :=
  finite_vector (velocity b) && Binary32.is_finite (angularVelocity b)
  && finite_vector (displacingVelocity b)
  && Binary32.is_finite (displacingAngularVelocity b).

Definition finite_limiter (l : Limiter) : bool :=
  finite_vector (normalProjector1 l) && finite_vector (normalProjector2 l)
  && Binary32.is_finite (angularProjector1 l)
  && Binary32.is_finite (angularProjector2 l)
  && finite_vector (compMass1_linear l) && finite_vector (compMass2_linear l)
  && Binary32.is_finite (compMass1_angular l)
  && Binary32.is_finite (compMass2_angular l)
  && Binary32.is_finite (compInvMass l)
  && Binary32.is_finite (accumulatedImpulse l)
  && Binary32.is_finite (dstVelocity l)
  && Binary32.is_finite (dstDisplacingVelocity l)
  && Binary32.is_finite (accumulatedDisplacingImpulse l).

Definition finite_joint (j : ContactJoint) : bool :=
  finite_limiter (normalLimiter j) && finite_limiter (frictionLimiter j).

(** *** Scenes *)

Definition still : RigidBody :=
  mkRigidBody zero2 Binary32.zero zero2 Binary32.zero 0%Z 0%Z.

(** [2^100], a finite binary32 number whose square is not one. *)
Definition huge : float := S754_finite false 8388608 77.

(** A body that moves at [2^100] along x and at [-2^100] along y. *)
Definition fast_body : RigidBody :=
  mkRigidBody (mkVector2f huge (- huge)) Binary32.zero zero2 Binary32.zero
    0%Z 0%Z.

(** A limiter with every field zero but the first projector and the
    gain [compInvMass]. *)
Definition projecting (normalProjector1 : Vector2f) (compInvMass : float)
  : Limiter :=
  mkLimiter normalProjector1 zero2 Binary32.zero Binary32.zero zero2 zero2
    Binary32.zero Binary32.zero compInvMass Binary32.zero
    Binary32.zero Binary32.zero Binary32.zero.

(** A joint of unit gain that projects the velocity of its first body
    on [(2^100, 2^100)]; its accumulators are zero. *)
Definition steep_joint : ContactJoint :=
  mkContactJoint 0 1 (projecting (mkVector2f huge huge) Binary32.one)
    inhabitant.

(** A joint between two bodies of infinite mass ([compInvMass = 0] on
    both limiters) that projects the velocity of its first body on
    [(2^100, 0)]. *)
Definition steep_degenerate_joint : ContactJoint :=
  mkContactJoint 0 1 (projecting (mkVector2f huge Binary32.zero) Binary32.zero)
    inhabitant.

(** A body that moves at [2^100] along x. *)
Definition sliding_body : RigidBody :=
  mkRigidBody (mkVector2f huge Binary32.zero) Binary32.zero zero2 Binary32.zero
    0%Z 0%Z.

(** A body at rest whose velocity along x is the negative zero. *)
Definition backing_body : RigidBody :=
  mkRigidBody (mkVector2f (S754_zero true) Binary32.zero) Binary32.zero
    zero2 Binary32.zero 0%Z 0%Z.

(** A contact along the y axis between two bodies of infinite mass,
    pressed together at unit speed. *)
Definition infinite_mass_joint : ContactJoint :=
  mkContactJoint 0 1
    (mkLimiter (mkVector2f Binary32.zero Binary32.minus_one)
       (mkVector2f Binary32.zero Binary32.one) Binary32.zero Binary32.zero
       zero2 zero2 Binary32.zero Binary32.zero Binary32.zero Binary32.zero
       Binary32.one Binary32.one Binary32.zero)
    inhabitant.

(** A joint of unit gain and unit masses along the y axis, asked for a
    closing speed of one. *)
Definition resting_joint : ContactJoint :=
  mkContactJoint 0 1
    (mkLimiter (mkVector2f Binary32.zero Binary32.minus_one)
       (mkVector2f Binary32.zero Binary32.one) Binary32.zero Binary32.zero
       (mkVector2f Binary32.zero Binary32.minus_one)
       (mkVector2f Binary32.zero Binary32.one) Binary32.zero Binary32.zero
       Binary32.one Binary32.zero
       Binary32.one Binary32.one Binary32.zero)
    inhabitant.

End Rounded.

(** * Vocabulary of the properties

  The invariants, the views of one backend on the state of the other
  and the small scenes that the statements below are written with. *)

(** ** Invariants of the grouping pass *)

Section GroupingInvariants.

Variable contactJoints : list ContactJoint.
Variable groupSizeTarget : nat.
Variable bodiesCount : nat.

(** What the loops keep true of [joint_index] and the work list: the
    accepted prefix of [joint_index] and the work list together hold
    every joint once. *)
Definition perm_inv (n groupOffset accepted : nat) (g : Groups) : Prop :=
  length (joint_index g) = n
  /\ groupOffset + accepted + length (jointGroup_joints g) = n
  /\ take (groupOffset + accepted) (joint_index g) ++ jointGroup_joints g
     ≡ₚ seq 0 n.

(** Every joint names two bodies of the body array. *)
Definition joints_valid : Prop :=
  Forall (fun j => body1Index j < bodiesCount /\ body2Index j < bodiesCount)
    contactJoints.

(** No joint ties a body to itself. *)
Definition joints_proper : Prop :=
  Forall (fun j => body1Index j <> body2Index j) contactJoints.

(** The body indices used by the joints listed in [idxs], in order. *)
Definition bodies_of (idxs : list nat) : list nat :=
  flat_map (fun j => [body1Index (contactJoints !!! j);
                      body2Index (contactJoints !!! j)]) idxs.

(** The [w]-th window of [groupSizeTarget] entries of [index]. *)
Definition window (w : nat) (index : list nat) : list nat :=
  take groupSizeTarget (drop (groupSizeTarget * w) index).

Definition windows_disjoint (count : nat) (index : list nat) : Prop :=
  forall w, w < count -> NoDup (bodies_of (window w index)).

(** What the inner loop of the round with tag [tag] keeps true: the
    bodies of the joints accepted so far in this round are pairwise
    distinct and are stamped with [tag]. *)
Definition round_inv (n tag groupOffset : nat) (index0 : list nat) (s : Scan)
  : Prop :=
  let g := scan_arrays s in
  let accepted := take (groupSize s) (drop groupOffset (joint_index g)) in
  perm_inv n groupOffset (groupSize s) g
  /\ length (jointGroup_bodies g) = bodiesCount
  /\ NoDup (bodies_of accepted)
  /\ (forall b, b ∈ bodies_of accepted -> jointGroup_bodies g !!! b = tag)
  /\ take groupOffset (joint_index g) = take groupOffset index0.

(** What the outer loop keeps true at its head: [groupOffset] full
    groups have been written, each on pairwise distinct bodies. *)
Definition rounds_inv (n groupOffset : nat) (g : Groups) : Prop :=
  exists count,
    groupOffset = groupSizeTarget * count
    /\ windows_disjoint count (joint_index g)
    /\ perm_inv n groupOffset 0 g
    /\ length (jointGroup_bodies g) = bodiesCount.

(** What holds when the outer loop has exited with [groupOffset]. *)
Definition rounds_post (n groupOffset : nat) (g : Groups) : Prop :=
  exists count,
    (groupOffset / groupSizeTarget) * groupSizeTarget = groupSizeTarget * count
    /\ groupSizeTarget * count <= groupOffset
    /\ windows_disjoint count (joint_index g)
    /\ perm_inv n groupOffset 0 g.

End GroupingInvariants.

(** ** Invariants of the kernels *)

Section KernelInvariants.

Local Open Scope Qc_scope.

(** P1 on a joint: both normal accumulators are not negative and the
    friction accumulator is within the friction cone. *)
Definition accumulators_ok (joint : ContactJoint) : Prop :=
  0 <= accumulatedImpulse (normalLimiter joint)
  /\ 0 <= accumulatedDisplacingImpulse (normalLimiter joint)
  /\ Qcabs (accumulatedImpulse (frictionLimiter joint))
     <= kFrictionCoefficient * accumulatedImpulse (normalLimiter joint).

(** The same on a lane of the packed joints. *)
Definition packed_ok (jointP : ContactJointPacked.t) : Prop :=
  0 <= ContactJointPacked.normalLimiter_accumulatedImpulse jointP
  /\ 0 <= ContactJointPacked.normalLimiter_accumulatedDisplacingImpulse jointP
  /\ Qcabs (ContactJointPacked.frictionLimiter_accumulatedImpulse jointP)
     <= kFrictionCoefficient
        * ContactJointPacked.normalLimiter_accumulatedImpulse jointP.

End KernelInvariants.

(** ** The diagnostic *)

Definition sum_Z (l : list Z) : Z := foldr Z.add 0%Z l.

(** ** The kernels on values *)

(** Two updates in a row, of the body at [b1] and of the body at [b2]. *)
Definition on2 {A : Type} (f1 f2 : A -> A) (b1 b2 : nat) (l : list A) : list A :=
  alter f2 b2 (alter f1 b1 l).

(** What a batch of one lane does once it is past the early-out:
    compute the lane, store the joint, scatter the first body and then
    the second. *)
Definition scatter_lane
    (lane : Z -> SolveBody.t -> SolveBody.t -> ContactJointPacked.t ->
            SolveBody.t * SolveBody.t * ContactJointPacked.t * bool)
    (iterationIndex : Z) (jointIndex : nat) (s : SoA) : SoA * bool :=
  let jointP := soa_packed s !!! jointIndex in
  let '(body1, body2, jointP', productive) :=
    lane iterationIndex
      (soa_bodies s !!! ContactJointPacked.body1Index jointP)
      (soa_bodies s !!! ContactJointPacked.body2Index jointP) jointP in
  (mkSoA
     (<[ContactJointPacked.body2Index jointP' := body2]>
        (<[ContactJointPacked.body1Index jointP' := body1]> (soa_bodies s)))
     (<[jointIndex := jointP']> (soa_packed s)),
   productive).

Section KernelsOnValues.

Local Open Scope Qc_scope.

(** The loop body of the AoS impulse kernel on the two bodies as
    values, for a joint whose bodies are different. *)
Definition impulse_on_bodies (iterationIndex : Z) (body1 body2 : RigidBody)
    (joint : ContactJoint) : RigidBody * RigidBody * ContactJoint * bool :=
  let nl := normalLimiter joint in
  let fl := frictionLimiter joint in
  let normalDeltaImpulse := normalDeltaImpulse_AoS nl body1 body2 in
  let body1 := add_velocity (compMass1_linear nl) (compMass1_angular nl)
                 normalDeltaImpulse body1 in
  let body2 := add_velocity (compMass2_linear nl) (compMass2_angular nl)
                 normalDeltaImpulse body2 in
  let nl := set_accumulatedImpulse (accumulatedImpulse nl + normalDeltaImpulse) nl in
  let frictionDeltaImpulse := frictionDeltaImpulse_AoS nl fl body1 body2 in
  let fl := set_accumulatedImpulse (accumulatedImpulse fl + frictionDeltaImpulse) fl in
  let body1 := add_velocity (compMass1_linear fl) (compMass1_angular fl)
                 frictionDeltaImpulse body1 in
  let body2 := add_velocity (compMass2_linear fl) (compMass2_angular fl)
                 frictionDeltaImpulse body2 in
  let productive :=
    ltb kProductiveImpulse
      (Float.max (fabsf normalDeltaImpulse) (fabsf frictionDeltaImpulse)) in
  let last (b : RigidBody) :=
    if productive then set_lastIteration iterationIndex b else b in
  (last body1, last body2,
   set_frictionLimiter fl (set_normalLimiter nl joint), productive).

(** The state of a body on the impulse channel, as [SolvePrepareSoA]
    copies it, and on the displacement channel. *)
Definition impulse_view (b : RigidBody) : SolveBody.t :=
  SolveBody.mk (velocity b) (angularVelocity b) (lastIteration b).

Definition displacement_view (b : RigidBody) : SolveBody.t :=
  SolveBody.mk (displacingVelocity b) (displacingAngularVelocity b)
    (lastDisplacementIteration b).

(** The loop body of the AoS displacement kernel on the two bodies as
    values. *)
Definition displacement_on_bodies (iterationIndex : Z) (body1 body2 : RigidBody)
    (joint : ContactJoint) : RigidBody * RigidBody * ContactJoint * bool :=
  let nl := normalLimiter joint in
  let displacingDeltaImpulse := displacingDeltaImpulse_AoS nl body1 body2 in
  let body1 := add_displacingVelocity (compMass1_linear nl) (compMass1_angular nl)
                 displacingDeltaImpulse body1 in
  let body2 := add_displacingVelocity (compMass2_linear nl) (compMass2_angular nl)
                 displacingDeltaImpulse body2 in
  let nl := set_accumulatedDisplacingImpulse
              (accumulatedDisplacingImpulse nl + displacingDeltaImpulse) nl in
  let productive := ltb kProductiveImpulse (fabsf displacingDeltaImpulse) in
  let last (b : RigidBody) :=
    if productive then set_lastDisplacementIteration iterationIndex b else b in
  (last body1, last body2, set_normalLimiter nl joint, productive).

End KernelsOnValues.

(** ** The scalar SoA state as a view of the AoS state *)

(** A joint without its three accumulators: what no kernel changes. *)
Definition constants (joint : ContactJoint) : ContactJoint :=
  set_frictionLimiter
    (set_accumulatedImpulse 0%Qc (frictionLimiter joint))
    (set_normalLimiter
       (set_accumulatedDisplacingImpulse 0%Qc
          (set_accumulatedImpulse 0%Qc (normalLimiter joint)))
       joint).

(** The joints of the AoS state are the given joints up to their
    accumulators, and each ties two different bodies of the array. *)
Definition well_formed (joints0 : list ContactJoint) (s : AoS) : Prop :=
  constants <$> aos_joints s = constants <$> joints0
  /\ Forall (fun joint =>
               body1Index joint <> body2Index joint
               /\ body1Index joint < length (aos_bodies s)
               /\ body2Index joint < length (aos_bodies s)) joints0.

(** During the impulse passes: the SoA channel is the impulse view of
    the AoS state, and the displacement view stays what it was. *)
Definition impulse_sim (joints0 : list ContactJoint)
    (displacement : list SolveBody.t) (s : AoS) (t : SoA) : Prop :=
  well_formed joints0 s
  /\ displacement_view <$> aos_bodies s = displacement
  /\ t = mkSoA (impulse_view <$> aos_bodies s) (pack <$> aos_joints s).

Definition displacement_sim (joints0 : list ContactJoint)
    (impulse : list SolveBody.t) (s : AoS) (t : SoA) : Prop :=
  well_formed joints0 s
  /\ impulse_view <$> aos_bodies s = impulse
  /\ t = mkSoA (displacement_view <$> aos_bodies s) (pack <$> aos_joints s).

(** The SoA driver state that stands for an AoS state: both channels are
    views of the same bodies, the packed joints are the joints in their
    own order, and the solver still holds the joints it was given. *)
Definition solver_sim (joints0 : list ContactJoint) (gr : Groups)
    (s : AoS) (st : SoAState) : Prop :=
  well_formed joints0 s
  /\ st = (mkSolver joints0 (impulse_view <$> aos_bodies s)
             (displacement_view <$> aos_bodies s) gr,
           pack <$> aos_joints s).

(** The x component of the velocity of every body. *)
Definition velocities_x (bodies : list RigidBody) : list float :=
  (fun b => x (velocity b)) <$> bodies.

(** ** Scenes *)

(** The scene used to exercise the grouping theorems: eight bodies, four
    joints on disjoint pairs and a fifth joint across two of the pairs. *)
Definition five_joints : list ContactJoint :=
  [joint_on 0 1; joint_on 2 3; joint_on 4 5; joint_on 6 7; joint_on 0 2].

Definition scratch (jointCount : nat) : Groups :=
  mkGroups [] [] (replicate jointCount 0).

(** The scene used to exercise the drivers: a fixed body 0 and a free
    body 1 under one contact whose normal impulse acts on body 1 alone;
    the first impulse pass brings body 1 to the target velocity and the
    second finds nothing left to do. *)
Definition resting_normal : Limiter :=
  mkLimiter zero2 (mkVector2f 0 1)%Qc 0%Qc 0%Qc zero2 (mkVector2f 0 1)%Qc
    0%Qc 0%Qc 1%Qc 0%Qc 1%Qc 0%Qc 0%Qc.

Definition resting_joint : ContactJoint :=
  mkContactJoint 0 1 resting_normal inhabitant.

Definition still : RigidBody := mkRigidBody zero2 0%Qc zero2 0%Qc 0%Z 0%Z.

Definition empty_solver (joints : list ContactJoint) : Solver :=
  mkSolver joints [] [] (mkGroups [] [] []).

Section Scenes.

Local Open Scope Qc_scope.

(** A joint of a body with itself: unit gain, a first linear mass
    component of [(1, 0)] and a second one of [(10, 0)], asked for a
    normal velocity of 1. *)
Definition self_normal : Limiter :=
  mkLimiter zero2 zero2 0 0 (mkVector2f 1 0) (mkVector2f (of_Z 10) 0)
    0 0 1 0 1 0 0.

Definition self_joint : ContactJoint :=
  mkContactJoint 0 0 self_normal inhabitant.

End Scenes.

(** ** What the SoA kernels keep *)

(** The lane keeps the body indices of the joint and leaves each tag as
    it was or sets it to the iteration index. *)
Definition lane_frame
    (lane : Z -> SolveBody.t -> SolveBody.t -> ContactJointPacked.t ->
            SolveBody.t * SolveBody.t * ContactJointPacked.t * bool) : Prop :=
  forall (i : Z) (body1 body2 : SolveBody.t) (jointP : ContactJointPacked.t),
    let r := lane i body1 body2 jointP in
    ContactJointPacked.body1Index (snd (fst r))
    = ContactJointPacked.body1Index jointP
    /\ ContactJointPacked.body2Index (snd (fst r))
       = ContactJointPacked.body2Index jointP
    /\ (SolveBody.lastIteration (fst (fst (fst r))) = SolveBody.lastIteration body1
        \/ SolveBody.lastIteration (fst (fst (fst r))) = i)
    /\ (SolveBody.lastIteration (snd (fst (fst r))) = SolveBody.lastIteration body2
        \/ SolveBody.lastIteration (snd (fst (fst r))) = i).

(** Lane by lane, the same two body indices. *)
Definition same_indices (packed packed' : list ContactJointPacked.t) : Prop :=
  forall k,
    ContactJointPacked.body1Index (packed !!! k)
    = ContactJointPacked.body1Index (packed' !!! k)
    /\ ContactJointPacked.body2Index (packed !!! k)
       = ContactJointPacked.body2Index (packed' !!! k).

(** Every tag of a channel is between [lo] and [hi]. *)
Definition tags_within (lo hi : Z) (bodies : list SolveBody.t) : Prop :=
  Forall (fun b => (lo <= SolveBody.lastIteration b <= hi)%Z) bodies.

(** One channel of the SoA state during a run: the lanes hold the body
    indices of [packed0] and the tags are in range. *)
Definition channel_inv (packed0 : list ContactJointPacked.t) (lo hi : Z)
    (s : SoA) : Prop :=
  same_indices (soa_packed s) packed0 /\ tags_within lo hi (soa_bodies s).

(** The state of an SoA driver during a run: the joints and the joint
    order are those that prepare left, the lanes hold the body indices
    of [packed0], and the tags of the impulse channel are at most
    [hiI], those of the displacement channel at most [hiD], and none
    is below -1. *)
Definition run_inv (joints : list ContactJoint) (gr : Groups)
    (packed0 : list ContactJointPacked.t) (hiI hiD : Z) (st : SoAState) : Prop :=
  contactJoints (fst st) = joints
  /\ groups (fst st) = gr
  /\ same_indices (snd st) packed0
  /\ tags_within (-1) hiI (solveBodiesImpulse (fst st))
  /\ tags_within (-1) hiD (solveBodiesDisplacement (fst st)).

(** The term of a joint in the iteration sum, from the larger tag of
    its two bodies on each channel. *)
Definition iterations_term (last lastDisplacement : Z) : Z :=
  (last + 2 + (lastDisplacement + 2))%Z.

(** The same from the four tags. *)
Definition joint_iterations (last1 last2 lastDisplacement1 lastDisplacement2 : Z)
  : Z :=
  iterations_term (Z.max last1 last2)
    (Z.max lastDisplacement1 lastDisplacement2).

(** The iteration sum of the AoS state and of the SoA state, as
    integers without a width. *)
Definition iteration_sum_AoS (s : AoS) : Z :=
  sum_Z (map (fun joint =>
                let body1 := aos_bodies s !!! body1Index joint in
                let body2 := aos_bodies s !!! body2Index joint in
                joint_iterations (lastIteration body1) (lastIteration body2)
                  (lastDisplacementIteration body1)
                  (lastDisplacementIteration body2))
           (aos_joints s)).

Definition iteration_sum_SoA (solver : Solver) : Z :=
  sum_Z (map (fun joint =>
                let impulse1 := solveBodiesImpulse solver !!! body1Index joint in
                let impulse2 := solveBodiesImpulse solver !!! body2Index joint in
                let displacement1 :=
                  solveBodiesDisplacement solver !!! body1Index joint in
                let displacement2 :=
                  solveBodiesDisplacement solver !!! body2Index joint in
                joint_iterations (SolveBody.lastIteration impulse1)
                  (SolveBody.lastIteration impulse2)
                  (SolveBody.lastIteration displacement1)
                  (SolveBody.lastIteration displacement2))
           (contactJoints solver)).

(** Four bodies, the third touched by the first impulse pass, and
    three joints: a state that the finish step may find. *)
Definition fresh : RigidBody :=
  set_lastDisplacementIteration (-1) (set_lastIteration (-1) still).

Definition touched : RigidBody := set_lastDisplacementIteration (-1) still.

Definition seven_iterations : AoS :=
  mkAoS [fresh; fresh; touched; fresh] [joint_on 0 1; joint_on 0 1; joint_on 2 3].

(** ** The tags of the rounded AoS backend *)

(** The iteration sum of the state of the rounded AoS backend. *)
Definition rounded_iteration_sum (s : Rounded.AoS) : Z :=
  sum_Z (map (fun joint =>
                let body1 := Rounded.aos_bodies s !!! Rounded.body1Index joint in
                let body2 := Rounded.aos_bodies s !!! Rounded.body2Index joint in
                joint_iterations (Rounded.lastIteration body1)
                  (Rounded.lastIteration body2)
                  (Rounded.lastDisplacementIteration body1)
                  (Rounded.lastDisplacementIteration body2))
           (Rounded.aos_joints s)).

(** The tags of a body of the AoS state are between -1 and [hiI] on the
    impulse channel, and between -1 and [hiD] on the displacement
    channel. *)
Definition rounded_tags_within (hiI hiD : Z) (b : Rounded.RigidBody) : Prop :=
  (-1 <= Rounded.lastIteration b <= hiI)%Z
  /\ (-1 <= Rounded.lastDisplacementIteration b <= hiD)%Z.

(** The state of the rounded AoS driver during a run. *)
Definition rounded_run_inv (jointCount : nat) (hiI hiD : Z) (s : Rounded.AoS)
  : Prop :=
  length (Rounded.aos_joints s) = jointCount
  /\ Forall (rounded_tags_within hiI hiD) (Rounded.aos_bodies s).

(** * Properties of the solver *)

(** ** Reasoning on the exact arithmetic *)

Section ExactArithmetic.

Local Open Scope Qc_scope.

Lemma this_plus (a b : Qc) : (this (a + b) == this a + this b)%Q.
Proof. unfold Qcplus, Q2Qc. simpl. apply Qred_correct. Qed.

Lemma this_mult (a b : Qc) : (this (a * b) == this a * this b)%Q.
Proof. unfold Qcmult, Q2Qc. simpl. apply Qred_correct. Qed.

Lemma this_opp (a : Qc) : (this (- a) == - this a)%Q.
Proof. unfold Qcopp, Q2Qc. simpl. apply Qred_correct. Qed.

Lemma this_minus (a b : Qc) : (this (a - b) == this a - this b)%Q.
Proof. unfold Qcminus. rewrite this_plus, this_opp. reflexivity. Qed.

Lemma this_Q2Qc (q : Q) : (this (Q2Qc q) == q)%Q.
Proof. simpl. apply Qred_correct. Qed.

Lemma Qc_eq_this (a b : Qc) : a = b <-> (this a == this b)%Q.
Proof. split; [intros ->; reflexivity | apply Qc_is_canon]. Qed.

End ExactArithmetic.

(** Moves a goal on [Qc] to the rationals, where [lra] decides it. *)
Ltac to_Q :=
  unfold Qclt, Qcle in *;
  repeat match goal with
  | H : @eq Qc _ _ |- _ => apply Qc_eq_this in H
  | H : not (@eq Qc _ _) |- _ => rewrite Qc_eq_this in H
  | |- @eq Qc _ _ => apply Qc_is_canon
  | |- not (@eq Qc _ _) => rewrite Qc_eq_this
  end;
  repeat match goal with
  | H : _ |- _ =>
      progress rewrite ?this_plus, ?this_minus, ?this_mult, ?this_opp,
        ?this_Q2Qc in H
  end;
  repeat (progress rewrite ?this_plus, ?this_minus, ?this_mult, ?this_opp,
            ?this_Q2Qc).

Ltac qc_lra := to_Q; lra.

Section Comparisons.

Local Open Scope Qc_scope.

Lemma ltb_lt (a b : float) : ltb a b = true <-> a < b.
Proof.
  unfold ltb, Qclt, Qccompare. rewrite Qlt_alt.
  destruct (Qcompare a b); split; congruence.
Qed.

Lemma ltb_ge (a b : float) : ltb a b = false <-> b <= a.
Proof.
  split; intros H.
  - apply Qcnot_lt_le. intros Hlt. apply ltb_lt in Hlt. congruence.
  - destruct (ltb a b) eqn:E; [| reflexivity].
    apply ltb_lt in E. exfalso. eapply Qcle_not_lt; eauto.
Qed.

End Comparisons.

(** ** The grouping pass *)

Lemma swap_remove_perm (work : list nat) (i : nat) :
  i < length work ->
  work !!! i :: take (length work - 1)
                  (<[i := work !!! (length work - 1)]> work) ≡ₚ work.
Proof.
  intros Hi.
  induction work as [|a work IH] using rev_ind; [simpl in Hi; lia|].
  rewrite length_app in *. simpl in *.
  replace (length work + 1 - 1) with (length work) by lia.
  rewrite (lookup_total_app_r _ _ (length work)) by lia.
  replace (length work - length work) with 0 by lia. simpl.
  destruct (decide (i = length work)) as [->|Hne].
  - rewrite lookup_total_app_r by lia.
    replace (length work - length work) with 0 by lia. simpl.
    rewrite insert_app_r_alt by lia.
    replace (length work - length work) with 0 by lia. simpl.
    rewrite take_app_length. apply Permutation_cons_append.
  - assert (Hlt : i < length work) by lia.
    rewrite lookup_total_app_l by lia.
    rewrite insert_app_l by lia.
    rewrite take_app_length' by (rewrite length_insert; lia).
    pose proof (list_lookup_lookup_total_lt work i Hlt) as Hj.
    rewrite <- (take_drop_middle work i _ Hj) at 3.
    rewrite insert_take_drop by lia.
    rewrite <- Permutation_middle.
    rewrite <- app_assoc. simpl.
    rewrite <- Permutation_middle. rewrite <- Permutation_middle.
    rewrite app_nil_r. constructor. apply Permutation_middle.
Qed.

Section GroupingPermutation.

Variable contactJoints : list ContactJoint.
Variable groupSizeTarget : nat.

Lemma scan_guard_true (s : Scan) :
  scan_guard groupSizeTarget s = true ->
  scan_i s < length (jointGroup_joints (scan_arrays s))
  /\ groupSize s < groupSizeTarget.
Proof.
  unfold scan_guard. rewrite andb_true_iff, !Nat.ltb_lt. tauto.
Qed.

Lemma scan_body_perm (n tag groupOffset : nat) (s : Scan) :
  scan_guard groupSizeTarget s = true ->
  perm_inv n groupOffset (groupSize s) (scan_arrays s) ->
  perm_inv n groupOffset (groupSize (scan_body contactJoints tag groupOffset s))
    (scan_arrays (scan_body contactJoints tag groupOffset s)).
Proof.
  intros Hg (Hlen & Hsum & Hperm). apply scan_guard_true in Hg as [Hi _].
  unfold scan_body, perm_inv.
  destruct (_ && _); cbn [scan_arrays groupSize scan_i joint_index jointGroup_joints jointGroup_bodies]; [| by repeat split].
  set (work := jointGroup_joints (scan_arrays s)) in *.
  set (k := groupOffset + groupSize s) in *.
  assert (Hk : k < length (joint_index (scan_arrays s))) by lia.
  repeat split.
  - by rewrite length_insert.
  - rewrite length_take, length_insert. lia.
  - replace (groupOffset + S (groupSize s)) with (S k) by lia.
    rewrite (take_S_r _ _ (work !!! scan_i s))
      by (by apply list_lookup_insert_eq).
    rewrite take_insert_ge by lia.
    rewrite <- app_assoc. simpl.
    by rewrite swap_remove_perm.
Qed.

Lemma scan_perm (n tag groupOffset fuel : nat) (s s' : Scan) :
  scan contactJoints groupSizeTarget fuel tag groupOffset s = Some s' ->
  perm_inv n groupOffset (groupSize s) (scan_arrays s) ->
  perm_inv n groupOffset (groupSize s') (scan_arrays s').
Proof.
  revert s. induction fuel as [|fuel IH]; intros s; simpl;
    destruct (scan_guard groupSizeTarget s) eqn:Hg; try congruence.
  intros Hs Hinv. eapply IH; [exact Hs|]. by apply scan_body_perm.
Qed.

Lemma rounds_perm (n scanFuel fuel tag groupOffset : nat) (g : Groups)
    (r : nat * Groups) :
  rounds contactJoints groupSizeTarget scanFuel fuel tag groupOffset g = Some r ->
  perm_inv n groupOffset 0 g ->
  perm_inv n (fst r) 0 (snd r).
Proof.
  revert tag groupOffset g.
  induction fuel as [|fuel IH]; intros tag groupOffset g; simpl;
    destruct (groupSizeTarget <=? _); try congruence;
    try (intros [= <-]; by simpl).
  destruct (scan _ _ _ _ _ _) as [s|] eqn:Hscan; [|congruence].
  intros Hr Hinv.
  apply (scan_perm n) in Hscan; [|exact Hinv].
  assert (Hinv' : perm_inv n (groupOffset + groupSize s) 0 (scan_arrays s)).
  { unfold perm_inv in *. by rewrite Nat.add_0_r. }
  destruct (groupSize s <? groupSizeTarget).
  - injection Hr as <-. exact Hinv'.
  - eapply IH; eauto.
Qed.

Lemma fill_rest_spec (groupOffset : nat) (rest : list nat) :
  forall (i : nat) (index : list nat),
    groupOffset + i + length rest <= length index ->
    fill_rest groupOffset i rest index
    = take (groupOffset + i) index ++ rest
      ++ drop (groupOffset + i + length rest) index.
Proof.
  induction rest as [|j rest IH]; intros i index Hlen; simpl in *.
  - rewrite Nat.add_0_r. by rewrite take_drop.
  - rewrite IH by (rewrite length_insert; lia).
    replace (groupOffset + S i) with (S (groupOffset + i)) by lia.
    rewrite (take_S_r _ _ j) by (apply list_lookup_insert_eq; lia).
    rewrite take_insert_ge by lia.
    rewrite drop_insert_lt by lia.
    rewrite <- app_assoc. simpl. do 4 f_equal. lia.
Qed.

Lemma fill_identity_spec (n : nat) (a : list nat) :
  length a = n -> fill_identity n a = seq 0 n.
Proof.
  unfold fill_identity. intros Hlen.
  assert (H : forall m, m <= n ->
            foldl (fun a i => <[i := i]> a) a (seq 0 m) = seq 0 m ++ drop m a).
  { induction m as [|m IH]; intros Hm; [done|].
    rewrite seq_S, foldl_app, IH by lia. simpl.
    rewrite insert_app_r_alt by (rewrite length_seq; lia).
    rewrite length_seq, Nat.sub_diag.
    destruct (drop m a) as [|d rest] eqn:Hd.
    { apply (f_equal length) in Hd. rewrite length_drop in Hd.
      simpl in Hd. lia. }
    simpl. rewrite <- app_assoc. simpl. do 2 f_equal.
    rewrite <- Nat.add_1_r, <- drop_drop, Hd. done. }
  rewrite H by lia. rewrite drop_ge by lia. by rewrite app_nil_r.
Qed.

End GroupingPermutation.

Section GroupingTermination.

Variable contactJoints : list ContactJoint.
Variable groupSizeTarget : nat.

Local Abbreviation work s := (jointGroup_joints (scan_arrays s)).

(** One run of the body of the inner loop either moves [i] on and
    leaves the work list alone, or accepts a joint and pops the work
    list. *)
Lemma scan_body_advances (tag groupOffset : nat) (s : Scan) :
  scan_guard groupSizeTarget s = true ->
  let s' := scan_body contactJoints tag groupOffset s in
  (scan_i s' = S (scan_i s) /\ work s' = work s
   /\ groupSize s' = groupSize s)
  \/ (scan_i s' = scan_i s /\ S (length (work s')) = length (work s)
      /\ groupSize s' = S (groupSize s)).
Proof.
  intros Hg. apply scan_guard_true in Hg as [Hi _].
  unfold scan_body.
  destruct (_ && _);
    cbn [scan_arrays groupSize scan_i jointGroup_joints]; [right | left; done].
  repeat split. rewrite length_take, length_insert. lia.
Qed.

Lemma scan_body_measure (tag groupOffset : nat) (s : Scan) :
  scan_guard groupSizeTarget s = true ->
  let s' := scan_body contactJoints tag groupOffset s in
  length (work s') - scan_i s' < length (work s) - scan_i s.
Proof.
  intros Hg. pose proof Hg as Hi. apply scan_guard_true in Hi as [Hi _].
  destruct (scan_body_advances tag groupOffset s Hg)
    as [(Hi' & Hw & _) | (Hi' & Hw & _)]; simpl.
  - rewrite Hi', Hw. lia.
  - rewrite Hi'. lia.
Qed.

Lemma scan_terminates (tag groupOffset : nat) :
  forall (fuel : nat) (s : Scan),
    length (work s) - scan_i s <= fuel ->
    exists s', scan contactJoints groupSizeTarget fuel tag groupOffset s = Some s'.
Proof.
  induction fuel as [|fuel IH]; intros s Hfuel; simpl;
    destruct (scan_guard groupSizeTarget s) eqn:Hg; eauto.
  - apply scan_guard_true in Hg as [Hi _]. lia.
  - apply IH. pose proof (scan_body_measure tag groupOffset s Hg). simpl in *. lia.
Qed.

(** What a finished inner loop has done to the sizes. *)
Lemma scan_sizes (tag groupOffset : nat) :
  forall (fuel : nat) (s s' : Scan),
    scan contactJoints groupSizeTarget fuel tag groupOffset s = Some s' ->
    groupSize s <= groupSizeTarget ->
    groupSize s' + length (work s') = groupSize s + length (work s)
    /\ groupSize s <= groupSize s' <= groupSizeTarget.
Proof.
  induction fuel as [|fuel IH]; intros s s'; simpl;
    destruct (scan_guard groupSizeTarget s) eqn:Hg; try congruence;
    try (intros [= <-]; lia).
  intros Hs Hle. pose proof Hg as Hlt. apply scan_guard_true in Hlt as [_ Hlt].
  destruct (scan_body_advances tag groupOffset s Hg)
    as [(_ & Hw & Hgs) | (_ & Hw & Hgs)]; simpl in *;
    apply IH in Hs; try lia.
  rewrite Hw, Hgs in Hs. lia.
Qed.

Lemma scan_fuel_mono (tag groupOffset : nat) :
  forall (fuel fuel' : nat) (s s' : Scan),
    scan contactJoints groupSizeTarget fuel tag groupOffset s = Some s' ->
    fuel <= fuel' ->
    scan contactJoints groupSizeTarget fuel' tag groupOffset s = Some s'.
Proof.
  induction fuel as [|fuel IH]; intros fuel' s s'; simpl.
  - destruct fuel'; simpl; destruct (scan_guard groupSizeTarget s); congruence.
  - destruct fuel' as [|fuel']; [lia|]. simpl.
    destruct (scan_guard groupSizeTarget s); [|done].
    intros Hs Hle. apply IH; [done | lia].
Qed.

Lemma rounds_terminates (scanFuel : nat) :
  1 <= groupSizeTarget ->
  forall (fuel tag groupOffset : nat) (g : Groups),
    length (jointGroup_joints g) < fuel ->
    length (jointGroup_joints g) <= scanFuel ->
    exists r, rounds contactJoints groupSizeTarget scanFuel fuel tag groupOffset g
              = Some r.
Proof.
  intros Hk. induction fuel as [|fuel IH]; intros tag groupOffset g Hfuel Hscan;
    [lia|]. simpl.
  destruct (groupSizeTarget <=? _); [|eauto].
  destruct (scan_terminates (S tag) groupOffset scanFuel (mkScan 0 0 g))
    as [s Hs]; [simpl; lia|].
  rewrite Hs.
  destruct (groupSize s <? groupSizeTarget) eqn:Hlt; [eauto|].
  apply Nat.ltb_ge in Hlt.
  apply scan_sizes in Hs as [Hsz _]; [|simpl; lia]. simpl in Hsz.
  apply IH; lia.
Qed.

Lemma rounds_fuel_mono (scanFuel scanFuel' : nat) :
  scanFuel <= scanFuel' ->
  forall (fuel fuel' tag groupOffset : nat) (g : Groups) (r : nat * Groups),
    rounds contactJoints groupSizeTarget scanFuel fuel tag groupOffset g = Some r ->
    fuel <= fuel' ->
    rounds contactJoints groupSizeTarget scanFuel' fuel' tag groupOffset g = Some r.
Proof.
  intros Hsf. induction fuel as [|fuel IH]; intros fuel' tag groupOffset g r; simpl.
  - destruct fuel'; simpl; destruct (groupSizeTarget <=? _); congruence.
  - destruct fuel' as [|fuel']; [lia|]. simpl.
    destruct (groupSizeTarget <=? _); [|done].
    destruct (scan _ _ scanFuel _ _ _) as [s|] eqn:Hs; [|congruence].
    rewrite (scan_fuel_mono _ _ _ _ _ _ Hs Hsf).
    destruct (groupSize s <? groupSizeTarget); [done|].
    intros Hr Hle. apply IH; [done | lia].
Qed.

(** A round that fills its group takes exactly [groupSizeTarget] joints
    off the work list. *)
Lemma full_round_removes (tag groupOffset fuel : nat) (g : Groups) (s : Scan) :
  scan contactJoints groupSizeTarget fuel tag groupOffset (mkScan 0 0 g) = Some s ->
  (groupSize s <? groupSizeTarget) = false ->
  groupSize s = groupSizeTarget
  /\ length (work s) + groupSizeTarget = length (jointGroup_joints g).
Proof.
  intros Hs Hfull. apply Nat.ltb_ge in Hfull.
  apply scan_sizes in Hs as [Hsz Hle]; simpl in *; lia.
Qed.

End GroupingTermination.

Section GroupingDisjoint.

Variable contactJoints : list ContactJoint.
Variable groupSizeTarget : nat.
Variable bodiesCount : nat.

Lemma bodies_of_app (l1 l2 : list nat) :
  bodies_of contactJoints (l1 ++ l2) = bodies_of contactJoints l1 ++ bodies_of contactJoints l2.
Proof. apply flat_map_app. Qed.

Lemma bodies_of_length (l : list nat) : length (bodies_of contactJoints l) = 2 * length l.
Proof. induction l as [|a l IH]; simpl in *; lia. Qed.

Lemma window_prefix (count : nat) (index index' : list nat) (w : nat) :
  take (groupSizeTarget * count) index = take (groupSizeTarget * count) index' ->
  w < count ->
  window groupSizeTarget w index = window groupSizeTarget w index'.
Proof.
  intros Hpre Hw. unfold window.
  rewrite !take_drop_commute.
  assert (Hle : groupSizeTarget * w + groupSizeTarget <= groupSizeTarget * count)
    by nia.
  assert (Hcut : forall l : list nat,
            take (groupSizeTarget * w + groupSizeTarget) l
            = take (groupSizeTarget * w + groupSizeTarget)
                (take (groupSizeTarget * count) l)).
  { intros l. rewrite take_take. f_equal. lia. }
  rewrite (Hcut index), (Hcut index'). by rewrite Hpre.
Qed.

Lemma windows_disjoint_prefix (count : nat) (index index' : list nat) :
  take (groupSizeTarget * count) index = take (groupSizeTarget * count) index' ->
  windows_disjoint contactJoints groupSizeTarget count index ->
  windows_disjoint contactJoints groupSizeTarget count index'.
Proof.
  intros Hpre H w Hw. rewrite <- (window_prefix count index index' w Hpre Hw).
  by apply H.
Qed.

Lemma perm_inv_work_lt (n groupOffset accepted : nat) (g : Groups) (i : nat) :
  perm_inv n groupOffset accepted g ->
  i < length (jointGroup_joints g) ->
  jointGroup_joints g !!! i < n.
Proof.
  intros (_ & _ & Hperm) Hi.
  assert (Hin : jointGroup_joints g !!! i ∈ seq 0 n).
  { rewrite <- Hperm. apply elem_of_app. right.
    apply list_elem_of_lookup. exists i.
    by apply list_lookup_lookup_total_lt. }
  apply elem_of_seq in Hin. lia.
Qed.

Lemma scan_body_round (n tag groupOffset : nat) (index0 : list nat) (s : Scan) :
  n = length contactJoints ->
  joints_valid contactJoints bodiesCount -> joints_proper contactJoints ->
  scan_guard groupSizeTarget s = true ->
  round_inv contactJoints bodiesCount n tag groupOffset index0 s ->
  round_inv contactJoints bodiesCount n tag groupOffset index0 (scan_body contactJoints tag groupOffset s).
Proof.
  intros Hn Hvalid Hproper Hg (Hperm & Hlen & Hnd & Htag & Hpre).
  pose proof (scan_body_perm contactJoints groupSizeTarget n tag groupOffset s
                Hg Hperm) as Hperm'.
  pose proof Hg as Hi. apply scan_guard_true in Hi as [Hi _].
  pose proof (perm_inv_work_lt _ _ _ _ _ Hperm Hi) as Hj.
  revert Hperm'. unfold scan_body, round_inv.
  set (j := jointGroup_joints (scan_arrays s) !!! scan_i s) in *.
  set (tags := jointGroup_bodies (scan_arrays s)) in *.
  set (index := joint_index (scan_arrays s)) in *.
  destruct (contactJoints !! j) as [joint|] eqn:Hjoint;
    [| apply lookup_ge_None in Hjoint; lia].
  rewrite (list_lookup_total_correct _ _ _ Hjoint).
  pose proof (proj1 (Forall_lookup _ _) Hvalid _ _ Hjoint) as [Hb1 Hb2].
  pose proof (proj1 (Forall_lookup _ _) Hproper _ _ Hjoint) as Hne.
  simpl in Hb1, Hb2, Hne.
  destruct (_ && _) eqn:Hfree;
    cbn [scan_arrays groupSize scan_i joint_index jointGroup_joints
         jointGroup_bodies]; intros Hperm';
    [| split; [exact Hperm' | by repeat split]].
  apply andb_true_iff in Hfree as [Hf1 Hf2].
  apply Nat.ltb_lt in Hf1, Hf2.
  destruct Hperm as (Hilen & Hsum & _).
  assert (Hk : groupOffset + groupSize s < length index) by (subst index; lia).
  assert (Hacc : take (S (groupSize s))
                   (drop groupOffset (<[groupOffset + groupSize s := j]> index))
                 = take (groupSize s) (drop groupOffset index) ++ [j]).
  { rewrite drop_insert_ge by lia.
    replace (groupOffset + groupSize s - groupOffset) with (groupSize s) by lia.
    rewrite (take_S_r _ _ j).
    - by rewrite take_insert_ge by lia.
    - apply list_lookup_insert_eq. rewrite length_drop. lia. }
  rewrite Hacc, bodies_of_app. simpl.
  rewrite (list_lookup_total_correct _ _ _ Hjoint).
  split; [exact Hperm'|].
  split; [by rewrite !length_insert|].
  split; [| split].
  - apply NoDup_app. split; [exact Hnd|]. split.
    + intros b Hb Hin. apply Htag in Hb.
      apply elem_of_cons in Hin as [->|Hin]; [lia|].
      apply elem_of_cons in Hin as [->|Hin]; [lia|].
      by apply not_elem_of_nil in Hin.
    + apply NoDup_cons. split; [|apply NoDup_singleton].
      intros Hin. apply list_elem_of_singleton in Hin. done.
  - intros b Hb. apply elem_of_app in Hb as [Hb|Hb].
    + apply Htag in Hb.
      rewrite list_lookup_total_insert by (rewrite length_insert; lia).
      case_decide; [done|].
      rewrite list_lookup_total_insert by lia.
      by case_decide.
    + apply elem_of_cons in Hb as [->|Hb].
      * rewrite list_lookup_total_insert by (rewrite length_insert; lia).
        case_decide; [done|].
        by rewrite list_lookup_total_insert_eq by lia.
      * apply elem_of_cons in Hb as [->|Hb];
          [| by apply not_elem_of_nil in Hb].
        by rewrite list_lookup_total_insert_eq by (rewrite length_insert; lia).
  - rewrite take_insert_ge by lia. exact Hpre.
Qed.

Lemma scan_round (n tag groupOffset : nat) (index0 : list nat) :
  n = length contactJoints ->
  joints_valid contactJoints bodiesCount -> joints_proper contactJoints ->
  forall (fuel : nat) (s s' : Scan),
    scan contactJoints groupSizeTarget fuel tag groupOffset s = Some s' ->
    round_inv contactJoints bodiesCount n tag groupOffset index0 s ->
    round_inv contactJoints bodiesCount n tag groupOffset index0 s'.
Proof.
  intros Hn Hvalid Hproper.
  induction fuel as [|fuel IH]; intros s s'; simpl;
    destruct (scan_guard groupSizeTarget s) eqn:Hg; try congruence.
  intros Hs Hinv. eapply IH; [exact Hs|]. by apply scan_body_round.
Qed.

Lemma rounds_disjoint (n scanFuel : nat) :
  n = length contactJoints ->
  1 <= groupSizeTarget ->
  joints_valid contactJoints bodiesCount -> joints_proper contactJoints ->
  forall (fuel tag groupOffset : nat) (g : Groups) (r : nat * Groups),
    rounds contactJoints groupSizeTarget scanFuel fuel tag groupOffset g = Some r ->
    rounds_inv contactJoints groupSizeTarget bodiesCount n groupOffset g ->
    rounds_post contactJoints groupSizeTarget n (fst r) (snd r).
Proof.
  intros Hn Hk Hvalid Hproper.
  assert (Hexit : forall groupOffset g r,
            Some (groupOffset, g) = Some r ->
            rounds_inv contactJoints groupSizeTarget bodiesCount n groupOffset g -> rounds_post contactJoints groupSizeTarget n (fst r) (snd r)).
  { intros groupOffset g r [= <-] (count & -> & Hwin & Hperm & _).
    exists count. simpl.
    split; [rewrite (Nat.mul_comm _ count), Nat.div_mul by lia; lia|].
    split; [lia|]. by split. }
  induction fuel as [|fuel IH]; intros tag groupOffset g r; simpl;
    destruct (groupSizeTarget <=? _); try congruence; try apply Hexit.
  - destruct (scan _ _ _ _ _ _) as [s|] eqn:Hscan; [|congruence].
    intros Hr (count & -> & Hwin & Hperm & Hlen).
    pose proof Hscan as Hsz.
    apply scan_sizes in Hsz as [_ [_ Hle]]; [|simpl; lia].
    apply (scan_round n _ _ (joint_index g) Hn Hvalid Hproper) in Hscan.
    2:{ unfold round_inv. simpl. split; [exact Hperm|]. split; [exact Hlen|].
        split; [apply NoDup_nil_2|]. split; [|done].
        intros b Hb. by apply not_elem_of_nil in Hb. }
    destruct Hscan as (Hperm' & Hlen' & Hnd & _ & Hpre).
    assert (Hperm0 : perm_inv n (groupSizeTarget * count + groupSize s) 0
                       (scan_arrays s)).
    { unfold perm_inv in *. by rewrite Nat.add_0_r. }
    assert (Hold : windows_disjoint contactJoints groupSizeTarget count (joint_index (scan_arrays s))).
    { eapply windows_disjoint_prefix; [symmetry; exact Hpre | exact Hwin]. }
    destruct (groupSize s <? groupSizeTarget) eqn:Hlt.
    + injection Hr as <-. apply Nat.ltb_lt in Hlt. exists count. simpl.
      split; [| split; [lia | by split]].
      rewrite (Nat.mul_comm groupSizeTarget count).
      rewrite Nat.div_add_l by lia.
      rewrite (Nat.div_small (groupSize s)) by lia. lia.
    + apply Nat.ltb_ge in Hlt.
      assert (Hfull : groupSize s = groupSizeTarget) by lia.
      eapply IH; [exact Hr|].
      exists (S count). rewrite Hfull in *.
      split; [lia|]. split; [| by split].
      intros w Hw. destruct (decide (w = count)) as [->|Hne].
      * exact Hnd.
      * apply Hold. lia.
Qed.

(** The grouping branch as a whole, for any fuel that lets it finish. *)
Lemma grouping_spec (fuel : nat) (g : Groups) (offset : nat) (g' : Groups) :
  groupSizeTarget <> 1 -> 1 <= groupSizeTarget ->
  length (joint_index g) = length contactJoints ->
  SolvePrepareIndicesSoA_fuel contactJoints groupSizeTarget fuel bodiesCount g
  = Some (offset, g') ->
  joint_index g' ≡ₚ seq 0 (length contactJoints)
  /\ offset <= length contactJoints
  /\ (joints_valid contactJoints bodiesCount -> joints_proper contactJoints ->
      exists count, offset = groupSizeTarget * count
                    /\ windows_disjoint contactJoints groupSizeTarget count (joint_index g')).
Proof.
  intros Hne Hk Hlen. unfold SolvePrepareIndicesSoA_fuel.
  apply Nat.eqb_neq in Hne. rewrite Hne.
  set (n := length contactJoints).
  set (g0 := mkGroups _ _ _).
  destruct (rounds _ _ _ _ _ _ _) as [[groupOffset g1]|] eqn:Hr; [|congruence].
  intros [= <- <-]. simpl.
  assert (Hp0 : perm_inv n 0 0 g0).
  { repeat split; simpl; [done | by rewrite length_seq | done]. }
  pose proof (rounds_perm _ _ n _ _ _ _ _ _ Hr Hp0) as Hp1. simpl in Hp1.
  destruct Hp1 as (Hlen1 & Hsum1 & Hperm1). rewrite Nat.add_0_r in *.
  rewrite fill_rest_spec by lia.
  rewrite Nat.add_0_r, drop_ge, app_nil_r by lia.
  split; [exact Hperm1|].
  split.
  { pose proof (Nat.Div0.mul_div_le groupOffset groupSizeTarget). lia. }
  intros Hvalid Hproper.
  eapply (rounds_disjoint n) in Hr; try done.
  2:{ exists 0. split; [lia|]. split; [intros w Hw; lia|].
      split; [exact Hp0 | apply length_replicate]. }
  destruct Hr as (count & Hoff & Hle & Hwin & _). simpl in *.
  exists count. split; [exact Hoff|].
  eapply windows_disjoint_prefix; [|exact Hwin].
  by rewrite take_app_le by (rewrite length_take; lia); rewrite take_take;
    f_equal; lia.
Qed.

End GroupingDisjoint.

(** *** The grouping pass: disjoint groups, permutation, termination *)

Lemma SolvePrepareIndicesSoA_returns (joints : list ContactJoint)
    (groupSizeTarget bodiesCount : nat) (g : Groups) :
  1 <= groupSizeTarget ->
  exists r,
    SolvePrepareIndicesSoA joints groupSizeTarget bodiesCount g = Some r
    /\ forall fuel, S (length joints) <= fuel ->
         SolvePrepareIndicesSoA_fuel joints groupSizeTarget fuel bodiesCount g
         = Some r.
Proof.
  intros Hk. unfold SolvePrepareIndicesSoA, SolvePrepareIndicesSoA_fuel.
  destruct (groupSizeTarget =? 1); [eauto|].
  set (g0 := mkGroups _ _ _).
  destruct (rounds_terminates joints groupSizeTarget (S (length joints)) Hk
              (S (length joints)) 0 0 g0) as [[groupOffset g1] Hr];
    try (simpl; rewrite length_seq; lia).
  rewrite Hr. eexists. split; [reflexivity|].
  intros fuel Hfuel.
  by rewrite (rounds_fuel_mono joints groupSizeTarget _ fuel Hfuel _ fuel _ _ _ _ Hr Hfuel).
Qed.

Example five_joints_grouped :
  SolvePrepareIndicesSoA five_joints 4 8 (scratch 5)
  = Some (4, mkGroups [1; 1; 1; 1; 1; 1; 1; 1] [4] [0; 1; 3; 2; 4]).
Proof. reflexivity. Qed.

Example k4_grouped :
  SolvePrepareIndicesSoA k4_joints 4 4 (scratch 6)
  = Some (0, mkGroups [1; 1; 1; 1] [4; 1; 2; 3] [0; 5; 4; 1; 2; 3]).
Proof. reflexivity. Qed.

(** C3.  Grouping disjointness: for a group size of 4, 8 or 16 and
    joints that each tie two different bodies of the body array,
    [SolvePrepareIndicesSoA] returns a [groupOffset] such that every
    aligned window of [K] entries of [joint_index] below [groupOffset]
    selects [K] joints whose [2 * K] body indices are pairwise
    distinct. *)
Theorem grouping_windows_disjoint (K bodiesCount : nat)
    (joints : list ContactJoint) (g : Groups) :
  K ∈ [4; 8; 16] ->
  joints_valid joints bodiesCount ->
  joints_proper joints ->
  length (joint_index g) = length joints ->
  exists groupOffset g',
    SolvePrepareIndicesSoA joints K bodiesCount g = Some (groupOffset, g')
    /\ forall w, K * w + K <= groupOffset ->
         NoDup (bodies_of joints (window K w (joint_index g')))
         /\ length (bodies_of joints (window K w (joint_index g'))) = 2 * K.
Proof.
  intros HK Hvalid Hproper Hlen.
  assert (Hk : 2 <= K).
  { repeat (apply elem_of_cons in HK as [->|HK]; [lia|]).
    by apply not_elem_of_nil in HK. }
  destruct (SolvePrepareIndicesSoA_returns joints K bodiesCount g)
    as [[groupOffset g'] [Hr _]]; [lia|].
  exists groupOffset, g'. split; [exact Hr|].
  apply grouping_spec in Hr as (Hperm & Hle & Hwin); [|lia|lia|done].
  destruct (Hwin Hvalid Hproper) as (count & -> & Hdisj).
  intros w Hw. split.
  - apply Hdisj. nia.
  - rewrite bodies_of_length. unfold window.
    rewrite length_take, length_drop.
    apply Permutation_length in Hperm. rewrite length_seq in Hperm. lia.
Qed.

Lemma grouping_windows_disjoint_witness :
  exists groupOffset g',
    SolvePrepareIndicesSoA five_joints 4 8 (scratch 5) = Some (groupOffset, g')
    /\ forall w, 4 * w + 4 <= groupOffset ->
         NoDup (bodies_of five_joints (window 4 w (joint_index g')))
         /\ length (bodies_of five_joints (window 4 w (joint_index g'))) = 2 * 4.
Proof.
  apply (grouping_windows_disjoint 4 8 five_joints (scratch 5)).
  - apply elem_of_cons. by left.
  - repeat constructor.
  - repeat constructor; simpl; lia.
  - reflexivity.
Defined.

(** C4.  Permutation: for a group size of 1, 4, 8 or 16 and joints with
    valid body indices, [joint_index] holds every integer below
    [jointCount] exactly once when [SolvePrepareIndicesSoA] returns;
    for a group size of 1 it is the identity and the function returns
    [jointCount]. *)
Theorem joint_index_permutation (K bodiesCount : nat)
    (joints : list ContactJoint) (g : Groups) :
  K ∈ [1; 4; 8; 16] ->
  joints_valid joints bodiesCount ->
  length (joint_index g) = length joints ->
  exists groupOffset g',
    SolvePrepareIndicesSoA joints K bodiesCount g = Some (groupOffset, g')
    /\ joint_index g' ≡ₚ seq 0 (length joints)
    /\ (K = 1 -> joint_index g' = seq 0 (length joints)
                 /\ groupOffset = length joints).
Proof.
  intros HK _ Hlen.
  destruct (decide (K = 1)) as [->|Hne].
  - unfold SolvePrepareIndicesSoA, SolvePrepareIndicesSoA_fuel. simpl.
    eexists _, _. split; [reflexivity|]. simpl.
    rewrite fill_identity_spec by done. done.
  - assert (Hk : 2 <= K).
    { repeat (apply elem_of_cons in HK as [->|HK]; [lia|]).
      by apply not_elem_of_nil in HK. }
    destruct (SolvePrepareIndicesSoA_returns joints K bodiesCount g)
      as [[groupOffset g'] [Hr _]]; [lia|].
    exists groupOffset, g'. split; [exact Hr|].
    apply grouping_spec in Hr as (Hperm & _); [|lia|lia|done].
    split; [exact Hperm | done].
Qed.

Lemma joint_index_permutation_witness :
  exists groupOffset g',
    SolvePrepareIndicesSoA k4_joints 4 4 (scratch 6) = Some (groupOffset, g')
    /\ joint_index g' ≡ₚ seq 0 (length k4_joints)
    /\ (4 = 1 -> joint_index g' = seq 0 (length k4_joints)
                 /\ groupOffset = length k4_joints).
Proof.
  apply (joint_index_permutation 4 4 k4_joints (scratch 6)).
  - apply elem_of_cons. right. apply elem_of_cons. by left.
  - repeat constructor.
  - reflexivity.
Defined.

(** C10.  The grouping pass terminates: for a group size of at least 2
    and joints with body indices in range, [SolvePrepareIndicesSoA]
    returns, and returns the same with any larger fuel; every run of
    the body of the inner loop either increments [i] or pops the work
    list; a round that fills its group takes exactly [groupSizeTarget]
    entries off the work list, and a round that accepts fewer ends the
    outer loop. *)
Theorem grouping_terminates (K bodiesCount : nat)
    (joints : list ContactJoint) (g : Groups) :
  2 <= K ->
  joints_valid joints bodiesCount ->
  (exists r,
      SolvePrepareIndicesSoA joints K bodiesCount g = Some r
      /\ forall fuel, S (length joints) <= fuel ->
           SolvePrepareIndicesSoA_fuel joints K fuel bodiesCount g = Some r)
  /\ (forall tag groupOffset s,
        scan_guard K s = true ->
        let s' := scan_body joints tag groupOffset s in
        (scan_i s' = S (scan_i s)
         /\ jointGroup_joints (scan_arrays s') = jointGroup_joints (scan_arrays s))
        \/ (scan_i s' = scan_i s
            /\ S (length (jointGroup_joints (scan_arrays s')))
               = length (jointGroup_joints (scan_arrays s))))
  /\ (forall scanFuel fuel tag groupOffset g0 s,
        K <= length (jointGroup_joints g0) ->
        scan joints K scanFuel (S tag) groupOffset (mkScan 0 0 g0) = Some s ->
        (groupSize s = K
         /\ length (jointGroup_joints (scan_arrays s)) + K
            = length (jointGroup_joints g0)
         /\ rounds joints K scanFuel (S fuel) tag groupOffset g0
            = rounds joints K scanFuel fuel (S tag) (groupOffset + K)
                (scan_arrays s))
        \/ (groupSize s < K
            /\ rounds joints K scanFuel (S fuel) tag groupOffset g0
               = Some (groupOffset + groupSize s, scan_arrays s))).
Proof.
  intros Hk _. split; [apply SolvePrepareIndicesSoA_returns; lia|]. split.
  - intros tag groupOffset s Hg.
    destruct (scan_body_advances joints K tag groupOffset s Hg)
      as [(Hi & Hw & _) | (Hi & Hw & _)]; [left | right]; done.
  - intros scanFuel fuel tag groupOffset g0 s Hlen Hs. simpl.
    apply Nat.leb_le in Hlen. rewrite Hlen, Hs.
    destruct (groupSize s <? K) eqn:Hlt.
    + right. apply Nat.ltb_lt in Hlt. done.
    + left. destruct (full_round_removes joints K _ _ _ _ _ Hs Hlt) as [-> Hsz].
      done.
Qed.

Lemma grouping_terminates_witness :
  exists r, SolvePrepareIndicesSoA five_joints 4 8 (scratch 5) = Some r.
Proof.
  destruct (grouping_terminates 4 8 five_joints (scratch 5)) as [[r [Hr _]] _].
  - lia.
  - repeat constructor; simpl; lia.
  - exists r. exact Hr.
Defined.

(** ** Arithmetic of the clamps *)

Section Clamps.

Local Open Scope Qc_scope.

Lemma abs_ltb (a : float) : Qcabs a = if ltb a 0 then - a else a.
Proof.
  destruct (ltb a 0) eqn:E.
  - apply ltb_lt in E. apply Qcabs_neg. by apply Qclt_le_weak.
  - apply ltb_ge in E. by apply Qcabs_pos.
Qed.

Lemma kFrictionCoefficient_pos : 0 < kFrictionCoefficient.
Proof. reflexivity. Qed.

Lemma kProductiveImpulse_pos : 0 < kProductiveImpulse.
Proof. reflexivity. Qed.

End Clamps.

(** Splits on every comparison of the goal and turns each into an
    order fact. *)
Ltac float_cases :=
  unfold Float.max, fabsf, simd.max, simd.abs, simd.flipsign, simd.select;
  rewrite ?abs_ltb;
  repeat match goal with
  | |- context [ltb ?a ?b] =>
      let E := fresh "E" in
      destruct (ltb a b) eqn:E;
      [apply ltb_lt in E | apply ltb_ge in E]
  | H : context [if ltb ?a ?b then _ else _] |- _ =>
      let E := fresh "E" in
      destruct (ltb a b) eqn:E;
      [apply ltb_lt in E | apply ltb_ge in E]
  end.

Section ClampFacts.

Local Open Scope Qc_scope.

(** The two spellings of the one-sided clamp give the same impulse. *)
Lemma clamp_agree (delta acc : float) :
  (if ltb (delta + acc) 0 then - acc else delta) = simd.max delta (- acc).
Proof. float_cases; try reflexivity; exfalso; qc_lra. Qed.

Lemma clamp_nonneg (delta acc : float) : 0 <= acc + simd.max delta (- acc).
Proof. float_cases; qc_lra. Qed.

(** The two spellings of the friction cap give the same impulse when
    the reaction is not negative. *)
Lemma cap_agree (reactionForce acc delta : float) :
  0 <= reactionForce ->
  (if ltb (reactionForce * kFrictionCoefficient) (fabsf (acc + delta))
   then (if ltb 0 (acc + delta) then 1 else - (1))
        * reactionForce * kFrictionCoefficient - acc
   else delta)
  = simd.select delta
      (simd.flipsign (reactionForce * kFrictionCoefficient) (acc + delta) - acc)
      (ltb (reactionForce * kFrictionCoefficient) (simd.abs (acc + delta))).
Proof.
  intros Hr. pose proof kFrictionCoefficient_pos as Hk.
  float_cases; try reflexivity; try ring; exfalso; to_Q; nra.
Qed.

Lemma cap_bound (reactionForce acc delta : float) :
  0 <= reactionForce ->
  Qcabs (acc + simd.select delta
           (simd.flipsign (reactionForce * kFrictionCoefficient) (acc + delta) - acc)
           (ltb (reactionForce * kFrictionCoefficient) (simd.abs (acc + delta))))
  <= kFrictionCoefficient * reactionForce.
Proof.
  intros Hr. pose proof kFrictionCoefficient_pos as Hk.
  float_cases; to_Q; nra.
Qed.

End ClampFacts.

(** ** The iteration loops *)

Lemma iterate_broke_more {S : Type} (pass : Z -> S -> S * bool) :
  forall (n : nat) (i : Z) (s : S),
    loop_broke (iterate pass n i s) = true ->
    forall m, iterate pass (n + m) i s = iterate pass n i s.
Proof.
  induction n as [|n IH]; intros i s; simpl; [discriminate|].
  destruct (pass i s) as [s' productive].
  destruct productive; simpl; [|done].
  intros Hbroke m. by rewrite IH.
Qed.

Lemma solve_broke_more {S R : Type} (impulses displacement : Z -> S -> S * bool)
    (finish : S -> R) (C P : nat) (s : S) :
  loop_broke (impulse_loop impulses C s) = true ->
  loop_broke (displacement_loop displacement P
                (loop_state (impulse_loop impulses C s))) = true ->
  forall c p,
    impulse_loop impulses (C + c) s = impulse_loop impulses C s
    /\ displacement_loop displacement (P + p)
         (loop_state (impulse_loop impulses (C + c) s))
       = displacement_loop displacement P
           (loop_state (impulse_loop impulses C s))
    /\ solve impulses displacement finish (C + c) (P + p) s
       = solve impulses displacement finish C P s.
Proof.
  unfold solve, impulse_loop, displacement_loop. intros Hi Hd c p.
  rewrite (iterate_broke_more _ _ _ _ Hi).
  rewrite (iterate_broke_more _ _ _ _ Hd). done.
Qed.

Example resting_impulse_loop :
  let l := impulse_loop (SolveJointsImpulsesAoS 0 1) 5
             (mkAoS (SolvePrepareAoS [still; still] 2) [resting_joint]) in
  loop_passes l = 2 /\ loop_broke l = true.
Proof. by vm_compute. Qed.

(** C6.  Early-exit fidelity: when solving with the budgets [(C, P)]
    leaves both iteration loops through [break], solving the same input
    with [(C + 10, P + 10)] runs the same passes and gives the same
    result; for any kernels and finish step, and so for the AoS driver
    and, once [SolvePrepareSoA] has returned, for the scalar and the
    grouped SoA drivers. *)
Theorem early_exit_fidelity :
  (forall (S R : Type) (impulses displacement : Z -> S -> S * bool)
          (finish : S -> R) (C P : nat) (s : S),
      loop_broke (impulse_loop impulses C s) = true ->
      loop_broke (displacement_loop displacement P
                    (loop_state (impulse_loop impulses C s))) = true ->
      impulse_loop impulses (C + 10) s = impulse_loop impulses C s
      /\ displacement_loop displacement (P + 10)
           (loop_state (impulse_loop impulses (C + 10) s))
         = displacement_loop displacement P
             (loop_state (impulse_loop impulses C s))
      /\ solve impulses displacement finish (C + 10) (P + 10) s
         = solve impulses displacement finish C P s)
  /\ (forall joints bodies bodiesCount C P,
        let s := mkAoS (SolvePrepareAoS bodies bodiesCount) joints in
        let impulses := SolveJointsImpulsesAoS 0 (length joints) in
        let displacement := SolveJointsDisplacementAoS 0 (length joints) in
        loop_broke (impulse_loop impulses C s) = true ->
        loop_broke (displacement_loop displacement P
                      (loop_state (impulse_loop impulses C s))) = true ->
        SolveJointsAoS joints bodies bodiesCount (C + 10) (P + 10)
        = SolveJointsAoS joints bodies bodiesCount C P)
  /\ (forall solver joint_packed bodies bodiesCount C P
             groupOffset solver' joint_packed',
        SolvePrepareSoA solver joint_packed bodies bodiesCount 1
        = Some (groupOffset, solver', joint_packed') ->
        let s := (solver', joint_packed') in
        let jointCount := length (contactJoints solver') in
        let impulses i := on_impulse (SolveJointsImpulsesSoA 1 0 jointCount i) in
        let displacement i :=
          on_displacement (SolveJointsDisplacementSoA 1 0 jointCount i) in
        loop_broke (impulse_loop impulses C s) = true ->
        loop_broke (displacement_loop displacement P
                      (loop_state (impulse_loop impulses C s))) = true ->
        SolveJointsSoA_Scalar solver joint_packed bodies bodiesCount
          (C + 10) (P + 10)
        = SolveJointsSoA_Scalar solver joint_packed bodies bodiesCount C P)
  /\ (forall VN solver joint_packed bodies bodiesCount C P
             groupOffset solver' joint_packed',
        SolvePrepareSoA solver joint_packed bodies bodiesCount VN
        = Some (groupOffset, solver', joint_packed') ->
        let s := (solver', joint_packed') in
        let jointCount := length (contactJoints solver') in
        let impulses i :=
          on_impulse (grouped_pass (SolveJointsImpulsesSoA VN)
                        (SolveJointsImpulsesSoA 1) groupOffset jointCount i) in
        let displacement i :=
          on_displacement (grouped_pass (SolveJointsDisplacementSoA VN)
                             (SolveJointsDisplacementSoA 1) groupOffset
                             jointCount i) in
        loop_broke (impulse_loop impulses C s) = true ->
        loop_broke (displacement_loop displacement P
                      (loop_state (impulse_loop impulses C s))) = true ->
        SolveJointsSoA_SIMD VN solver joint_packed bodies bodiesCount
          (C + 10) (P + 10)
        = SolveJointsSoA_SIMD VN solver joint_packed bodies bodiesCount C P)
  /\ (forall solver joint_packed bodies bodiesCount C P
             groupOffset solver' joint_packed',
        SolvePrepareSoA solver joint_packed bodies bodiesCount 16
        = Some (groupOffset, solver', joint_packed') ->
        let s := (solver', joint_packed') in
        let jointCount := length (contactJoints solver') in
        let impulses i :=
          on_impulse (grouped_pass SolveJointsImpulsesSoA_FMA
                        (SolveJointsImpulsesSoA 1) groupOffset jointCount i) in
        let displacement i :=
          on_displacement (grouped_pass SolveJointsDisplacementSoA_FMA
                             (SolveJointsDisplacementSoA 1) groupOffset
                             jointCount i) in
        loop_broke (impulse_loop impulses C s) = true ->
        loop_broke (displacement_loop displacement P
                      (loop_state (impulse_loop impulses C s))) = true ->
        SolveJointsSoA_FMA solver joint_packed bodies bodiesCount
          (C + 10) (P + 10)
        = SolveJointsSoA_FMA solver joint_packed bodies bodiesCount C P).
Proof.
  split; [| split; [| split; [| split]]].
  - intros S R impulses displacement finish C P s Hi Hd.
    by apply solve_broke_more.
  - intros joints bodies bodiesCount C P s impulses displacement Hi Hd.
    unfold SolveJointsAoS.
    by apply (solve_broke_more impulses displacement _ C P s Hi Hd 10 10).
  - intros solver joint_packed bodies bodiesCount C P groupOffset solver'
      joint_packed' Hprep s jointCount impulses displacement Hi Hd.
    unfold SolveJointsSoA_Scalar. rewrite Hprep. f_equal.
    by apply (solve_broke_more impulses displacement _ C P s Hi Hd 10 10).
  - intros VN solver joint_packed bodies bodiesCount C P groupOffset solver'
      joint_packed' Hprep s jointCount impulses displacement Hi Hd.
    unfold SolveJointsSoA_SIMD. rewrite Hprep. f_equal.
    by apply (solve_broke_more impulses displacement _ C P s Hi Hd 10 10).
  - intros solver joint_packed bodies bodiesCount C P groupOffset solver'
      joint_packed' Hprep s jointCount impulses displacement Hi Hd.
    unfold SolveJointsSoA_FMA. rewrite Hprep. f_equal.
    by apply (solve_broke_more impulses displacement _ C P s Hi Hd 10 10).
Qed.

Lemma early_exit_fidelity_witness :
  SolveJointsAoS [resting_joint] [still; still] 2 (5 + 10) (5 + 10)
  = SolveJointsAoS [resting_joint] [still; still] 2 5 5.
Proof.
  apply (proj1 (proj2 early_exit_fidelity)); by vm_compute.
Defined.

(** ** The early-out of the kernels *)

Lemma skip_AoS_max (iterationIndex last1 last2 : Z) :
  skip_AoS iterationIndex last1 last2 = true
  <-> (Z.max last1 last2 <= iterationIndex - 2)%Z.
Proof.
  unfold skip_AoS. rewrite andb_true_iff, !Z.ltb_lt. lia.
Qed.

Lemma skip_displacement_AoS_max (iterationIndex last1 last2 : Z) :
  skip_displacement_AoS iterationIndex last1 last2 = true
  <-> (Z.max last1 last2 <= iterationIndex - 2)%Z.
Proof.
  unfold skip_displacement_AoS. rewrite andb_true_iff, !Z.ltb_lt. lia.
Qed.

Lemma body_productive_max (iterationIndex last1 last2 : Z) :
  body_productive iterationIndex last1 last2 = false
  <-> (Z.max last1 last2 <= iterationIndex - 2)%Z.
Proof.
  unfold body_productive. rewrite orb_false_iff, !Z.ltb_ge. lia.
Qed.

(** The batch body at width 1. *)
Lemma SolveJointsSoA_body_1 lane (iterationIndex : Z) (jointIndex : nat) (s : SoA) :
  SolveJointsSoA_body lane 1 iterationIndex jointIndex s
  = let jointP := soa_packed s !!! jointIndex in
    if body_productive iterationIndex
         (SolveBody.lastIteration
            (soa_bodies s !!! ContactJointPacked.body1Index jointP))
         (SolveBody.lastIteration
            (soa_bodies s !!! ContactJointPacked.body2Index jointP))
    then scatter_lane lane iterationIndex jointIndex s
    else (s, false).
Proof.
  unfold SolveJointsSoA_body, scatter_lane. simpl.
  destruct (body_productive _ _ _); simpl; [|done].
  destruct (lane _ _ _ _) as [[[body1 body2] jointP'] productive]. simpl.
  by rewrite orb_false_r.
Qed.

(** C5.  The early-out: in the pass with iteration index [i], the AoS
    impulse kernel and the width-1 SoA impulse kernel skip a joint, and
    leave the whole state as it was, exactly when the larger of the
    [lastIteration] tags of its two bodies is at most [i - 2] when the
    joint is visited; otherwise they run the arithmetic of the joint.
    The displacement kernels do the same on
    [lastDisplacementIteration]. *)
Theorem early_out_rule (i : Z) (jointIndex : nat) :
  (forall s : AoS,
      let joint := aos_joints s !!! jointIndex in
      let last1 := lastIteration (aos_bodies s !!! body1Index joint) in
      let last2 := lastIteration (aos_bodies s !!! body2Index joint) in
      SolveJointsImpulsesAoS_body i jointIndex s
      = if bool_decide (Z.max last1 last2 <= i - 2)%Z
        then (s, false)
        else SolveJointsImpulsesAoS_joint i jointIndex s)
  /\ (forall s : AoS,
        let joint := aos_joints s !!! jointIndex in
        let last1 := lastDisplacementIteration (aos_bodies s !!! body1Index joint) in
        let last2 := lastDisplacementIteration (aos_bodies s !!! body2Index joint) in
        SolveJointsDisplacementAoS_body i jointIndex s
        = if bool_decide (Z.max last1 last2 <= i - 2)%Z
          then (s, false)
          else SolveJointsDisplacementAoS_joint i jointIndex s)
  /\ (forall s : SoA,
        let jointP := soa_packed s !!! jointIndex in
        let last1 := SolveBody.lastIteration
                       (soa_bodies s !!! ContactJointPacked.body1Index jointP) in
        let last2 := SolveBody.lastIteration
                       (soa_bodies s !!! ContactJointPacked.body2Index jointP) in
        SolveJointsSoA_body SolveJointsImpulsesSoA_lane 1 i jointIndex s
        = (if bool_decide (Z.max last1 last2 <= i - 2)%Z
           then (s, false)
           else scatter_lane SolveJointsImpulsesSoA_lane i jointIndex s)
        /\ SolveJointsSoA_body SolveJointsDisplacementSoA_lane 1 i jointIndex s
           = (if bool_decide (Z.max last1 last2 <= i - 2)%Z
              then (s, false)
              else scatter_lane SolveJointsDisplacementSoA_lane i jointIndex s)).
Proof.
  split; [| split].
  - intros s joint last1 last2. unfold SolveJointsImpulsesAoS_body.
    fold joint last1 last2.
    pose proof (skip_AoS_max i last1 last2) as H.
    destruct (skip_AoS i last1 last2); case_bool_decide; intuition congruence.
  - intros s joint last1 last2. unfold SolveJointsDisplacementAoS_body.
    fold joint last1 last2.
    pose proof (skip_displacement_AoS_max i last1 last2) as H.
    destruct (skip_displacement_AoS i last1 last2); case_bool_decide;
      intuition congruence.
  - intros s jointP last1 last2. rewrite !SolveJointsSoA_body_1.
    cbv zeta. fold jointP. fold last1 last2.
    pose proof (body_productive_max i last1 last2) as H.
    destruct (body_productive i last1 last2); case_bool_decide;
      first [done | exfalso; intuition congruence].
Qed.

(** ** The empty scene *)

Lemma iterate_unproductive {S : Type} (pass : Z -> S -> S * bool) (s : S) :
  (forall i, pass i s = (s, false)) ->
  forall n i, loop_state (iterate pass n i s) = s.
Proof. intros Hpass [|n] i; simpl; [done|]. by rewrite Hpass. Qed.

Lemma solve_unproductive {S R : Type} (impulses displacement : Z -> S -> S * bool)
    (finish : S -> R) (C P : nat) (s : S) :
  (forall i, impulses i s = (s, false)) ->
  (forall i, displacement i s = (s, false)) ->
  solve impulses displacement finish C P s = finish s.
Proof.
  intros Hi Hd. unfold solve, impulse_loop, displacement_loop.
  by rewrite (iterate_unproductive impulses s Hi),
    (iterate_unproductive displacement s Hd).
Qed.

(** C9.  The empty scene: with no contact joint, and whatever the
    bodies, the budgets and the scratch arrays of the solver, each of
    the five solve entry points returns, and returns NaN, the quotient
    of an iteration sum of 0 by a joint count of 0. *)
Theorem empty_scene_returns_NaN (bodies : list RigidBody) (bodiesCount C P : nat)
    (solveBodiesImpulse solveBodiesDisplacement : list SolveBody.t)
    (g : Groups) (joint_packed : list ContactJointPacked.t) :
  let solver := mkSolver [] solveBodiesImpulse solveBodiesDisplacement g in
  snd (SolveJointsAoS [] bodies bodiesCount C P) = Binary32.NaN
  /\ (exists r, SolveJointsSoA_Scalar solver joint_packed bodies bodiesCount C P
                = Some r /\ snd r = Binary32.NaN)
  /\ (exists r, SolveJointsSoA_SSE2 solver joint_packed bodies bodiesCount C P
                = Some r /\ snd r = Binary32.NaN)
  /\ (exists r, SolveJointsSoA_AVX2 solver joint_packed bodies bodiesCount C P
                = Some r /\ snd r = Binary32.NaN)
  /\ (exists r, SolveJointsSoA_FMA solver joint_packed bodies bodiesCount C P
                = Some r /\ snd r = Binary32.NaN).
Proof.
  intros solver. split; [| split; [| split; [| split]]].
  - unfold SolveJointsAoS. rewrite solve_unproductive; [reflexivity | intros i; reflexivity ..].
  - unfold SolveJointsSoA_Scalar. simpl. eexists. split; [reflexivity|].
    rewrite solve_unproductive; [reflexivity | intros i; reflexivity ..].
  - unfold SolveJointsSoA_SSE2, SolveJointsSoA_SIMD. simpl.
    eexists. split; [reflexivity|]. rewrite solve_unproductive; [reflexivity | intros i; reflexivity ..].
  - unfold SolveJointsSoA_AVX2, SolveJointsSoA_SIMD. simpl.
    eexists. split; [reflexivity|]. rewrite solve_unproductive; [reflexivity | intros i; reflexivity ..].
  - unfold SolveJointsSoA_FMA. simpl.
    eexists. split; [reflexivity|]. rewrite solve_unproductive; [reflexivity | intros i; reflexivity ..].
Qed.

(** ** The average-iterations diagnostic *)

Lemma foldl_sum_Z {A : Type} (step : Z -> A -> Z) (f : A -> Z) (l : list A) :
  (forall a x, x ∈ l -> step a x = (a + f x)%Z) ->
  forall acc : Z, (foldl step acc l = acc + sum_Z (map f l))%Z.
Proof.
  induction l as [|a l IH]; intros Hstep acc; simpl; [lia|].
  rewrite IH by (intros; apply Hstep; by right).
  rewrite Hstep by by left. lia.
Qed.

Lemma sum_Z_perm (l1 l2 : list Z) : l1 ≡ₚ l2 -> sum_Z l1 = sum_Z l2.
Proof. induction 1; simpl; lia. Qed.

Lemma of_Z_nonzero (n : Z) : n <> 0%Z -> of_Z n <> 0%Qc.
Proof.
  intros Hn H. apply Hn. unfold of_Z in H.
  apply Qc_eq_this in H. rewrite this_Q2Qc in H.
  unfold Qeq in H. simpl in H. lia.
Qed.

Lemma map_lookup_total_seq {A : Type} `{Inhabited A} (l : list A) :
  map (fun i => l !!! i) (seq 0 (length l)) = l.
Proof.
  apply list_eq. intros i.
  rewrite list_lookup_fmap.
  destruct (decide (i < length l)) as [Hi|Hi].
  - rewrite lookup_seq_lt by done. simpl.
    by rewrite (list_lookup_lookup_total_lt l i Hi).
  - rewrite lookup_seq_ge by lia. simpl.
    symmetry. apply lookup_ge_None. lia.
Qed.

(** ** The accumulator invariant *)

Section Invariant.

Local Open Scope Qc_scope.

Lemma normalDeltaImpulse_AoS_max nl body1 body2 :
  normalDeltaImpulse_AoS nl body1 body2
  = simd.max (normaldV_AoS nl body1 body2 * compInvMass nl)
      (- accumulatedImpulse nl).
Proof. apply clamp_agree. Qed.

Lemma displacingDeltaImpulse_AoS_max nl body1 body2 :
  displacingDeltaImpulse_AoS nl body1 body2
  = simd.max (displacingdV_AoS nl body1 body2 * compInvMass nl)
      (- accumulatedDisplacingImpulse nl).
Proof. apply clamp_agree. Qed.

Lemma frictionDeltaImpulse_AoS_select nl fl body1 body2 :
  0 <= accumulatedImpulse nl ->
  frictionDeltaImpulse_AoS nl fl body1 body2
  = simd.select (frictiondV_AoS fl body1 body2 * compInvMass fl)
      (simd.flipsign (accumulatedImpulse nl * kFrictionCoefficient)
         (accumulatedImpulse fl + frictiondV_AoS fl body1 body2 * compInvMass fl)
       - accumulatedImpulse fl)
      (ltb (accumulatedImpulse nl * kFrictionCoefficient)
         (simd.abs (accumulatedImpulse fl
                    + frictiondV_AoS fl body1 body2 * compInvMass fl))).
Proof. intros Hr. by apply cap_agree. Qed.

Lemma max_ps_max a b : avx.max_ps a b = simd.max a b.
Proof. reflexivity. Qed.

(** The joint that the AoS impulse kernel writes back is within P1
    whatever it was, but for the displacing accumulator, which the
    kernel leaves alone. *)
Lemma impulse_AoS_ok (joint : ContactJoint) (body1 body2 body1' body2' : RigidBody) :
  0 <= accumulatedDisplacingImpulse (normalLimiter joint) ->
  let nl := normalLimiter joint in
  let fl := frictionLimiter joint in
  let nl' := set_accumulatedImpulse
               (accumulatedImpulse nl + normalDeltaImpulse_AoS nl body1 body2) nl in
  let fl' := set_accumulatedImpulse
               (accumulatedImpulse fl
                + frictionDeltaImpulse_AoS nl' fl body1' body2') fl in
  accumulators_ok (set_frictionLimiter fl' (set_normalLimiter nl' joint)).
Proof.
  intros Hd nl fl nl' fl'. unfold accumulators_ok. simpl.
  assert (Hn : 0 <= accumulatedImpulse nl + normalDeltaImpulse_AoS nl body1 body2).
  { rewrite normalDeltaImpulse_AoS_max. apply clamp_nonneg. }
  split; [exact Hn|]. split; [exact Hd|].
  rewrite frictionDeltaImpulse_AoS_select by exact Hn. simpl.
  by apply cap_bound.
Qed.

Lemma displacement_AoS_ok (joint : ContactJoint) (body1 body2 : RigidBody) :
  accumulators_ok joint ->
  let nl := normalLimiter joint in
  let nl' := set_accumulatedDisplacingImpulse
               (accumulatedDisplacingImpulse nl
                + displacingDeltaImpulse_AoS nl body1 body2) nl in
  accumulators_ok (set_normalLimiter nl' joint).
Proof.
  intros (Hn & _ & Hf) nl nl'. unfold accumulators_ok. simpl.
  split; [exact Hn|]. split; [|exact Hf].
  rewrite displacingDeltaImpulse_AoS_max. apply clamp_nonneg.
Qed.

Lemma impulse_lane_ok (i : Z) (body1 body2 : SolveBody.t)
    (jointP : ContactJointPacked.t) :
  0 <= ContactJointPacked.normalLimiter_accumulatedDisplacingImpulse jointP ->
  packed_ok (snd (fst (SolveJointsImpulsesSoA_lane i body1 body2 jointP))).
Proof.
  intros Hd. unfold SolveJointsImpulsesSoA_lane, packed_ok. simpl.
  assert (Hn : 0 <= ContactJointPacked.normalLimiter_accumulatedImpulse jointP
                    + normalDeltaImpulse_SoA jointP body1 body2)
    by apply clamp_nonneg.
  split; [exact Hn|]. split; [exact Hd|].
  by apply cap_bound.
Qed.

Lemma displacement_lane_ok (i : Z) (body1 body2 : SolveBody.t)
    (jointP : ContactJointPacked.t) :
  packed_ok jointP ->
  packed_ok (snd (fst (SolveJointsDisplacementSoA_lane i body1 body2 jointP))).
Proof.
  intros (Hn & _ & Hf). unfold SolveJointsDisplacementSoA_lane, packed_ok. simpl.
  split; [exact Hn|]. split; [|exact Hf]. apply clamp_nonneg.
Qed.

Lemma impulse_FMA_lane_ok (i : Z) (body1 body2 : SolveBody.t)
    (jointP : ContactJointPacked.t) :
  0 <= ContactJointPacked.normalLimiter_accumulatedDisplacingImpulse jointP ->
  packed_ok (snd (fst (SolveJointsImpulsesSoA_FMA_lane i body1 body2 jointP))).
Proof.
  intros Hd. unfold SolveJointsImpulsesSoA_FMA_lane, packed_ok. simpl.
  assert (Hn : 0 <= ContactJointPacked.normalLimiter_accumulatedImpulse jointP
                    + normalDeltaImpulse_FMA jointP body1 body2)
    by apply clamp_nonneg.
  split; [exact Hn|]. split; [exact Hd|].
  by apply cap_bound.
Qed.

Lemma displacement_FMA_lane_ok (i : Z) (body1 body2 : SolveBody.t)
    (jointP : ContactJointPacked.t) :
  packed_ok jointP ->
  packed_ok (snd (fst (SolveJointsDisplacementSoA_FMA_lane i body1 body2 jointP))).
Proof.
  intros (Hn & _ & Hf).
  unfold SolveJointsDisplacementSoA_FMA_lane, packed_ok. simpl.
  split; [exact Hn|]. split; [|exact Hf]. apply clamp_nonneg.
Qed.

End Invariant.

Section InvariantPasses.

Local Open Scope Qc_scope.

Lemma for_joints_inv {S : Type} (Q : S -> Prop) (body : nat -> S -> S * bool)
    (jointStart jointCount : nat) (s : S) :
  (forall j s, Q s -> Q (fst (body j s))) ->
  Q s -> Q (fst (for_joints body jointStart jointCount s)).
Proof.
  intros Hbody. unfold for_joints. generalize false.
  generalize (seq jointStart jointCount). intros l. revert s.
  induction l as [|j l IH]; intros s productive Hs; simpl; [done|].
  pose proof (Hbody j s Hs) as Hs'.
  destruct (body j s) as [s' p]. by apply IH.
Qed.

Lemma for_batches_inv (Q : SoA -> Prop) (body : nat -> SoA -> SoA * bool)
    (VN jointStart jointCount : nat) (s : SoA) :
  (forall j s, Q s -> Q (fst (body j s))) ->
  Q s -> Q (fst (for_batches body VN jointStart jointCount s)).
Proof.
  intros Hbody. unfold for_batches. generalize false.
  generalize (seq 0 ((jointCount + VN - 1) / VN)). intros l. revert s.
  induction l as [|j l IH]; intros s productive Hs; simpl; [done|].
  pose proof (Hbody (jointStart + j * VN)%nat s Hs) as Hs'.
  destruct (body _ s) as [s' p]. by apply IH.
Qed.

Lemma accumulators_ok_default : accumulators_ok inhabitant.
Proof. by vm_compute. Qed.

Lemma packed_ok_default : packed_ok inhabitant.
Proof. by vm_compute. Qed.

Lemma accumulators_ok_lookup (joints : list ContactJoint) (i : nat) :
  Forall accumulators_ok joints -> accumulators_ok (joints !!! i).
Proof.
  intros H. rewrite list_lookup_total_alt.
  destruct (joints !! i) as [joint|] eqn:E; simpl.
  - by apply (proj1 (Forall_lookup _ _) H i).
  - apply accumulators_ok_default.
Qed.

Lemma packed_ok_lookup (packed : list ContactJointPacked.t) (i : nat) :
  Forall packed_ok packed -> packed_ok (packed !!! i).
Proof.
  intros H. rewrite list_lookup_total_alt.
  destruct (packed !! i) as [jointP|] eqn:E; simpl.
  - by apply (proj1 (Forall_lookup _ _) H i).
  - apply packed_ok_default.
Qed.

Lemma impulse_AoS_body_ok (i : Z) (jointIndex : nat) (s : AoS) :
  Forall accumulators_ok (aos_joints s) ->
  Forall accumulators_ok (aos_joints (fst (SolveJointsImpulsesAoS_body i jointIndex s))).
Proof.
  intros H. unfold SolveJointsImpulsesAoS_body.
  destruct (skip_AoS _ _ _); [done|].
  unfold SolveJointsImpulsesAoS_joint.
  destruct (ltb kProductiveImpulse _); simpl;
    (apply Forall_insert; [done|]);
    apply impulse_AoS_ok;
    by destruct (accumulators_ok_lookup (aos_joints s) jointIndex H) as (_ & ? & _).
Qed.

Lemma displacement_AoS_body_ok (i : Z) (jointIndex : nat) (s : AoS) :
  Forall accumulators_ok (aos_joints s) ->
  Forall accumulators_ok
    (aos_joints (fst (SolveJointsDisplacementAoS_body i jointIndex s))).
Proof.
  intros H. unfold SolveJointsDisplacementAoS_body.
  destruct (skip_displacement_AoS _ _ _); [done|].
  unfold SolveJointsDisplacementAoS_joint.
  destruct (ltb kProductiveImpulse _); simpl;
    (apply Forall_insert; [done|]);
    apply displacement_AoS_ok;
    by apply accumulators_ok_lookup.
Qed.

Lemma store_lanes_ok (packed : list ContactJointPacked.t)
    (computed : list (nat * (SolveBody.t * SolveBody.t * ContactJointPacked.t * bool))) :
  Forall packed_ok packed ->
  Forall (fun c => packed_ok (snd (fst (snd c)))) computed ->
  Forall packed_ok
    (foldl (fun packed '(i, (_, _, jointP, _)) => <[i := jointP]> packed)
       packed computed).
Proof.
  revert packed. induction computed as [|[k [[[b1 b2] jointP] p]] computed IH];
    intros packed Hp Hc; simpl; [done|].
  apply Forall_cons in Hc as [Hk Hc]. simpl in Hk.
  apply IH; [|done]. by apply Forall_insert.
Qed.

Lemma gathered_lanes_ok lane (i : Z) (s : SoA) (lanes : list nat) :
  (forall body1 body2 jointP,
      packed_ok jointP -> packed_ok (snd (fst (lane i body1 body2 jointP)))) ->
  Forall packed_ok (soa_packed s) ->
  Forall (fun c : nat * (SolveBody.t * SolveBody.t * ContactJointPacked.t * bool) =>
            packed_ok (snd (fst (snd c))))
    (map (fun '(k, body1, body2, jointP) => (k, lane i body1 body2 jointP))
       (map (fun k =>
               let jointP := soa_packed s !!! k in
               (k, soa_bodies s !!! ContactJointPacked.body1Index jointP,
                   soa_bodies s !!! ContactJointPacked.body2Index jointP, jointP))
          lanes)).
Proof.
  intros Hlane Hp. induction lanes as [|k lanes IH]; simpl; constructor; [|done].
  simpl. apply Hlane. by apply packed_ok_lookup.
Qed.

Lemma SoA_body_ok lane (VN : nat) (i : Z) (jointIndex : nat) (s : SoA) :
  (forall body1 body2 jointP,
      packed_ok jointP -> packed_ok (snd (fst (lane i body1 body2 jointP)))) ->
  Forall packed_ok (soa_packed s) ->
  Forall packed_ok (soa_packed (fst (SolveJointsSoA_body lane VN i jointIndex s))).
Proof.
  intros Hlane Hp. unfold SolveJointsSoA_body.
  destruct (forallb _ _); [done|]. simpl.
  apply store_lanes_ok; [done|]. by apply gathered_lanes_ok.
Qed.

Lemma SoA_FMA_body_ok lane (i : Z) (jointIndex : nat) (s : SoA) :
  (forall body1 body2 jointP,
      packed_ok jointP -> packed_ok (snd (fst (lane i body1 body2 jointP)))) ->
  Forall packed_ok (soa_packed s) ->
  Forall packed_ok (soa_packed (fst (SolveJointsSoA_FMA_body lane i jointIndex s))).
Proof.
  intros Hlane Hp. unfold SolveJointsSoA_FMA_body.
  destruct (forallb _ _); [done|]. cbn [fst soa_packed].
  apply store_lanes_ok; [done|]. by apply gathered_lanes_ok.
Qed.

End InvariantPasses.

Section InvariantTheorem.

Local Open Scope Qc_scope.

Lemma clamp_from_below (delta acc : float) : - acc <= simd.max delta (- acc).
Proof. float_cases; qc_lra. Qed.

End InvariantTheorem.

(** ** The AoS backend on joints between two different bodies *)

Section TwoUpdates.

Lemma on2_lookup1 {A : Type} `{Inhabited A} (f1 f2 : A -> A) b1 b2 (l : list A) :
  b1 <> b2 -> b1 < length l -> on2 f1 f2 b1 b2 l !!! b1 = f1 (l !!! b1).
Proof.
  intros Hne Hb. unfold on2.
  rewrite list_lookup_total_alter. case_decide; [lia|].
  rewrite list_lookup_total_alter. case_decide; [done|]. lia.
Qed.

Lemma on2_lookup2 {A : Type} `{Inhabited A} (f1 f2 : A -> A) b1 b2 (l : list A) :
  b1 <> b2 -> b2 < length l -> on2 f1 f2 b1 b2 l !!! b2 = f2 (l !!! b2).
Proof.
  intros Hne Hb. unfold on2.
  rewrite list_lookup_total_alter, length_alter. case_decide; [|lia].
  f_equal. rewrite list_lookup_total_alter. case_decide; [lia|done].
Qed.

Lemma on2_length {A : Type} (f1 f2 : A -> A) b1 b2 (l : list A) :
  length (on2 f1 f2 b1 b2 l) = length l.
Proof. unfold on2. by rewrite !length_alter. Qed.

Lemma on2_on2 {A : Type} (f1 f2 g1 g2 : A -> A) b1 b2 (l : list A) :
  b1 <> b2 ->
  on2 g1 g2 b1 b2 (on2 f1 f2 b1 b2 l)
  = on2 (fun a => g1 (f1 a)) (fun a => g2 (f2 a)) b1 b2 l.
Proof.
  intros Hne. unfold on2. apply list_eq. intros k.
  rewrite !list_lookup_alter.
  repeat case_decide; subst; try done;
    destruct (l !! _); simpl; congruence.
Qed.

Lemma on2_insert {A : Type} `{Inhabited A} (f1 f2 : A -> A) b1 b2 (l : list A) :
  b1 <> b2 -> b1 < length l -> b2 < length l ->
  on2 f1 f2 b1 b2 l = <[b2 := f2 (l !!! b2)]> (<[b1 := f1 (l !!! b1)]> l).
Proof.
  intros Hne Hb1 Hb2. unfold on2. apply list_eq. intros k.
  destruct (decide (k = b2)) as [->|Hk2]; [|destruct (decide (k = b1)) as [->|Hk1]].
  - rewrite list_lookup_alter_eq, list_lookup_alter_ne by done.
    rewrite list_lookup_insert_eq by (by rewrite length_insert).
    by rewrite (list_lookup_lookup_total_lt l b2 Hb2).
  - rewrite list_lookup_alter_ne, list_lookup_alter_eq by done.
    rewrite list_lookup_insert_ne, list_lookup_insert_eq by done.
    by rewrite (list_lookup_lookup_total_lt l b1 Hb1).
  - rewrite !list_lookup_alter_ne, !list_lookup_insert_ne by done. done.
Qed.

End TwoUpdates.

Ltac fold_on2 b1 b2 :=
  repeat match goal with
  | |- context [alter ?f2 b2 (alter ?f1 b1 ?l)] =>
      change (alter f2 b2 (alter f1 b1 l)) with (on2 f1 f2 b1 b2 l)
  end.

Section Unaliased.

Local Open Scope Qc_scope.

Lemma impulse_joint_unaliased (i : Z) (jointIndex : nat) (s : AoS) :
  let joint := aos_joints s !!! jointIndex in
  let bodies := aos_bodies s in
  body1Index joint <> body2Index joint ->
  (body1Index joint < length bodies)%nat ->
  (body2Index joint < length bodies)%nat ->
  SolveJointsImpulsesAoS_joint i jointIndex s
  = let '(body1, body2, joint', productive) :=
      impulse_on_bodies i (bodies !!! body1Index joint)
        (bodies !!! body2Index joint) joint in
    (mkAoS (<[body2Index joint := body2]> (<[body1Index joint := body1]> bodies))
       (<[jointIndex := joint']> (aos_joints s)),
     productive).
Proof.
  intros joint bodies Hne Hb1 Hb2.
  unfold SolveJointsImpulsesAoS_joint, impulse_on_bodies.
  fold joint. fold bodies.
  set (b1 := body1Index joint) in *. set (b2 := body2Index joint) in *.
  set (nl := normalLimiter joint). set (fl := frictionLimiter joint).
  set (nd := normalDeltaImpulse_AoS nl (bodies !!! b1) (bodies !!! b2)).
  fold_on2 b1 b2.
  rewrite !on2_lookup1, !on2_lookup2 by done.
  set (fd := frictionDeltaImpulse_AoS _ fl _ _).
  rewrite !on2_on2 by done.
  destruct (ltb kProductiveImpulse _); by rewrite on2_insert by done.
Qed.

End Unaliased.

Section Views.

Local Open Scope Qc_scope.

Lemma displacement_joint_unaliased (i : Z) (jointIndex : nat) (s : AoS) :
  let joint := aos_joints s !!! jointIndex in
  let bodies := aos_bodies s in
  body1Index joint <> body2Index joint ->
  (body1Index joint < length bodies)%nat ->
  (body2Index joint < length bodies)%nat ->
  SolveJointsDisplacementAoS_joint i jointIndex s
  = let '(body1, body2, joint', productive) :=
      displacement_on_bodies i (bodies !!! body1Index joint)
        (bodies !!! body2Index joint) joint in
    (mkAoS (<[body2Index joint := body2]> (<[body1Index joint := body1]> bodies))
       (<[jointIndex := joint']> (aos_joints s)),
     productive).
Proof.
  intros joint bodies Hne Hb1 Hb2.
  unfold SolveJointsDisplacementAoS_joint, displacement_on_bodies.
  fold joint. fold bodies.
  set (b1 := body1Index joint) in *. set (b2 := body2Index joint) in *.
  set (nl := normalLimiter joint).
  set (dd := displacingDeltaImpulse_AoS nl (bodies !!! b1) (bodies !!! b2)).
  fold_on2 b1 b2.
  rewrite ?on2_on2 by done.
  destruct (ltb kProductiveImpulse _); by rewrite on2_insert by done.
Qed.

Lemma simd_max_eq (a b : float) : simd.max a b = Float.max a b.
Proof. reflexivity. Qed.

Lemma simd_abs_eq (a : float) : simd.abs a = fabsf a.
Proof. reflexivity. Qed.

(** On the views of the bodies and the packed joint, a lane of the SoA
    impulse kernel computes what the AoS loop body computes. *)
Lemma impulse_lane_agrees (i : Z) (body1 body2 : RigidBody) (joint : ContactJoint) :
  SolveJointsImpulsesSoA_lane i (impulse_view body1) (impulse_view body2)
    (pack joint)
  = let '(body1', body2', joint', productive) :=
      impulse_on_bodies i body1 body2 joint in
    (impulse_view body1', impulse_view body2', pack joint', productive).
Proof.
  unfold SolveJointsImpulsesSoA_lane, impulse_on_bodies.
  set (nl := normalLimiter joint). set (fl := frictionLimiter joint).
  assert (Hn : normalDeltaImpulse_SoA (pack joint) (impulse_view body1)
                 (impulse_view body2)
               = normalDeltaImpulse_AoS nl body1 body2).
  { by rewrite normalDeltaImpulse_AoS_max. }
  rewrite Hn. set (nd := normalDeltaImpulse_AoS nl body1 body2).
  assert (Hacc : 0 <= accumulatedImpulse nl + nd).
  { unfold nd. rewrite normalDeltaImpulse_AoS_max. apply clamp_nonneg. }
  set (nl' := set_accumulatedImpulse (accumulatedImpulse nl + nd) nl).
  set (b1 := add_velocity (compMass1_linear nl) (compMass1_angular nl) nd body1).
  set (b2 := add_velocity (compMass2_linear nl) (compMass2_angular nl) nd body2).
  assert (Hf : frictionDeltaImpulse_SoA (pack joint)
                 (ContactJointPacked.normalLimiter_accumulatedImpulse (pack joint) + nd)
                 (add_impulse
                    (ContactJointPacked.normalLimiter_compMass1_linearX (pack joint))
                    (ContactJointPacked.normalLimiter_compMass1_linearY (pack joint))
                    (ContactJointPacked.normalLimiter_compMass1_angular (pack joint))
                    nd (impulse_view body1))
                 (add_impulse
                    (ContactJointPacked.normalLimiter_compMass2_linearX (pack joint))
                    (ContactJointPacked.normalLimiter_compMass2_linearY (pack joint))
                    (ContactJointPacked.normalLimiter_compMass2_angular (pack joint))
                    nd (impulse_view body2))
               = frictionDeltaImpulse_AoS nl' fl b1 b2).
  { by rewrite frictionDeltaImpulse_AoS_select. }
  rewrite Hf. set (fd := frictionDeltaImpulse_AoS nl' fl b1 b2).
  clearbody fd. clear Hf Hn Hacc. clearbody nd.
  rewrite simd_max_eq, !simd_abs_eq.
  destruct (ltb kProductiveImpulse _); reflexivity.
Qed.

Lemma displacement_lane_agrees (i : Z) (body1 body2 : RigidBody)
    (joint : ContactJoint) :
  SolveJointsDisplacementSoA_lane i (displacement_view body1)
    (displacement_view body2) (pack joint)
  = let '(body1', body2', joint', productive) :=
      displacement_on_bodies i body1 body2 joint in
    (displacement_view body1', displacement_view body2', pack joint', productive).
Proof.
  unfold SolveJointsDisplacementSoA_lane, displacement_on_bodies.
  set (nl := normalLimiter joint).
  assert (Hn : displacingDeltaImpulse_SoA (pack joint) (displacement_view body1)
                 (displacement_view body2)
               = displacingDeltaImpulse_AoS nl body1 body2).
  { by rewrite displacingDeltaImpulse_AoS_max. }
  rewrite Hn. set (dd := displacingDeltaImpulse_AoS nl body1 body2).
  clearbody dd. clear Hn.
  rewrite simd_abs_eq.
  destruct (ltb kProductiveImpulse _); reflexivity.
Qed.

End Views.

(** ** The scalar SoA backend simulates the AoS backend *)

Section Simulation.

Lemma constants_body1Index (a b : ContactJoint) :
  constants a = constants b -> body1Index a = body1Index b.
Proof. intros H. apply (f_equal body1Index) in H. exact H. Qed.

Lemma constants_body2Index (a b : ContactJoint) :
  constants a = constants b -> body2Index a = body2Index b.
Proof. intros H. apply (f_equal body2Index) in H. exact H. Qed.

Lemma unpack_pack (joint joint0 : ContactJoint) :
  constants joint = constants joint0 -> unpack (pack joint) joint0 = joint.
Proof.
  destruct joint as [b1 b2 [] []], joint0 as [c1 c2 [] []].
  unfold constants, unpack, pack, set_frictionLimiter, set_normalLimiter,
    set_accumulatedImpulse, set_accumulatedDisplacingImpulse.
  cbn. intros H. by simplify_eq.
Qed.

Lemma constants_lookup (joints joints0 : list ContactJoint) (j : nat) :
  constants <$> joints = constants <$> joints0 ->
  constants (joints !!! j) = constants (joints0 !!! j).
Proof.
  intros H. rewrite !list_lookup_total_alt.
  apply (f_equal (fun l => l !! j)) in H. rewrite !list_lookup_fmap in H.
  destruct (joints !! j), (joints0 !! j); simpl in *; congruence.
Qed.

Lemma constants_length (joints joints0 : list ContactJoint) :
  constants <$> joints = constants <$> joints0 -> length joints = length joints0.
Proof. intros H. apply (f_equal length) in H. by rewrite !length_fmap in H. Qed.

Lemma body_productive_skip (i last1 last2 : Z) :
  body_productive i last1 last2 = negb (skip_AoS i last1 last2).
Proof.
  unfold body_productive, skip_AoS.
  destruct (Z.ltb_spec (i - 2) last1), (Z.ltb_spec (i - 2) last2),
    (Z.ltb_spec last1 (i - 1)), (Z.ltb_spec last2 (i - 1)); simpl; lia.
Qed.

Lemma foldl_pointwise {A B : Type} (f g : A -> B -> A) (l : list B) :
  (forall a x, f a x = g a x) -> forall a, foldl f a l = foldl g a l.
Proof.
  intros H. induction l as [|x l IH]; intros a; simpl; [done|].
  by rewrite H, IH.
Qed.

Lemma for_batches_1 (body : nat -> SoA -> SoA * bool) (n : nat) (s : SoA) :
  for_batches body 1 0 n s = for_joints body 0 n s.
Proof.
  unfold for_batches, for_joints.
  replace ((n + 1 - 1) / 1) with n by (rewrite Nat.div_1_r; lia).
  apply foldl_pointwise. intros acc k. by rewrite Nat.mul_1_r.
Qed.

(** Two loops over the same joints, on related states, whose bodies
    keep the relation and agree on [productive]. *)
Lemma for_joints_sim {S T : Type} (R : S -> T -> Prop)
    (f : nat -> S -> S * bool) (g : nat -> T -> T * bool)
    (jointStart jointCount : nat) :
  (forall j s t, jointStart <= j < jointStart + jointCount -> R s t ->
     R (fst (f j s)) (fst (g j t)) /\ snd (f j s) = snd (g j t)) ->
  forall s t, R s t ->
    R (fst (for_joints f jointStart jointCount s))
      (fst (for_joints g jointStart jointCount t))
    /\ snd (for_joints f jointStart jointCount s)
       = snd (for_joints g jointStart jointCount t).
Proof.
  intros Hstep s t. unfold for_joints. generalize false.
  assert (Hin : forall j, j ∈ seq jointStart jointCount ->
                  jointStart <= j < jointStart + jointCount).
  { intros j Hj. apply elem_of_seq in Hj. lia. }
  revert Hin s t. generalize (seq jointStart jointCount). intros l.
  induction l as [|j l IH]; intros Hin s t b Hst; simpl; [done|].
  destruct (Hstep j s t) as [HR Hp]; [apply Hin; by left | done |].
  destruct (f j s) as [s' p], (g j t) as [t' p']. simpl in *. subst p'.
  apply IH; [|done]. intros k Hk. apply Hin. by right.
Qed.

End Simulation.

Section SimulationSteps.

Lemma well_formed_joint (joints0 : list ContactJoint) (s : AoS) (j : nat) :
  well_formed joints0 s -> j < length joints0 ->
  let joint := aos_joints s !!! j in
  body1Index joint <> body2Index joint
  /\ body1Index joint < length (aos_bodies s)
  /\ body2Index joint < length (aos_bodies s)
  /\ aos_joints s !! j = Some joint.
Proof.
  intros [Hc Hv] Hj joint.
  pose proof (constants_lookup _ _ j Hc) as Hcj. fold joint in Hcj.
  rewrite (constants_body1Index _ _ Hcj), (constants_body2Index _ _ Hcj).
  destruct (list_lookup_lookup_total_lt joints0 j Hj) as [].
  pose proof (proj1 (Forall_lookup _ _) Hv j _
                (list_lookup_lookup_total_lt joints0 j Hj)) as (H1 & H2 & H3).
  repeat split; try done.
  apply list_lookup_lookup_total_lt. by rewrite (constants_length _ _ Hc).
Qed.

Lemma insert2_views {A B : Type} (f : A -> B) (b1 b2 : nat) (x1 x2 : A)
    (l : list A) :
  f <$> <[b2 := x2]> (<[b1 := x1]> l) = <[b2 := f x2]> (<[b1 := f x1]> (f <$> l)).
Proof. by rewrite !list_fmap_insert. Qed.

Lemma insert2_same_views {A B : Type} `{Inhabited A} (f : A -> B) (b1 b2 : nat)
    (x1 x2 : A) (l : list A) :
  f x1 = f (l !!! b1) -> f x2 = f (l !!! b2) ->
  f <$> <[b2 := x2]> (<[b1 := x1]> l) = f <$> l.
Proof.
  intros H1 H2. rewrite insert2_views, H1, H2.
  apply list_eq. intros k.
  rewrite !list_lookup_insert, !length_insert, !length_fmap, !list_lookup_fmap.
  repeat case_decide; destruct_and?; subst; try done.
  - by rewrite (list_lookup_lookup_total_lt l k).
  - by rewrite (list_lookup_lookup_total_lt l k).
Qed.

Lemma impulse_on_bodies_joint (i : Z) (body1 body2 : RigidBody)
    (joint : ContactJoint) :
  let r := impulse_on_bodies i body1 body2 joint in
  constants (snd (fst r)) = constants joint
  /\ displacement_view (fst (fst (fst r))) = displacement_view body1
  /\ displacement_view (snd (fst (fst r))) = displacement_view body2.
Proof.
  unfold impulse_on_bodies. cbn [fst snd].
  set (nd := normalDeltaImpulse_AoS _ _ _). clearbody nd.
  set (fd := frictionDeltaImpulse_AoS _ _ _ _). clearbody fd.
  destruct (ltb kProductiveImpulse _); by destruct joint as [? ? [] []].
Qed.

Lemma displacement_on_bodies_joint (i : Z) (body1 body2 : RigidBody)
    (joint : ContactJoint) :
  let r := displacement_on_bodies i body1 body2 joint in
  constants (snd (fst r)) = constants joint
  /\ impulse_view (fst (fst (fst r))) = impulse_view body1
  /\ impulse_view (snd (fst (fst r))) = impulse_view body2.
Proof.
  unfold displacement_on_bodies. cbn [fst snd].
  set (dd := displacingDeltaImpulse_AoS _ _ _). clearbody dd.
  destruct (ltb kProductiveImpulse _); by destruct joint as [? ? [] []].
Qed.

Lemma well_formed_update (joints0 : list ContactJoint) (s : AoS) (j : nat)
    (body1 body2 : RigidBody) (joint' : ContactJoint) (b1 b2 : nat) :
  well_formed joints0 s ->
  constants joint' = constants (aos_joints s !!! j) ->
  aos_joints s !! j = Some (aos_joints s !!! j) ->
  well_formed joints0
    (mkAoS (<[b2 := body2]> (<[b1 := body1]> (aos_bodies s)))
       (<[j := joint']> (aos_joints s))).
Proof.
  intros [Hc Hv] Hj Hlook. split; simpl.
  - rewrite list_fmap_insert, Hj, <- list_fmap_insert.
    by rewrite list_insert_id.
  - by rewrite !length_insert.
Qed.

Lemma impulse_body_sim (joints0 : list ContactJoint)
    (displacement : list SolveBody.t) (i : Z) (j : nat) (s : AoS) (t : SoA) :
  j < length joints0 ->
  impulse_sim joints0 displacement s t ->
  impulse_sim joints0 displacement
    (fst (SolveJointsImpulsesAoS_body i j s))
    (fst (SolveJointsSoA_body SolveJointsImpulsesSoA_lane 1 i j t))
  /\ snd (SolveJointsImpulsesAoS_body i j s)
     = snd (SolveJointsSoA_body SolveJointsImpulsesSoA_lane 1 i j t).
Proof.
  intros Hj (Hwf & Hd & ->).
  destruct (well_formed_joint joints0 s j Hwf Hj) as (Hne & Hb1 & Hb2 & Hlook).
  rewrite SolveJointsSoA_body_1. unfold SolveJointsImpulsesAoS_body.
  cbn [soa_packed soa_bodies].
  assert (Hjs : j < length (aos_joints s)) by (by apply lookup_lt_Some in Hlook).
  rewrite (list_lookup_total_fmap pack) by done.
  set (joint := aos_joints s !!! j) in *.
  change (ContactJointPacked.body1Index (pack joint)) with (body1Index joint).
  change (ContactJointPacked.body2Index (pack joint)) with (body2Index joint).
  rewrite !(list_lookup_total_fmap impulse_view) by done.
  change (SolveBody.lastIteration (impulse_view ?b)) with (lastIteration b).
  rewrite body_productive_skip.
  destruct (skip_AoS _ _ _); cbn [negb fst snd];
    [split; [exact (conj Hwf (conj Hd eq_refl)) | reflexivity]|].
  rewrite impulse_joint_unaliased by done. fold joint.
  unfold scatter_lane. cbn [soa_packed soa_bodies].
  rewrite (list_lookup_total_fmap pack) by done. fold joint.
  change (ContactJointPacked.body1Index (pack joint)) with (body1Index joint).
  change (ContactJointPacked.body2Index (pack joint)) with (body2Index joint).
  rewrite !(list_lookup_total_fmap impulse_view) by done.
  rewrite impulse_lane_agrees.
  pose proof (impulse_on_bodies_joint i (aos_bodies s !!! body1Index joint)
                (aos_bodies s !!! body2Index joint) joint) as (Hc & Hd1 & Hd2).
  destruct (impulse_on_bodies _ _ _ _) as [[[body1' body2'] joint'] productive].
  cbn [fst snd] in *.
  change (ContactJointPacked.body1Index (pack joint')) with (body1Index joint').
  change (ContactJointPacked.body2Index (pack joint')) with (body2Index joint').
  rewrite (constants_body1Index _ _ Hc), (constants_body2Index _ _ Hc).
  split; [|done]. split; [by apply well_formed_update|]. split.
  - cbn [aos_bodies]. rewrite <- Hd. by apply insert2_same_views.
  - cbn [aos_bodies aos_joints]. by rewrite insert2_views, list_fmap_insert.
Qed.

Lemma body_productive_skip_displacement (i last1 last2 : Z) :
  body_productive i last1 last2 = negb (skip_displacement_AoS i last1 last2).
Proof. apply body_productive_skip. Qed.

Lemma displacement_body_sim (joints0 : list ContactJoint)
    (impulse : list SolveBody.t) (i : Z) (j : nat) (s : AoS) (t : SoA) :
  j < length joints0 ->
  displacement_sim joints0 impulse s t ->
  displacement_sim joints0 impulse
    (fst (SolveJointsDisplacementAoS_body i j s))
    (fst (SolveJointsSoA_body SolveJointsDisplacementSoA_lane 1 i j t))
  /\ snd (SolveJointsDisplacementAoS_body i j s)
     = snd (SolveJointsSoA_body SolveJointsDisplacementSoA_lane 1 i j t).
Proof.
  intros Hj (Hwf & Hd & ->).
  destruct (well_formed_joint joints0 s j Hwf Hj) as (Hne & Hb1 & Hb2 & Hlook).
  rewrite SolveJointsSoA_body_1. unfold SolveJointsDisplacementAoS_body.
  cbn [soa_packed soa_bodies].
  assert (Hjs : j < length (aos_joints s)) by (by apply lookup_lt_Some in Hlook).
  rewrite (list_lookup_total_fmap pack) by done.
  set (joint := aos_joints s !!! j) in *.
  change (ContactJointPacked.body1Index (pack joint)) with (body1Index joint).
  change (ContactJointPacked.body2Index (pack joint)) with (body2Index joint).
  rewrite !(list_lookup_total_fmap displacement_view) by done.
  change (SolveBody.lastIteration (displacement_view ?b))
    with (lastDisplacementIteration b).
  rewrite body_productive_skip_displacement.
  destruct (skip_displacement_AoS _ _ _); cbn [negb fst snd];
    [split; [exact (conj Hwf (conj Hd eq_refl)) | reflexivity]|].
  rewrite displacement_joint_unaliased by done. fold joint.
  unfold scatter_lane. cbn [soa_packed soa_bodies].
  rewrite (list_lookup_total_fmap pack) by done. fold joint.
  change (ContactJointPacked.body1Index (pack joint)) with (body1Index joint).
  change (ContactJointPacked.body2Index (pack joint)) with (body2Index joint).
  rewrite !(list_lookup_total_fmap displacement_view) by done.
  rewrite displacement_lane_agrees.
  pose proof (displacement_on_bodies_joint i (aos_bodies s !!! body1Index joint)
                (aos_bodies s !!! body2Index joint) joint) as (Hc & Hd1 & Hd2).
  destruct (displacement_on_bodies _ _ _ _)
    as [[[body1' body2'] joint'] productive].
  cbn [fst snd] in *.
  change (ContactJointPacked.body1Index (pack joint')) with (body1Index joint').
  change (ContactJointPacked.body2Index (pack joint')) with (body2Index joint').
  rewrite (constants_body1Index _ _ Hc), (constants_body2Index _ _ Hc).
  split; [|done]. split; [by apply well_formed_update|]. split.
  - cbn [aos_bodies]. rewrite <- Hd. by apply insert2_same_views.
  - cbn [aos_bodies aos_joints]. by rewrite insert2_views, list_fmap_insert.
Qed.

End SimulationSteps.

(** ** Loops that fill or update an array index by index *)

Section ArrayLoops.

Context {A : Type}.

Lemma foldl_pointwise_in {B : Type} (f g : A -> B -> A) (l : list B) :
  (forall a x, x ∈ l -> f a x = g a x) -> forall a, foldl f a l = foldl g a l.
Proof.
  induction l as [|x l IH]; intros H a; simpl; [done|].
  rewrite H by by left. apply IH. intros a' y Hy. apply H. by right.
Qed.

(** [for (i = 0; i < n; ++i) a[i] = g(i);] on an array of [n] entries *)
Lemma foldl_insert_seq (g : nat -> A) (n : nat) (a : list A) :
  length a = n ->
  foldl (fun a i => <[i := g i]> a) a (seq 0 n) = g <$> seq 0 n.
Proof.
  intros Hlen.
  assert (H : forall m, m <= n ->
            foldl (fun a i => <[i := g i]> a) a (seq 0 m)
            = (g <$> seq 0 m) ++ drop m a).
  { induction m as [|m IH]; intros Hm; [done|].
    rewrite seq_S, foldl_app, IH by lia. simpl.
    rewrite insert_app_r_alt by (rewrite length_fmap, length_seq; lia).
    rewrite length_fmap, length_seq, Nat.sub_diag.
    destruct (drop m a) as [|d rest] eqn:Hd.
    { apply (f_equal length) in Hd. rewrite length_drop in Hd.
      simpl in Hd. lia. }
    simpl. rewrite fmap_app, <- app_assoc. simpl. do 2 f_equal.
    rewrite <- Nat.add_1_r, <- drop_drop, Hd. done. }
  rewrite H by lia. rewrite drop_ge by lia. by rewrite app_nil_r.
Qed.

(** [for (i = 0; i < n; ++i) a[i] = f(i, a[i]);] *)
Lemma foldl_alter_seq_lookup (f : nat -> A -> A) (n : nat) (a : list A) (k : nat) :
  foldl (fun a i => alter (f i) i a) a (seq 0 n) !! k
  = if decide (k < n) then f k <$> a !! k else a !! k.
Proof.
  induction n as [|n IH]; [done|].
  rewrite seq_S, foldl_app. simpl. rewrite list_lookup_alter.
  destruct (decide (n = k)) as [->|Hne]; rewrite IH;
    repeat (case_decide; try lia); done.
Qed.

Lemma foldl_alter_const_seq (f : A -> A) (a : list A) :
  foldl (fun a i => alter f i a) a (seq 0 (length a)) = f <$> a.
Proof.
  apply list_eq. intros k.
  rewrite (foldl_alter_seq_lookup (fun _ => f)), list_lookup_fmap.
  case_decide; [done|].
  rewrite (proj2 (lookup_ge_None a k)) by lia. done.
Qed.

Lemma fmap_lookup_total_seq `{Inhabited A} {B : Type} (h : A -> B) (a : list A) :
  (fun i => h (a !!! i)) <$> seq 0 (length a) = h <$> a.
Proof.
  apply list_eq. intros k. rewrite !list_lookup_fmap.
  destruct (decide (k < length a)) as [Hk|Hk].
  - rewrite lookup_seq_lt by done. simpl.
    by rewrite (list_lookup_lookup_total_lt a k Hk).
  - rewrite lookup_seq_ge by lia. simpl.
    by rewrite (proj2 (lookup_ge_None a k)) by lia.
Qed.

Lemma length_resize `{Inhabited A} (n : nat) (a : list A) :
  length (resize n a) = n.
Proof.
  unfold resize. rewrite length_app, length_take, length_replicate. lia.
Qed.

End ArrayLoops.

Lemma lookup_total_seq_0 (n i : nat) : i < n -> seq 0 n !!! i = i.
Proof.
  intros Hi. apply list_lookup_total_correct. by rewrite lookup_seq_lt.
Qed.

Section LoopSimulation.

Lemma iterate_sim {S T : Type} (R : S -> T -> Prop)
    (passS : Z -> S -> S * bool) (passT : Z -> T -> T * bool) :
  (forall i s t, R s t ->
     R (fst (passS i s)) (fst (passT i t)) /\ snd (passS i s) = snd (passT i t)) ->
  forall n i s t, R s t ->
    R (loop_state (iterate passS n i s)) (loop_state (iterate passT n i t))
    /\ loop_passes (iterate passS n i s) = loop_passes (iterate passT n i t)
    /\ loop_broke (iterate passS n i s) = loop_broke (iterate passT n i t).
Proof.
  intros Hpass. induction n as [|n IH]; intros i s t Hst; simpl; [done|].
  destruct (Hpass i s t Hst) as [HR Hp].
  destruct (passS i s) as [s' p], (passT i t) as [t' p']. simpl in *. subst p'.
  destruct p; simpl; [|done].
  destruct (IH (i + 1)%Z s' t' HR) as (H1 & H2 & H3). by rewrite H2.
Qed.

End LoopSimulation.

(** ** The drivers: prepare, passes, finish *)

Section DriverSimulation.

Lemma impulse_pass_sim (joints0 : list ContactJoint) (gr : Groups) (i : Z)
    (s : AoS) (st : SoAState) :
  solver_sim joints0 gr s st ->
  solver_sim joints0 gr
    (fst (SolveJointsImpulsesAoS 0 (length joints0) i s))
    (fst (on_impulse (SolveJointsImpulsesSoA 1 0 (length joints0) i) st))
  /\ snd (SolveJointsImpulsesAoS 0 (length joints0) i s)
     = snd (on_impulse (SolveJointsImpulsesSoA 1 0 (length joints0) i) st).
Proof.
  intros [Hwf ->]. unfold on_impulse, SolveJointsImpulsesSoA, SolveJointsImpulsesAoS.
  cbn [solveBodiesImpulse solveBodiesDisplacement contactJoints groups].
  rewrite for_batches_1.
  destruct (for_joints_sim
              (impulse_sim joints0 (displacement_view <$> aos_bodies s))
              (SolveJointsImpulsesAoS_body i)
              (SolveJointsSoA_body SolveJointsImpulsesSoA_lane 1 i)
              0 (length joints0)
              (fun j s t Hj => impulse_body_sim joints0 _ i j s t (proj2 Hj))
              s (mkSoA (impulse_view <$> aos_bodies s) (pack <$> aos_joints s))
              (conj Hwf (conj eq_refl eq_refl)))
    as [(Hwf' & Hd & Ht) Hp].
  destruct (for_joints (SolveJointsImpulsesAoS_body i) _ _ _) as [s' p].
  destruct (for_joints (SolveJointsSoA_body _ _ _) _ _ _) as [t' p'].
  cbn [fst snd] in *. subst t' p'. cbn [soa_bodies soa_packed].
  rewrite <- Hd. exact (conj (conj Hwf' eq_refl) eq_refl).
Qed.

Lemma displacement_pass_sim (joints0 : list ContactJoint) (gr : Groups) (i : Z)
    (s : AoS) (st : SoAState) :
  solver_sim joints0 gr s st ->
  solver_sim joints0 gr
    (fst (SolveJointsDisplacementAoS 0 (length joints0) i s))
    (fst (on_displacement (SolveJointsDisplacementSoA 1 0 (length joints0) i) st))
  /\ snd (SolveJointsDisplacementAoS 0 (length joints0) i s)
     = snd (on_displacement (SolveJointsDisplacementSoA 1 0 (length joints0) i) st).
Proof.
  intros [Hwf ->].
  unfold on_displacement, SolveJointsDisplacementSoA, SolveJointsDisplacementAoS.
  cbn [solveBodiesImpulse solveBodiesDisplacement contactJoints groups].
  rewrite for_batches_1.
  destruct (for_joints_sim
              (displacement_sim joints0 (impulse_view <$> aos_bodies s))
              (SolveJointsDisplacementAoS_body i)
              (SolveJointsSoA_body SolveJointsDisplacementSoA_lane 1 i)
              0 (length joints0)
              (fun j s t Hj => displacement_body_sim joints0 _ i j s t (proj2 Hj))
              s (mkSoA (displacement_view <$> aos_bodies s) (pack <$> aos_joints s))
              (conj Hwf (conj eq_refl eq_refl)))
    as [(Hwf' & Hd & Ht) Hp].
  destruct (for_joints (SolveJointsDisplacementAoS_body i) _ _ _) as [s' p].
  destruct (for_joints (SolveJointsSoA_body _ _ _) _ _ _) as [t' p'].
  cbn [fst snd] in *. subst t' p'. cbn [soa_bodies soa_packed].
  rewrite <- Hd. exact (conj (conj Hwf' eq_refl) eq_refl).
Qed.

(** [SolvePrepareAoS] on the whole body array resets both iteration
    marks of every body. *)
Lemma SolvePrepareAoS_all (bodies : list RigidBody) :
  SolvePrepareAoS bodies (length bodies)
  = (fun b => set_lastDisplacementIteration (-1) (set_lastIteration (-1) b))
      <$> bodies.
Proof. unfold SolvePrepareAoS. apply foldl_alter_const_seq. Qed.

(** [SolvePrepareSoA] with a group size of 1 on the whole body array:
    the channels are the views of the bodies that [SolvePrepareAoS]
    leaves and the joints are packed in their own order. *)
Lemma SolvePrepareSoA_scalar (solver : Solver)
    (joint_packed : list ContactJointPacked.t) (bodies : list RigidBody) :
  exists gr,
    SolvePrepareSoA solver joint_packed bodies (length bodies) 1
    = Some (length (contactJoints solver),
            mkSolver (contactJoints solver)
              (impulse_view <$> SolvePrepareAoS bodies (length bodies))
              (displacement_view <$> SolvePrepareAoS bodies (length bodies))
              gr,
            pack <$> contactJoints solver)
    /\ joint_index gr = seq 0 (length (contactJoints solver)).
Proof.
  exists (mkGroups (jointGroup_bodies (groups solver))
            (jointGroup_joints (groups solver))
            (seq 0 (length (contactJoints solver)))).
  split; [|reflexivity].
  unfold SolvePrepareSoA, SolvePrepareIndicesSoA, SolvePrepareIndicesSoA_fuel.
  cbn [Nat.eqb joint_index jointGroup_bodies jointGroup_joints].
  rewrite fill_identity_spec by apply length_resize.
  cbn [joint_index].
  rewrite (foldl_pointwise_in _
             (fun (a : list ContactJointPacked.t) i =>
                <[i := pack (contactJoints solver !!! i)]> a)).
  2:{ intros a i Hi. apply elem_of_seq in Hi.
      rewrite lookup_total_seq_0 by lia. done. }
  rewrite !foldl_insert_seq by apply length_resize.
  rewrite (fmap_lookup_total_seq pack).
  rewrite (fmap_lookup_total_seq
             (fun b => SolveBody.mk (velocity b) (angularVelocity b) (-1))).
  rewrite (fmap_lookup_total_seq
             (fun b => SolveBody.mk (displacingVelocity b)
                         (displacingAngularVelocity b) (-1))).
  rewrite SolvePrepareAoS_all, <- !list_fmap_compose. reflexivity.
Qed.

Lemma foldl_lookup_total_seq {A B : Type} `{Inhabited A} (g : B -> A -> B)
    (l : list A) (b : B) :
  foldl (fun b i => g b (l !!! i)) b (seq 0 (length l)) = foldl g b l.
Proof.
  transitivity (foldl g b ((fun i => l !!! i) <$> seq 0 (length l))).
  - generalize (seq 0 (length l)). intros ks. revert b.
    induction ks as [|i ks IH]; intros b; simpl; [done|]. apply IH.
  - f_equal. etransitivity; [exact (fmap_lookup_total_seq id l)|].
    apply list_fmap_id.
Qed.

(** [SolveFinishSoA] on a state that stands for an AoS state: the
    bodies get the velocities of the AoS bodies, the joints become the
    AoS joints, the average is that of [SolveFinishAoS]. *)
Lemma SolveFinishSoA_sim (joints0 : list ContactJoint) (gr : Groups)
    (s : AoS) (st : SoAState) (bodies : list RigidBody) :
  solver_sim joints0 gr s st ->
  joint_index gr = seq 0 (length joints0) ->
  length (aos_bodies s) = length bodies ->
  let r := SolveFinishSoA (fst st) (snd st) bodies (length bodies) in
  velocity <$> fst (fst r) = velocity <$> aos_bodies s
  /\ angularVelocity <$> fst (fst r) = angularVelocity <$> aos_bodies s
  /\ displacingVelocity <$> fst (fst r) = displacingVelocity <$> aos_bodies s
  /\ displacingAngularVelocity <$> fst (fst r)
     = displacingAngularVelocity <$> aos_bodies s
  /\ contactJoints (snd (fst r)) = aos_joints s
  /\ snd r = SolveFinishAoS s.
Proof.
  intros [Hwf ->] Hgr Hlen. pose proof Hwf as [Hc Hv].
  pose proof (constants_length _ _ Hc) as Hjs.
  unfold SolveFinishSoA.
  cbn [fst snd solveBodiesImpulse solveBodiesDisplacement contactJoints groups].
  assert (Hproj : forall {B : Type} (h : RigidBody -> B),
            (forall v a dv da l1 l2 b,
               h (mkRigidBody v a dv da l1 l2)
               = h (mkRigidBody v a dv da (lastIteration b)
                      (lastDisplacementIteration b))) ->
            h <$> foldl (fun (bodies : list RigidBody) i =>
                alter (fun b =>
                  mkRigidBody
                    (SolveBody.velocity ((impulse_view <$> aos_bodies s) !!! i))
                    (SolveBody.angularVelocity ((impulse_view <$> aos_bodies s) !!! i))
                    (SolveBody.velocity ((displacement_view <$> aos_bodies s) !!! i))
                    (SolveBody.angularVelocity
                       ((displacement_view <$> aos_bodies s) !!! i))
                    (lastIteration b) (lastDisplacementIteration b))
                  i bodies) bodies (seq 0 (length bodies))
            = h <$> aos_bodies s).
  { intros B h Hh. apply list_eq. intros k.
    rewrite !list_lookup_fmap, foldl_alter_seq_lookup.
    destruct (decide (k < length bodies)) as [Hk|Hk].
    - destruct (lookup_lt_is_Some_2 bodies k Hk) as [b Hb].
      assert (Hk' : k < length (aos_bodies s)) by lia.
      destruct (lookup_lt_is_Some_2 _ k Hk') as [b' Hb'].
      rewrite Hb, Hb'. cbn [fmap option_fmap option_map]. f_equal.
      rewrite !(list_lookup_total_fmap impulse_view) by done.
      rewrite !(list_lookup_total_fmap displacement_view) by done.
      rewrite (list_lookup_total_correct _ _ _ Hb').
      destruct b' as [v a dv da l1 l2]. cbn. symmetry. apply Hh.
    - rewrite !(proj2 (lookup_ge_None _ k)) by lia. done. }
  split; [apply (Hproj _ velocity); done|].
  split; [apply (Hproj _ angularVelocity); done|].
  split; [apply (Hproj _ displacingVelocity); done|].
  split; [apply (Hproj _ displacingAngularVelocity); done|].
  split.
  - rewrite (foldl_pointwise_in _
               (fun joints i =>
                  alter (unpack ((pack <$> aos_joints s) !!! i)) i joints)).
    2:{ intros a i Hi. apply elem_of_seq in Hi. rewrite Hgr.
        rewrite lookup_total_seq_0 by lia. done. }
    apply list_eq. intros k.
    rewrite (foldl_alter_seq_lookup
               (fun i => unpack ((pack <$> aos_joints s) !!! i))).
    destruct (decide (k < length joints0)) as [Hk|Hk].
    + rewrite (list_lookup_lookup_total_lt joints0 k Hk).
      rewrite (list_lookup_lookup_total_lt (aos_joints s) k) by lia.
      cbn [fmap option_fmap option_map]. f_equal.
      rewrite (list_lookup_total_fmap pack) by lia.
      apply unpack_pack. by apply constants_lookup.
    + rewrite !(proj2 (lookup_ge_None _ k)) by lia. done.
  - unfold SolveFinishAoS. rewrite <- Hjs. f_equal. f_equal.
    rewrite <- (foldl_lookup_total_seq _ (aos_joints s)).
    apply foldl_pointwise_in. intros a j Hj. apply elem_of_seq in Hj.
    destruct (well_formed_joint joints0 s j Hwf ltac:(lia))
      as (_ & Hb1 & Hb2 & _).
    rewrite (list_lookup_total_fmap pack) by lia.
    change (ContactJointPacked.body1Index (pack ?x)) with (body1Index x).
    change (ContactJointPacked.body2Index (pack ?x)) with (body2Index x).
    rewrite !(list_lookup_total_fmap impulse_view) by done.
    rewrite !(list_lookup_total_fmap displacement_view) by done.
    done.
Qed.

Lemma iterate_length_bodies (pass : Z -> AoS -> AoS * bool) :
  (forall i s, length (aos_bodies (fst (pass i s))) = length (aos_bodies s)) ->
  forall n i s,
    length (aos_bodies (loop_state (iterate pass n i s))) = length (aos_bodies s).
Proof.
  intros Hpass. induction n as [|n IH]; intros i s; simpl; [done|].
  pose proof (Hpass i s) as Hl. destruct (pass i s) as [s' p]. simpl in Hl.
  destruct p; simpl; [|done]. by rewrite IH.
Qed.

Lemma for_joints_length_bodies (body : nat -> AoS -> AoS * bool) :
  (forall j s, length (aos_bodies (fst (body j s))) = length (aos_bodies s)) ->
  forall jointStart jointCount s,
    length (aos_bodies (fst (for_joints body jointStart jointCount s)))
    = length (aos_bodies s).
Proof.
  intros Hbody jointStart jointCount s. unfold for_joints. generalize false.
  revert s. generalize (seq jointStart jointCount). intros l.
  induction l as [|j l IH]; intros s b; simpl; [done|].
  pose proof (Hbody j s) as Hl. destruct (body j s) as [s' p]. simpl in Hl.
  by rewrite IH.
Qed.

Lemma impulse_pass_length (jointStart jointCount : nat) (i : Z) (s : AoS) :
  length (aos_bodies (fst (SolveJointsImpulsesAoS jointStart jointCount i s)))
  = length (aos_bodies s).
Proof.
  apply for_joints_length_bodies. clear. intros j s.
  unfold SolveJointsImpulsesAoS_body.
  destruct (skip_AoS _ _ _); [done|].
  unfold SolveJointsImpulsesAoS_joint.
  destruct (ltb kProductiveImpulse _); cbn [fst aos_bodies];
    by rewrite !length_alter.
Qed.

Lemma displacement_pass_length (jointStart jointCount : nat) (i : Z) (s : AoS) :
  length (aos_bodies (fst (SolveJointsDisplacementAoS jointStart jointCount i s)))
  = length (aos_bodies s).
Proof.
  apply for_joints_length_bodies. clear. intros j s.
  unfold SolveJointsDisplacementAoS_body.
  destruct (skip_displacement_AoS _ _ _); [done|].
  unfold SolveJointsDisplacementAoS_joint.
  destruct (ltb kProductiveImpulse _); cbn [fst aos_bodies];
    by rewrite !length_alter.
Qed.

End DriverSimulation.

(** ** The scalar SoA driver against the AoS driver *)

(** C1.  Cross-backend equivalence, on exact arithmetic: when every
    joint ties two different bodies of the body array, the scalar SoA
    driver returns, and it leaves the same velocities, angular
    velocities, displacing velocities and displacing angular velocities
    in the bodies, the same joints (hence the same accumulators) and
    the same average as the AoS driver on the same bodies, joints and
    budgets.  The clamp written with [max] and the friction cap written
    with [flipsign] and [select] are shown equal to the branches of the
    AoS kernel on the way. *)
Theorem backends_agree (solver : Solver)
    (joint_packed4 : list ContactJointPacked.t) (bodies : list RigidBody)
    (contactIterationsCount penetrationIterationsCount : nat) :
  Forall (fun joint =>
            body1Index joint <> body2Index joint
            /\ body1Index joint < length bodies
            /\ body2Index joint < length bodies) (contactJoints solver) ->
  let aos :=
    SolveJointsAoS (contactJoints solver) bodies (length bodies)
      contactIterationsCount penetrationIterationsCount in
  exists (bodies' : list RigidBody) (solver' : Solver),
    SolveJointsSoA_Scalar solver joint_packed4 bodies (length bodies)
      contactIterationsCount penetrationIterationsCount
    = Some (bodies', solver', snd aos)
    /\ velocity <$> bodies' = velocity <$> aos_bodies (fst aos)
    /\ angularVelocity <$> bodies' = angularVelocity <$> aos_bodies (fst aos)
    /\ displacingVelocity <$> bodies'
       = displacingVelocity <$> aos_bodies (fst aos)
    /\ displacingAngularVelocity <$> bodies'
       = displacingAngularVelocity <$> aos_bodies (fst aos)
    /\ contactJoints solver' = aos_joints (fst aos).
Proof.
  intros Hv aos.
  destruct (SolvePrepareSoA_scalar solver joint_packed4 bodies)
    as (gr & Hprep & Hgr).
  unfold SolveJointsSoA_Scalar. rewrite Hprep. cbn [contactJoints].
  subst aos. unfold SolveJointsAoS, solve, impulse_loop, displacement_loop.
  set (joints := contactJoints solver) in *.
  set (s0 := mkAoS (SolvePrepareAoS bodies (length bodies)) joints).
  assert (Hlen0 : length (aos_bodies s0) = length bodies).
  { unfold s0. cbn [aos_bodies]. by rewrite SolvePrepareAoS_all, length_fmap. }
  assert (H0 : solver_sim joints gr s0
                 (mkSolver joints
                    (impulse_view <$> SolvePrepareAoS bodies (length bodies))
                    (displacement_view <$> SolvePrepareAoS bodies (length bodies))
                    gr,
                  pack <$> joints)).
  { split; [|reflexivity]. split; [reflexivity|]. by rewrite Hlen0. }
  destruct (iterate_sim (solver_sim joints gr)
              (SolveJointsImpulsesAoS 0 (length joints))
              (fun i => on_impulse (SolveJointsImpulsesSoA 1 0 (length joints) i))
              (impulse_pass_sim joints gr)
              contactIterationsCount 0%Z _ _ H0) as (H1 & _ & _).
  destruct (iterate_sim (solver_sim joints gr)
              (SolveJointsDisplacementAoS 0 (length joints))
              (fun i => on_displacement
                          (SolveJointsDisplacementSoA 1 0 (length joints) i))
              (displacement_pass_sim joints gr)
              penetrationIterationsCount 0%Z _ _ H1) as (H2 & _ & _).
  match type of H2 with solver_sim _ _ ?s ?st =>
    set (s2 := s) in *; set (st2 := st) in * end.
  assert (Hlen2 : length (aos_bodies s2) = length bodies).
  { unfold s2.
    rewrite (iterate_length_bodies _
               (displacement_pass_length 0 (length joints))).
    rewrite (iterate_length_bodies _ (impulse_pass_length 0 (length joints))).
    exact Hlen0. }
  pose proof (SolveFinishSoA_sim joints gr s2 st2 bodies H2 Hgr Hlen2) as Hfin.
  cbv zeta in Hfin. cbn [fst snd].
  destruct (SolveFinishSoA (fst st2) (snd st2) bodies (length bodies))
    as [[bodies' solver'] avg].
  cbn [fst snd] in Hfin. destruct Hfin as (Hf1 & Hf2 & Hf3 & Hf4 & Hf5 & Hf6).
  exists bodies', solver'. rewrite Hf6.
  exact (conj eq_refl (conj Hf1 (conj Hf2 (conj Hf3 (conj Hf4 Hf5))))).
Qed.

Lemma backends_agree_witness :
  exists (bodies' : list RigidBody) (solver' : Solver),
    SolveJointsSoA_Scalar (empty_solver [resting_joint]) [] [still; still] 2 5 5
    = Some (bodies', solver',
            snd (SolveJointsAoS [resting_joint] [still; still] 2 5 5))
    /\ velocity <$> bodies'
       = velocity
         <$> aos_bodies (fst (SolveJointsAoS [resting_joint] [still; still] 2 5 5))
    /\ angularVelocity <$> bodies'
       = angularVelocity
         <$> aos_bodies (fst (SolveJointsAoS [resting_joint] [still; still] 2 5 5))
    /\ displacingVelocity <$> bodies'
       = displacingVelocity
         <$> aos_bodies (fst (SolveJointsAoS [resting_joint] [still; still] 2 5 5))
    /\ displacingAngularVelocity <$> bodies'
       = displacingAngularVelocity
         <$> aos_bodies (fst (SolveJointsAoS [resting_joint] [still; still] 2 5 5))
    /\ contactJoints solver'
       = aos_joints (fst (SolveJointsAoS [resting_joint] [still; still] 2 5 5)).
Proof.
  apply (backends_agree (empty_solver [resting_joint]) [] [still; still] 5 5).
  repeat constructor; simpl; lia.
Defined.

(** Without the hypothesis that the two bodies of a joint differ the
    backends part: on [self_joint] the AoS kernel adds both impulses to
    the one body it points at twice, the SoA kernel stores its second
    copy over the first. *)
Lemma self_joint_backends_differ :
  velocities_x (aos_bodies (fst (SolveJointsAoS [self_joint] [still] 1 1 0)))
  = [of_Z 11]
  /\ (fun r => velocities_x (fst (fst r)))
     <$> SolveJointsSoA_Scalar (empty_solver [self_joint]) [] [still] 1 1 0
     = Some [of_Z 10]
  /\ of_Z 11 <> of_Z 10.
Proof.
  split; [|split].
  - vm_compute. by do 2 f_equal.
  - vm_compute. by do 3 f_equal.
  - intros H. apply (f_equal this) in H. vm_compute in H. discriminate.
Qed.

(** ** Loops of one joint *)

(** A loop over one joint is one run of its body. *)
Lemma for_joints_single {S : Type} (body : nat -> S -> S * bool) (s : S) :
  for_joints body 0 1 s = body 0%nat s.
Proof.
  unfold for_joints. cbn [seq foldl fst snd]. by destruct (body 0%nat s).
Qed.

(** ** What the SoA kernels keep: lane indices and tag ranges *)

Section LaneFrames.

Import ContactJointPacked.

Lemma impulse_lane_frame : lane_frame SolveJointsImpulsesSoA_lane.
Proof.
  intros i body1 body2 jointP. unfold SolveJointsImpulsesSoA_lane. cbv zeta.
  cbn [fst snd]. unfold select_lastIteration, simd.select.
  set (productive := ltb kProductiveImpulse _). clearbody productive.
  cbn [SolveBody.lastIteration add_impulse].
  split; [reflexivity|]. split; [reflexivity|].
  destruct productive; [split; by right|split; by left].
Qed.

Lemma displacement_lane_frame : lane_frame SolveJointsDisplacementSoA_lane.
Proof.
  intros i body1 body2 jointP. unfold SolveJointsDisplacementSoA_lane. cbv zeta.
  cbn [fst snd]. unfold select_lastIteration, simd.select.
  set (productive := ltb kProductiveImpulse _). clearbody productive.
  cbn [SolveBody.lastIteration add_impulse].
  split; [reflexivity|]. split; [reflexivity|].
  destruct productive; [split; by right|split; by left].
Qed.

Lemma impulse_FMA_lane_frame : lane_frame SolveJointsImpulsesSoA_FMA_lane.
Proof.
  intros i body1 body2 jointP. unfold SolveJointsImpulsesSoA_FMA_lane. cbv zeta.
  cbn [fst snd]. unfold blendv_lastIteration, avx.blendv.
  set (productive := avx.cmp_gt _ kProductiveImpulse). clearbody productive.
  cbn [SolveBody.lastIteration fmadd_impulse].
  split; [reflexivity|]. split; [reflexivity|].
  destruct productive; [split; by right|split; by left].
Qed.

Lemma displacement_FMA_lane_frame : lane_frame SolveJointsDisplacementSoA_FMA_lane.
Proof.
  intros i body1 body2 jointP. unfold SolveJointsDisplacementSoA_FMA_lane.
  cbv zeta. cbn [fst snd]. unfold blendv_lastIteration, avx.blendv.
  set (productive := avx.cmp_gt _ kProductiveImpulse). clearbody productive.
  cbn [SolveBody.lastIteration fmadd_impulse].
  split; [reflexivity|]. split; [reflexivity|].
  destruct productive; [split; by right|split; by left].
Qed.

End LaneFrames.

Section ChannelFrames.

Import ContactJointPacked.

Lemma lookup_total_insert {A : Type} `{Inhabited A} (l : list A) (i k : nat)
    (v : A) :
  (<[i := v]> l) !!! k
  = if decide (i = k /\ i < length l) then v else l !!! k.
Proof.
  case_decide as Hc.
  - destruct Hc as [-> Hk]. by rewrite list_lookup_total_insert_eq.
  - destruct (decide (i = k)) as [->|Hne].
    + by rewrite list_insert_ge by lia.
    + by rewrite list_lookup_total_insert_ne.
Qed.

Lemma same_indices_insert (packed packed0 : list ContactJointPacked.t)
    (i : nat) (jointP : ContactJointPacked.t) :
  same_indices packed packed0 ->
  body1Index jointP = body1Index (packed0 !!! i) ->
  body2Index jointP = body2Index (packed0 !!! i) ->
  same_indices (<[i := jointP]> packed) packed0.
Proof.
  intros Hs H1 H2 k. rewrite lookup_total_insert.
  case_decide as Hc; [|apply Hs]. by destruct Hc as [-> _].
Qed.

Lemma store_lanes_indices (packed0 packed : list ContactJointPacked.t)
    (computed : list (nat * (SolveBody.t * SolveBody.t * ContactJointPacked.t * bool))) :
  same_indices packed packed0 ->
  Forall (fun c => body1Index (snd (fst (snd c))) = body1Index (packed0 !!! fst c)
                   /\ body2Index (snd (fst (snd c)))
                      = body2Index (packed0 !!! fst c)) computed ->
  same_indices
    (foldl (fun packed '(i, (_, _, jointP, _)) => <[i := jointP]> packed)
       packed computed) packed0.
Proof.
  revert packed. induction computed as [|[k [[[b1 b2] jointP] p]] computed IH];
    intros packed Hp Hc; simpl; [done|].
  apply Forall_cons in Hc as [[Hk1 Hk2] Hc]. simpl in Hk1, Hk2.
  apply IH; [|done]. by apply same_indices_insert.
Qed.

Lemma Forall_insert_in {A : Type} (Q : A -> Prop) (l : list A) (i : nat) (v : A) :
  Forall Q l -> (i < length l -> Q v) -> Forall Q (<[i := v]> l).
Proof.
  intros Hl Hv. destruct (decide (i < length l)) as [Hi|Hi].
  - apply Forall_insert; auto.
  - by rewrite list_insert_ge by lia.
Qed.

(** The scatter of the first bodies, of the second bodies, and of both
    in turn, keeps a property of the bodies that each stored body
    has. *)
Lemma scatter1_Forall (Q : SolveBody.t -> Prop) (bodies : list SolveBody.t)
    (computed : list (nat * (SolveBody.t * SolveBody.t * ContactJointPacked.t * bool))) :
  Forall Q bodies ->
  Forall (fun c => body1Index (snd (fst (snd c))) < length bodies ->
                   Q (fst (fst (fst (snd c))))) computed ->
  Forall Q
    (foldl (fun bodies '(_, (body1, _, jointP, _)) =>
              <[body1Index jointP := body1]> bodies) bodies computed)
  /\ length (foldl (fun bodies '(_, (body1, _, jointP, _)) =>
                      <[body1Index jointP := body1]> bodies) bodies computed)
     = length bodies.
Proof.
  revert bodies. induction computed as [|[k [[[b1 b2] jointP] p]] computed IH];
    intros bodies Hb Hc; simpl; [done|].
  apply Forall_cons in Hc as [Hk Hc]. simpl in Hk.
  destruct (IH (<[body1Index jointP := b1]> bodies)) as [G1 G2].
  - by apply Forall_insert_in.
  - by rewrite length_insert.
  - split; [exact G1|]. by rewrite G2, length_insert.
Qed.

Lemma scatter2_Forall (Q : SolveBody.t -> Prop) (bodies : list SolveBody.t)
    (computed : list (nat * (SolveBody.t * SolveBody.t * ContactJointPacked.t * bool))) :
  Forall Q bodies ->
  Forall (fun c => body2Index (snd (fst (snd c))) < length bodies ->
                   Q (snd (fst (fst (snd c))))) computed ->
  Forall Q
    (foldl (fun bodies '(_, (_, body2, jointP, _)) =>
              <[body2Index jointP := body2]> bodies) bodies computed).
Proof.
  revert bodies. induction computed as [|[k [[[b1 b2] jointP] p]] computed IH];
    intros bodies Hb Hc; simpl; [done|].
  apply Forall_cons in Hc as [Hk Hc]. simpl in Hk.
  apply IH; [by apply Forall_insert_in|by rewrite length_insert].
Qed.

Lemma scatter_both_Forall (Q : SolveBody.t -> Prop) (bodies : list SolveBody.t)
    (computed : list (nat * (SolveBody.t * SolveBody.t * ContactJointPacked.t * bool))) :
  Forall Q bodies ->
  Forall (fun c => (body1Index (snd (fst (snd c))) < length bodies ->
                    Q (fst (fst (fst (snd c)))))
                   /\ (body2Index (snd (fst (snd c))) < length bodies ->
                       Q (snd (fst (fst (snd c)))))) computed ->
  Forall Q
    (foldl (fun bodies '(_, (body1, body2, jointP, _)) =>
              <[body2Index jointP := body2]>
                (<[body1Index jointP := body1]> bodies)) bodies computed).
Proof.
  revert bodies. induction computed as [|[k [[[b1 b2] jointP] p]] computed IH];
    intros bodies Hb Hc; simpl; [done|].
  apply Forall_cons in Hc as [[Hk1 Hk2] Hc]. simpl in Hk1, Hk2.
  apply IH.
  - apply Forall_insert_in; [by apply Forall_insert_in|].
    by rewrite length_insert.
  - by rewrite !length_insert.
Qed.

(** What the lanes of a block compute, for a lane that keeps indices
    and tags. *)
Lemma gathered_lanes_frame lane (i : Z) (lo hi : Z) (s : SoA)
    (packed0 : list ContactJointPacked.t) (lanes : list nat) :
  lane_frame lane -> (lo <= i <= hi)%Z -> channel_inv packed0 lo hi s ->
  Forall (fun c : nat * (SolveBody.t * SolveBody.t * ContactJointPacked.t * bool) =>
            (body1Index (snd (fst (snd c))) = body1Index (packed0 !!! fst c)
             /\ body2Index (snd (fst (snd c))) = body2Index (packed0 !!! fst c))
            /\ (body1Index (snd (fst (snd c))) < length (soa_bodies s) ->
                (lo <= SolveBody.lastIteration (fst (fst (fst (snd c)))) <= hi)%Z)
            /\ (body2Index (snd (fst (snd c))) < length (soa_bodies s) ->
                (lo <= SolveBody.lastIteration (snd (fst (fst (snd c)))) <= hi)%Z))
    (map (fun '(k, body1, body2, jointP) => (k, lane i body1 body2 jointP))
       (map (fun k =>
               let jointP := soa_packed s !!! k in
               (k, soa_bodies s !!! body1Index jointP,
                   soa_bodies s !!! body2Index jointP, jointP))
          lanes)).
Proof.
  intros Hlane Hi [Hidx Htag].
  induction lanes as [|k lanes IH]; simpl; constructor; [|done].
  cbn [fst snd].
  destruct (Hlane i (soa_bodies s !!! body1Index (soa_packed s !!! k))
              (soa_bodies s !!! body2Index (soa_packed s !!! k))
              (soa_packed s !!! k)) as (H1 & H2 & H3 & H4).
  destruct (Hidx k) as [Hk1 Hk2].
  split; [split; congruence|].
  split.
  - intros Hlt. rewrite H1 in Hlt.
    pose proof (Forall_lookup_total_1 _ _ _ Htag Hlt) as Hb. cbn beta in Hb.
    destruct H3 as [-> | ->]; [exact Hb|lia].
  - intros Hlt. rewrite H2 in Hlt.
    pose proof (Forall_lookup_total_1 _ _ _ Htag Hlt) as Hb. cbn beta in Hb.
    destruct H4 as [-> | ->]; [exact Hb|lia].
Qed.

Lemma SoA_body_frame lane (VN : nat) (i lo hi : Z) (jointIndex : nat)
    (packed0 : list ContactJointPacked.t) (s : SoA) :
  lane_frame lane -> (lo <= i <= hi)%Z -> channel_inv packed0 lo hi s ->
  channel_inv packed0 lo hi (fst (SolveJointsSoA_body lane VN i jointIndex s)).
Proof.
  intros Hlane Hi Hs. unfold SolveJointsSoA_body.
  destruct (forallb _ _); [done|]. cbn [fst].
  pose proof (gathered_lanes_frame lane i lo hi s packed0 (seq jointIndex VN)
                Hlane Hi Hs) as Hc.
  destruct Hs as [Hidx Htag]. split; cbn [soa_packed soa_bodies].
  - apply store_lanes_indices; [done|].
    eapply Forall_impl; [exact Hc|]. by intros c [? _].
  - unfold tags_within.
    destruct (scatter1_Forall
                (fun b => (lo <= SolveBody.lastIteration b <= hi)%Z)
                (soa_bodies s) _ Htag
                (Forall_impl _ _ _ Hc (fun c H => proj1 (proj2 H))))
      as [G1 G2].
    apply scatter2_Forall; [exact G1|].
    eapply Forall_impl; [exact Hc|]. intros c (_ & _ & H) Hlt. apply H.
    eapply Nat.lt_le_trans; [exact Hlt|]. apply Nat.eq_le_incl. exact G2.
Qed.

Lemma SoA_FMA_body_frame lane (i lo hi : Z) (jointIndex : nat)
    (packed0 : list ContactJointPacked.t) (s : SoA) :
  lane_frame lane -> (lo <= i <= hi)%Z -> channel_inv packed0 lo hi s ->
  channel_inv packed0 lo hi (fst (SolveJointsSoA_FMA_body lane i jointIndex s)).
Proof.
  intros Hlane Hi Hs. unfold SolveJointsSoA_FMA_body.
  destruct (forallb _ _); [done|]. cbn [fst].
  pose proof (gathered_lanes_frame lane i lo hi s packed0 (seq jointIndex 16)
                Hlane Hi Hs) as Hc.
  destruct Hs as [Hidx Htag]. split; cbn [soa_packed soa_bodies].
  - apply store_lanes_indices; [done|].
    eapply Forall_impl; [exact Hc|]. by intros c [? _].
  - apply scatter_both_Forall; [exact Htag|].
    eapply Forall_impl; [exact Hc|]. by intros c (_ & ? & ?).
Qed.

End ChannelFrames.

Section RunFrames.

Import ContactJointPacked.

Lemma tags_within_mono (lo hi hi' : Z) (bodies : list SolveBody.t) :
  (hi <= hi')%Z -> tags_within lo hi bodies -> tags_within lo hi' bodies.
Proof.
  intros Hh H. eapply Forall_impl; [exact H|]. intros b Hb. cbn beta in Hb. lia.
Qed.

Lemma template_pass_frame lane (VN jointStart jointCount : nat) (i lo hi : Z)
    (packed0 : list ContactJointPacked.t) (s : SoA) :
  lane_frame lane -> (lo <= i <= hi)%Z -> channel_inv packed0 lo hi s ->
  channel_inv packed0 lo hi
    (fst (for_batches (SolveJointsSoA_body lane VN i) VN jointStart jointCount s)).
Proof.
  intros Hlane Hi. apply (for_batches_inv (channel_inv packed0 lo hi)).
  intros j s'. by apply SoA_body_frame.
Qed.

Lemma FMA_pass_frame lane (jointStart jointCount : nat) (i lo hi : Z)
    (packed0 : list ContactJointPacked.t) (s : SoA) :
  lane_frame lane -> (lo <= i <= hi)%Z -> channel_inv packed0 lo hi s ->
  channel_inv packed0 lo hi
    (fst (for_batches (SolveJointsSoA_FMA_body lane i) 16 jointStart jointCount s)).
Proof.
  intros Hlane Hi. apply (for_batches_inv (channel_inv packed0 lo hi)).
  intros j s'. by apply SoA_FMA_body_frame.
Qed.

Lemma grouped_pass_keeps (Q : SoA -> Prop)
    (wide scalar : nat -> nat -> Z -> SoA -> SoA * bool)
    (groupOffset jointCount : nat) (i : Z) (s : SoA) :
  (forall a n s, Q s -> Q (fst (wide a n i s))) ->
  (forall a n s, Q s -> Q (fst (scalar a n i s))) ->
  Q s -> Q (fst (grouped_pass wide scalar groupOffset jointCount i s)).
Proof.
  intros Hw Hs H. unfold grouped_pass.
  specialize (Hw 0%nat groupOffset s H).
  destruct (wide 0%nat groupOffset i s) as [s1 p1]. cbn [fst] in Hw.
  specialize (Hs groupOffset (jointCount - groupOffset)%nat s1 Hw).
  by destruct (scalar _ _ i s1) as [s2 p2].
Qed.

(** A kernel that keeps a channel keeps the state of the run. *)
Lemma on_impulse_run (joints : list ContactJoint) (gr : Groups)
    (packed0 : list ContactJointPacked.t) (hiI hiI' hiD : Z)
    (kernel : SoA -> SoA * bool) (st : SoAState) :
  (forall s, channel_inv packed0 (-1) hiI' s ->
             channel_inv packed0 (-1) hiI' (fst (kernel s))) ->
  (hiI <= hiI')%Z ->
  run_inv joints gr packed0 hiI hiD st ->
  run_inv joints gr packed0 hiI' hiD (fst (on_impulse kernel st)).
Proof.
  intros Hk Hh (Hj & Hg & Hi & HtI & HtD). destruct st as [solver packed].
  cbn [fst snd] in *. unfold on_impulse.
  specialize (Hk (mkSoA (solveBodiesImpulse solver) packed)
                (conj Hi (tags_within_mono _ _ _ _ Hh HtI))).
  destruct (kernel _) as [s p]. cbn [fst snd] in *. destruct Hk as [Hi' Ht'].
  exact (conj Hj (conj Hg (conj Hi' (conj Ht' HtD)))).
Qed.

Lemma on_displacement_run (joints : list ContactJoint) (gr : Groups)
    (packed0 : list ContactJointPacked.t) (hiI hiD hiD' : Z)
    (kernel : SoA -> SoA * bool) (st : SoAState) :
  (forall s, channel_inv packed0 (-1) hiD' s ->
             channel_inv packed0 (-1) hiD' (fst (kernel s))) ->
  (hiD <= hiD')%Z ->
  run_inv joints gr packed0 hiI hiD st ->
  run_inv joints gr packed0 hiI hiD' (fst (on_displacement kernel st)).
Proof.
  intros Hk Hh (Hj & Hg & Hi & HtI & HtD). destruct st as [solver packed].
  cbn [fst snd] in *. unfold on_displacement.
  specialize (Hk (mkSoA (solveBodiesDisplacement solver) packed)
                (conj Hi (tags_within_mono _ _ _ _ Hh HtD))).
  destruct (kernel _) as [s p]. cbn [fst snd] in *. destruct Hk as [Hi' Ht'].
  exact (conj Hj (conj Hg (conj Hi' (conj HtI Ht')))).
Qed.

(** An invariant that the pass with index [i] takes to index [i + 1]
    holds at the index where the loop stops, or at a later one. *)
Lemma iterate_indexed {S : Type} (pass : Z -> S -> S * bool)
    (Inv : Z -> S -> Prop) :
  (forall i s, Inv i s -> Inv (i + 1)%Z (fst (pass i s))) ->
  (forall i j s, (i <= j)%Z -> Inv i s -> Inv j s) ->
  forall n i s, Inv i s ->
    Inv (i + Z.of_nat n)%Z (loop_state (iterate pass n i s)).
Proof.
  intros Hpass Hmono.
  induction n as [|n IH]; intros i s Hinv; cbn [iterate].
  - cbn [loop_state]. by rewrite Z.add_0_r.
  - pose proof (Hpass i s Hinv) as Hs'.
    destruct (pass i s) as [s' p]. cbn [fst] in Hs'.
    destruct p; cbn [loop_state].
    + replace (i + Z.of_nat (Datatypes.S n))%Z
        with ((i + 1) + Z.of_nat n)%Z by lia.
      by apply IH.
    + eapply Hmono; [|exact Hs']. lia.
Qed.

(** The two loops of an SoA driver, for kernels that keep their
    channel: after [C] and [P] passes at most, no tag of the impulse
    channel is above [C - 1] and none of the displacement channel
    above [P - 1]. *)
Lemma SoA_loops_run (joints : list ContactJoint) (gr : Groups)
    (packed0 : list ContactJointPacked.t)
    (impulses displacement : Z -> SoA -> SoA * bool) (C P : nat)
    (st : SoAState) :
  (forall i s, (0 <= i)%Z -> channel_inv packed0 (-1) i s ->
               channel_inv packed0 (-1) i (fst (impulses i s))) ->
  (forall i s, (0 <= i)%Z -> channel_inv packed0 (-1) i s ->
               channel_inv packed0 (-1) i (fst (displacement i s))) ->
  run_inv joints gr packed0 (-1) (-1) st ->
  run_inv joints gr packed0 (Z.of_nat C - 1) (Z.of_nat P - 1)
    (loop_state
       (displacement_loop (fun i => on_displacement (displacement i)) P
          (loop_state (impulse_loop (fun i => on_impulse (impulses i)) C st)))).
Proof.
  intros HI HD H0. unfold impulse_loop, displacement_loop.
  assert (H1 : run_inv joints gr packed0 (Z.of_nat C - 1) (-1)
                 (loop_state (iterate (fun i => on_impulse (impulses i)) C 0 st))).
  { destruct (iterate_indexed (fun i => on_impulse (impulses i))
                (fun i st => (0 <= i)%Z
                             /\ run_inv joints gr packed0 (i - 1) (-1) st))
      with (n := C) (i := 0%Z) (s := st) as [_ G].
    - intros i s [Hi Hs]. split; [lia|].
      replace (i + 1 - 1)%Z with i by lia.
      apply (on_impulse_run joints gr packed0 (i - 1) i (-1)); [|lia|done].
      intros s0. by apply HI.
    - intros i j s Hij [Hi (Hj & Hg & Hx & HtI & HtD)]. split; [lia|].
      refine (conj Hj (conj Hg (conj Hx (conj _ HtD)))).
      eapply tags_within_mono; [|exact HtI]. lia.
    - by split.
    - by rewrite Z.add_0_l in G. }
  destruct (iterate_indexed (fun i => on_displacement (displacement i))
              (fun i st => (0 <= i)%Z
                           /\ run_inv joints gr packed0 (Z.of_nat C - 1)
                                (i - 1) st))
    with (n := P) (i := 0%Z)
         (s := loop_state (iterate (fun i => on_impulse (impulses i)) C 0 st))
    as [_ G].
  - intros i s [Hi Hs]. split; [lia|].
    replace (i + 1 - 1)%Z with i by lia.
    apply (on_displacement_run joints gr packed0 _ (i - 1) i); [|lia|done].
    intros s0. by apply HD.
  - intros i j s Hij [Hi (Hj & Hg & Hx & HtI & HtD)]. split; [lia|].
    refine (conj Hj (conj Hg (conj Hx (conj HtI _)))).
    eapply tags_within_mono; [|exact HtD]. lia.
  - by split.
  - by rewrite Z.add_0_l in G.
Qed.

End RunFrames.

(** ** The average-iterations diagnostic of a run *)

Section IntSums.

Lemma int_wrap_small (z : Z) :
  (-2147483648 <= z < 2147483648)%Z -> int_wrap z = z.
Proof. intros H. unfold int_wrap. rewrite Z.mod_small by lia. lia. Qed.

Lemma sum_Z_bounds {A : Type} (f : A -> Z) (M : Z) (l : list A) :
  Forall (fun x => (0 <= f x <= M)%Z) l ->
  (0 <= sum_Z (map f l) <= Z.of_nat (length l) * M)%Z.
Proof.
  induction 1 as [|x l Hx Hl IH]; simpl; [lia|].
  cbn beta in Hx. lia.
Qed.

Lemma sum_Z_nonneg {A : Type} (f : A -> Z) (l : list A) :
  Forall (fun x => (0 <= f x)%Z) l -> (0 <= sum_Z (map f l))%Z.
Proof. induction 1 as [|x l Hx Hl IH]; simpl; lia. Qed.

(** The sum of the finish step does not wrap when no tag is below -1
    and the sum is below [2^31]. *)
Lemma foldl_int_sum {A : Type} (step : Z -> A -> Z) (u v : A -> Z) (l : list A) :
  (forall a x, x ∈ l ->
     step a x = int_add (int_add a (int_add (u x) 2)) (int_add (v x) 2)) ->
  Forall (fun x => (-1 <= u x)%Z /\ (-1 <= v x)%Z) l ->
  forall acc : Z,
    (0 <= acc)%Z ->
    (acc + sum_Z (map (fun x => iterations_term (u x) (v x)) l) < 2147483648)%Z ->
    foldl step acc l
    = (acc + sum_Z (map (fun x => iterations_term (u x) (v x)) l))%Z.
Proof.
  unfold iterations_term.
  induction l as [|x l IH]; intros Hstep Hb acc Hacc Hsum; simpl; [lia|].
  apply Forall_cons in Hb as [[Hu Hv] Hb]. simpl in Hsum.
  assert (Hrest : (0 <= sum_Z (map (fun x => u x + 2 + (v x + 2)) l))%Z).
  { apply sum_Z_nonneg. eapply Forall_impl; [exact Hb|].
    intros y [? ?]. lia. }
  rewrite Hstep by by left. unfold int_add.
  rewrite (int_wrap_small (u x + 2)) by lia.
  rewrite (int_wrap_small (acc + (u x + 2))) by lia.
  rewrite (int_wrap_small (v x + 2)) by lia.
  rewrite (int_wrap_small (acc + (u x + 2) + (v x + 2))) by lia.
  rewrite IH; [lia| |done|lia|lia].
  intros a y Hy. apply Hstep. by right.
Qed.

End IntSums.

Section PrepareRun.

Lemma SolvePrepareIndicesSoA_perm (joints : list ContactJoint)
    (groupSizeTarget bodiesCount : nat) (g : Groups) (groupOffset : nat)
    (g' : Groups) :
  1 <= groupSizeTarget ->
  length (joint_index g) = length joints ->
  SolvePrepareIndicesSoA joints groupSizeTarget bodiesCount g
  = Some (groupOffset, g') ->
  joint_index g' ≡ₚ seq 0 (length joints).
Proof.
  intros Hk Hlen Hr.
  destruct (decide (groupSizeTarget = 1)) as [->|Hne].
  - unfold SolvePrepareIndicesSoA, SolvePrepareIndicesSoA_fuel in Hr.
    cbn [Nat.eqb] in Hr. injection Hr as <- <-. cbn [joint_index].
    by rewrite fill_identity_spec by done.
  - by apply grouping_spec in Hr as (Hperm & _).
Qed.

Lemma lookup_total_fmap_seq_lt {A : Type} `{Inhabited A} (g : nat -> A)
    (n i : nat) :
  i < n -> (g <$> seq 0 n) !!! i = g i.
Proof.
  intros Hi. apply list_lookup_total_correct.
  by rewrite list_lookup_fmap, lookup_seq_lt.
Qed.

(** What [SolvePrepareSoA] hands to the passes: it returns; every tag
    of both channels is -1; [joint_index] is a permutation of the joint
    indices, and lane [i] holds the body indices of the joint that
    [joint_index] lists at [i]. *)
Lemma SolvePrepareSoA_run (solver : Solver)
    (joint_packed : list ContactJointPacked.t) (bodies : list RigidBody)
    (bodiesCount groupSizeTarget : nat) :
  1 <= groupSizeTarget ->
  exists (groupOffset : nat) (solver1 : Solver)
         (packed1 : list ContactJointPacked.t),
    SolvePrepareSoA solver joint_packed bodies bodiesCount groupSizeTarget
    = Some (groupOffset, solver1, packed1)
    /\ run_inv (contactJoints solver) (groups solver1) packed1 (-1) (-1)
         (solver1, packed1)
    /\ joint_index (groups solver1) ≡ₚ seq 0 (length (contactJoints solver))
    /\ (forall i, i < length (contactJoints solver) ->
          let joint :=
            contactJoints solver !!! (joint_index (groups solver1) !!! i) in
          ContactJointPacked.body1Index (packed1 !!! i) = body1Index joint
          /\ ContactJointPacked.body2Index (packed1 !!! i) = body2Index joint).
Proof.
  intros Hk. unfold SolvePrepareSoA.
  match goal with |- context [SolvePrepareIndicesSoA ?j ?k ?b ?g] =>
    destruct (SolvePrepareIndicesSoA_returns j k b g Hk) as [[go g'] [Hr _]];
    pose proof (SolvePrepareIndicesSoA_perm j k b g go g' Hk
                  ltac:(apply length_resize) Hr) as Hperm
  end.
  rewrite Hr. eexists _, _, _. split; [reflexivity|].
  cbn [contactJoints groups fst snd].
  rewrite !foldl_insert_seq by apply length_resize.
  split; [|split; [exact Hperm|]].
  - split; [reflexivity|]. split; [reflexivity|]. split; [by intros k|].
    cbn [solveBodiesImpulse solveBodiesDisplacement fst].
    split; apply Forall_fmap, Forall_forall; intros i _; simpl; lia.
  - intros i Hi. cbv zeta. by rewrite lookup_total_fmap_seq_lt.
Qed.

End PrepareRun.

Section FinishRun.

Lemma fmap_alter_same {A B : Type} (h : A -> B) (f : A -> A) (i : nat)
    (l : list A) :
  (forall a, h (f a) = h a) -> h <$> alter f i l = h <$> l.
Proof.
  intros Hf. apply list_eq. intros k.
  rewrite !list_lookup_fmap, list_lookup_alter.
  destruct (decide (i = k)) as [->|]; [|done].
  destruct (l !! k); simpl; by rewrite ?Hf.
Qed.

(** Writing the accumulators back changes no body index of a joint. *)
Lemma unpack_fold_indices (packed : list ContactJointPacked.t)
    (index : list nat) (lanes : list nat) (joints : list ContactJoint) :
  (fun joint => (body1Index joint, body2Index joint))
  <$> foldl (fun (joints : list ContactJoint) i =>
               alter (unpack (packed !!! i)) (index !!! i) joints)
        joints lanes
  = (fun joint => (body1Index joint, body2Index joint)) <$> joints.
Proof.
  revert joints. induction lanes as [|i lanes IH]; intros joints; simpl; [done|].
  rewrite IH. by apply fmap_alter_same.
Qed.

Lemma iteration_sum_SoA_indices (joints joints' : list ContactJoint)
    (impulse displacement : list SolveBody.t) (g : Groups) :
  (fun joint => (body1Index joint, body2Index joint)) <$> joints'
  = (fun joint => (body1Index joint, body2Index joint)) <$> joints ->
  iteration_sum_SoA (mkSolver joints' impulse displacement g)
  = iteration_sum_SoA (mkSolver joints impulse displacement g).
Proof.
  intros H. unfold iteration_sum_SoA.
  cbn [contactJoints solveBodiesImpulse solveBodiesDisplacement].
  set (F := fun p : nat * nat =>
    joint_iterations (SolveBody.lastIteration (impulse !!! fst p))
      (SolveBody.lastIteration (impulse !!! snd p))
      (SolveBody.lastIteration (displacement !!! fst p))
      (SolveBody.lastIteration (displacement !!! snd p))).
  transitivity
    (sum_Z (map F ((fun joint => (body1Index joint, body2Index joint))
                   <$> joints'))).
  { by rewrite map_map. }
  rewrite H. by rewrite map_map.
Qed.

Lemma tags_within_lookup (hi : Z) (bodies : list SolveBody.t) (k : nat) :
  (0 <= hi)%Z -> tags_within (-1) hi bodies ->
  (-1 <= SolveBody.lastIteration (bodies !!! k) <= hi)%Z.
Proof.
  intros Hh H. destruct (decide (k < length bodies)) as [Hk|Hk].
  - exact (Forall_lookup_total_1 _ _ _ H Hk).
  - rewrite list_lookup_total_alt, (proj2 (lookup_ge_None _ _)) by lia.
    simpl. lia.
Qed.

(** [SolveFinishSoA] on the state of a run: the returned average is the
    binary32 quotient of the sum over the joints by their number. *)
Lemma SolveFinishSoA_average (solver : Solver)
    (joint_packed : list ContactJointPacked.t) (bodies : list RigidBody)
    (bodiesCount : nat) (hiI hiD : Z) :
  joint_index (groups solver) ≡ₚ seq 0 (length (contactJoints solver)) ->
  (forall i, i < length (contactJoints solver) ->
     let joint := contactJoints solver !!! (joint_index (groups solver) !!! i) in
     ContactJointPacked.body1Index (joint_packed !!! i) = body1Index joint
     /\ ContactJointPacked.body2Index (joint_packed !!! i) = body2Index joint) ->
  tags_within (-1) hiI (solveBodiesImpulse solver) ->
  tags_within (-1) hiD (solveBodiesDisplacement solver) ->
  (0 <= hiI)%Z -> (0 <= hiD)%Z ->
  (Z.of_nat (length (contactJoints solver)) * (hiI + hiD + 4) < 2147483648)%Z ->
  let r := SolveFinishSoA solver joint_packed bodies bodiesCount in
  snd r
  = Binary32.div (Binary32.of_int (iteration_sum_SoA (snd (fst r))))
      (Binary32.of_int (Z.of_nat (length (contactJoints solver)))).
Proof.
  intros Hperm Hidx HtI HtD HhI HhD Hfit. unfold SolveFinishSoA. cbn [fst snd].
  rewrite (iteration_sum_SoA_indices (contactJoints solver))
    by apply unpack_fold_indices.
  f_equal. f_equal.
  set (n := length (contactJoints solver)) in *.
  set (T := fun joint : ContactJoint =>
    joint_iterations
      (SolveBody.lastIteration (solveBodiesImpulse solver !!! body1Index joint))
      (SolveBody.lastIteration (solveBodiesImpulse solver !!! body2Index joint))
      (SolveBody.lastIteration (solveBodiesDisplacement solver !!! body1Index joint))
      (SolveBody.lastIteration (solveBodiesDisplacement solver !!! body2Index joint))).
  assert (Hsum : sum_Z (map (fun i => T (contactJoints solver
                                          !!! (joint_index (groups solver) !!! i)))
                          (seq 0 n))
                 = sum_Z (map T (contactJoints solver))).
  { assert (Hlen : length (joint_index (groups solver)) = n).
    { apply Permutation_length in Hperm. by rewrite length_seq in Hperm. }
    rewrite <- (map_map (fun i => joint_index (groups solver) !!! i)
                  (fun k => T (contactJoints solver !!! k))).
    rewrite <- Hlen at 1. rewrite map_lookup_total_seq.
    rewrite (sum_Z_perm _ (map (fun k => T (contactJoints solver !!! k))
                             (seq 0 n))) by (by apply Permutation_map).
    rewrite <- (map_map (fun k => contactJoints solver !!! k) T).
    unfold n. by rewrite map_lookup_total_seq. }
  assert (HT : forall joint, (0 <= T joint <= hiI + hiD + 4)%Z).
  { intros joint. unfold T, joint_iterations, iterations_term.
    pose proof (tags_within_lookup hiI _ (body1Index joint) HhI HtI).
    pose proof (tags_within_lookup hiI _ (body2Index joint) HhI HtI).
    pose proof (tags_within_lookup hiD _ (body1Index joint) HhD HtD).
    pose proof (tags_within_lookup hiD _ (body2Index joint) HhD HtD).
    lia. }
  assert (Hbound : (0 <= sum_Z (map T (contactJoints solver))
                    <= Z.of_nat n * (hiI + hiD + 4))%Z).
  { apply sum_Z_bounds. apply Forall_forall. intros joint _. apply HT. }
  change (iteration_sum_SoA
            (mkSolver (contactJoints solver) (solveBodiesImpulse solver)
               (solveBodiesDisplacement solver) (groups solver)))
    with (sum_Z (map T (contactJoints solver))).
  rewrite <- Hsum.
  rewrite (foldl_int_sum _
             (fun i => let joint := contactJoints solver
                                    !!! (joint_index (groups solver) !!! i) in
                Z.max (SolveBody.lastIteration
                         (solveBodiesImpulse solver !!! body1Index joint))
                  (SolveBody.lastIteration
                     (solveBodiesImpulse solver !!! body2Index joint)))
             (fun i => let joint := contactJoints solver
                                    !!! (joint_index (groups solver) !!! i) in
                Z.max (SolveBody.lastIteration
                         (solveBodiesDisplacement solver !!! body1Index joint))
                  (SolveBody.lastIteration
                     (solveBodiesDisplacement solver !!! body2Index joint)))).
  - by rewrite Z.add_0_l.
  - intros a i Hi. apply elem_of_seq in Hi.
    destruct (Hidx i) as [-> ->]; [lia|]. reflexivity.
  - apply Forall_forall. intros i _. cbv zeta.
    pose proof (tags_within_lookup hiI (solveBodiesImpulse solver)
                  (body1Index (contactJoints solver
                               !!! (joint_index (groups solver) !!! i))) HhI HtI).
    pose proof (tags_within_lookup hiD (solveBodiesDisplacement solver)
                  (body1Index (contactJoints solver
                               !!! (joint_index (groups solver) !!! i))) HhD HtD).
    lia.
  - done.
  - rewrite Z.add_0_l.
    change (sum_Z (map (fun i => T (contactJoints solver
                                    !!! (joint_index (groups solver) !!! i)))
                     (seq 0 n)) < 2147483648)%Z.
    rewrite Hsum. lia.
Qed.

(** The run of an SoA driver after its prepare step, for kernels that
    keep their channel. *)
Lemma SoA_solve_average (impulses displacement : Z -> SoA -> SoA * bool)
    (joints : list ContactJoint) (solver1 : Solver)
    (packed1 : list ContactJointPacked.t) (bodies : list RigidBody)
    (bodiesCount C P : nat) :
  (forall i s, (0 <= i)%Z -> channel_inv packed1 (-1) i s ->
               channel_inv packed1 (-1) i (fst (impulses i s))) ->
  (forall i s, (0 <= i)%Z -> channel_inv packed1 (-1) i s ->
               channel_inv packed1 (-1) i (fst (displacement i s))) ->
  run_inv joints (groups solver1) packed1 (-1) (-1) (solver1, packed1) ->
  joint_index (groups solver1) ≡ₚ seq 0 (length joints) ->
  (forall i, i < length joints ->
     let joint := joints !!! (joint_index (groups solver1) !!! i) in
     ContactJointPacked.body1Index (packed1 !!! i) = body1Index joint
     /\ ContactJointPacked.body2Index (packed1 !!! i) = body2Index joint) ->
  (Z.of_nat (length joints) * (Z.of_nat C + Z.of_nat P + 4) < 2147483648)%Z ->
  let r :=
    solve (fun i => on_impulse (impulses i))
      (fun i => on_displacement (displacement i))
      (fun st => SolveFinishSoA (fst st) (snd st) bodies bodiesCount)
      C P (solver1, packed1) in
  snd r
  = Binary32.div (Binary32.of_int (iteration_sum_SoA (snd (fst r))))
      (Binary32.of_int (Z.of_nat (length joints))).
Proof.
  intros HI HD H0 Hperm Hidx Hfit. unfold solve. cbv zeta.
  pose proof (SoA_loops_run joints (groups solver1) packed1 impulses
                displacement C P (solver1, packed1) HI HD H0)
    as (Hj & Hg & Hx & HtI & HtD).
  set (st := loop_state (displacement_loop _ P _)) in *.
  rewrite <- Hj.
  apply (SolveFinishSoA_average (fst st) (snd st) bodies bodiesCount
           (Z.of_nat C) (Z.of_nat P)).
  - by rewrite Hj, Hg.
  - rewrite Hj, Hg. intros i Hi. destruct (Hx i) as [-> ->]. by apply Hidx.
  - eapply tags_within_mono; [|exact HtI]. lia.
  - eapply tags_within_mono; [|exact HtD]. lia.
  - lia.
  - lia.
  - by rewrite Hj.
Qed.

End FinishRun.

Section AverageTheorem.

Lemma tags_lookup (bodies : list RigidBody) (k : nat) :
  Forall (fun b => (-1 <= lastIteration b)%Z
                   /\ (-1 <= lastDisplacementIteration b)%Z) bodies ->
  (-1 <= lastIteration (bodies !!! k))%Z
  /\ (-1 <= lastDisplacementIteration (bodies !!! k))%Z.
Proof.
  intros H. destruct (decide (k < length bodies)) as [Hk|Hk].
  - exact (Forall_lookup_total_1 _ _ _ H Hk).
  - rewrite list_lookup_total_alt, (proj2 (lookup_ge_None _ _)) by lia.
    simpl. lia.
Qed.

Lemma SolveFinishAoS_average (s : AoS) :
  Forall (fun b => (-1 <= lastIteration b)%Z
                   /\ (-1 <= lastDisplacementIteration b)%Z) (aos_bodies s) ->
  (iteration_sum_AoS s < 2147483648)%Z ->
  SolveFinishAoS s
  = Binary32.div (Binary32.of_int (iteration_sum_AoS s))
      (Binary32.of_int (Z.of_nat (length (aos_joints s)))).
Proof.
  intros Htags Hfit. unfold SolveFinishAoS. f_equal. f_equal.
  rewrite (foldl_int_sum _
             (fun joint =>
                Z.max (lastIteration (aos_bodies s !!! body1Index joint))
                  (lastIteration (aos_bodies s !!! body2Index joint)))
             (fun joint =>
                Z.max (lastDisplacementIteration (aos_bodies s !!! body1Index joint))
                  (lastDisplacementIteration
                     (aos_bodies s !!! body2Index joint)))).
  - by rewrite Z.add_0_l.
  - intros a joint _. reflexivity.
  - apply Forall_forall. intros joint _.
    destruct (tags_lookup _ (body1Index joint) Htags). lia.
  - done.
  - rewrite Z.add_0_l. exact Hfit.
Qed.

Lemma impulse_kernel_frame (VN jointStart jointCount : nat) (i : Z)
    (packed0 : list ContactJointPacked.t) (s : SoA) :
  (0 <= i)%Z -> channel_inv packed0 (-1) i s ->
  channel_inv packed0 (-1) i
    (fst (SolveJointsImpulsesSoA VN jointStart jointCount i s)).
Proof.
  intros Hi. apply template_pass_frame; [apply impulse_lane_frame|lia].
Qed.

Lemma displacement_kernel_frame (VN jointStart jointCount : nat) (i : Z)
    (packed0 : list ContactJointPacked.t) (s : SoA) :
  (0 <= i)%Z -> channel_inv packed0 (-1) i s ->
  channel_inv packed0 (-1) i
    (fst (SolveJointsDisplacementSoA VN jointStart jointCount i s)).
Proof.
  intros Hi. apply template_pass_frame; [apply displacement_lane_frame|lia].
Qed.

Lemma impulse_FMA_kernel_frame (jointStart jointCount : nat) (i : Z)
    (packed0 : list ContactJointPacked.t) (s : SoA) :
  (0 <= i)%Z -> channel_inv packed0 (-1) i s ->
  channel_inv packed0 (-1) i
    (fst (SolveJointsImpulsesSoA_FMA jointStart jointCount i s)).
Proof.
  intros Hi. apply FMA_pass_frame; [apply impulse_FMA_lane_frame|lia].
Qed.

Lemma displacement_FMA_kernel_frame (jointStart jointCount : nat) (i : Z)
    (packed0 : list ContactJointPacked.t) (s : SoA) :
  (0 <= i)%Z -> channel_inv packed0 (-1) i s ->
  channel_inv packed0 (-1) i
    (fst (SolveJointsDisplacementSoA_FMA jointStart jointCount i s)).
Proof.
  intros Hi. apply FMA_pass_frame; [apply displacement_FMA_lane_frame|lia].
Qed.

(** An SoA driver, as prepare, two loops of kernels that keep their
    channel, and finish: it returns, and the average it returns is the
    quotient of the iteration sum of the state it leaves. *)
Lemma SoA_driver_average
    (impulses displacement : nat -> nat -> Z -> SoA -> SoA * bool)
    (solver : Solver) (joint_packed : list ContactJointPacked.t)
    (bodies : list RigidBody) (bodiesCount groupSizeTarget C P : nat) :
  1 <= groupSizeTarget ->
  (forall groupOffset jointCount packed0 i s,
      (0 <= i)%Z -> channel_inv packed0 (-1) i s ->
      channel_inv packed0 (-1) i (fst (impulses groupOffset jointCount i s))) ->
  (forall groupOffset jointCount packed0 i s,
      (0 <= i)%Z -> channel_inv packed0 (-1) i s ->
      channel_inv packed0 (-1) i (fst (displacement groupOffset jointCount i s))) ->
  (Z.of_nat (length (contactJoints solver)) * (Z.of_nat C + Z.of_nat P + 4)
   < 2147483648)%Z ->
  exists bodies' solver' average,
    match SolvePrepareSoA solver joint_packed bodies bodiesCount groupSizeTarget
    with
    | None => None
    | Some (groupOffset, solver, joint_packed) =>
        let jointCount := length (contactJoints solver) in
        Some (solve
                (fun i => on_impulse (impulses groupOffset jointCount i))
                (fun i => on_displacement (displacement groupOffset jointCount i))
                (fun st => SolveFinishSoA (fst st) (snd st) bodies bodiesCount)
                C P (solver, joint_packed))
    end = Some (bodies', solver', average)
    /\ average
       = Binary32.div (Binary32.of_int (iteration_sum_SoA solver'))
           (Binary32.of_int (Z.of_nat (length (contactJoints solver)))).
Proof.
  intros Hk HI HD Hfit.
  destruct (SolvePrepareSoA_run solver joint_packed bodies bodiesCount
              groupSizeTarget Hk)
    as (groupOffset & solver1 & packed1 & Hp & H0 & Hperm & Hidx).
  rewrite Hp. cbv zeta.
  pose proof H0 as (Hj & _). cbn [fst] in Hj. rewrite Hj.
  pose proof (SoA_solve_average
                (impulses groupOffset (length (contactJoints solver)))
                (displacement groupOffset (length (contactJoints solver)))
                (contactJoints solver) solver1 packed1 bodies bodiesCount C P
                (HI _ _ packed1) (HD _ _ packed1) H0 Hperm Hidx Hfit) as Ha.
  cbv zeta in Ha.
  destruct (solve _ _ _ C P (solver1, packed1)) as [[bodies' solver'] average].
  cbn [fst snd] in Ha. by exists bodies', solver', average.
Qed.

End AverageTheorem.

(** ** Binary32 arithmetic *)

Section Binary32Facts.

Import Binary32.

Local Open Scope binary32_scope.

Lemma add_comm (a b : binary32) : a + b = b + a.
Proof.
  destruct a as [sa|sa| |sa ma ea], b as [sb|sb| |sb mb eb];
    try reflexivity;
    try (destruct sa, sb; reflexivity).
  unfold add, SFadd. by rewrite Z.min_comm, Z.add_comm.
Qed.

Lemma compare_antisym (a b : binary32) :
  SFcompare b a = CompOpp <$> SFcompare a b.
Proof.
  destruct a as [sa|sa| |sa ma ea], b as [sb|sb| |sb mb eb];
    try reflexivity;
    try (destruct sa; reflexivity);
    try (destruct sb; reflexivity);
    try (destruct sa, sb; reflexivity).
  pose proof (Pos.compare_cont_antisym ma mb Eq) as Hm. simpl in Hm.
  unfold SFcompare. change PosDef.Pos.compare_cont with Pos.compare_cont.
  destruct sa, sb; try reflexivity; simpl; f_equal;
    rewrite (Z.compare_antisym ea eb);
    destruct (ea ?= eb)%Z; simpl; try reflexivity;
    rewrite <- Hm; by destruct (Pos.compare_cont Eq ma mb).
Qed.

Lemma leb_not_ltb (a b : binary32) : leb a b = true -> ltb b a = false.
Proof.
  unfold leb, ltb, SFleb, SFltb. rewrite (compare_antisym a b).
  by destruct (SFcompare a b) as [[]|].
Qed.

Lemma compare_total (a b : binary32) :
  is_nan a = false -> is_nan b = false -> exists c, SFcompare a b = Some c.
Proof.
  destruct a as [sa|sa| |sa ma ea], b as [sb|sb| |sb mb eb];
    try discriminate; intros _ _; by eexists.
Qed.

(** A comparison that fails, with no NaN in it, is the opposite
    order. *)
Lemma not_ltb_leb (a b : binary32) :
  ltb a b = false -> is_nan a = true \/ is_nan b = true \/ leb b a = true.
Proof.
  destruct (is_nan a) eqn:Ha; [by left|].
  destruct (is_nan b) eqn:Hb; [by right; left|].
  destruct (compare_total a b Ha Hb) as [c Hc].
  unfold leb, ltb, SFleb, SFltb. rewrite (compare_antisym a b), Hc.
  intros H. right. right. by destruct c.
Qed.

Lemma not_negative (r : binary32) : ltb r zero = false -> nonneg_or_nan r.
Proof.
  intros H. destruct (not_ltb_leb _ _ H) as [Hn|[Hn|Hle]];
    [by left|done|by right].
Qed.

Lemma add_opp (a : binary32) : nonneg_or_nan (a + - a).
Proof.
  destruct a as [[]|[]| |s m e]; try (by left); try (by right).
  right. unfold add, opp, SFadd, SFopp.
  rewrite Z.min_id. unfold shl_align. rewrite Z.sub_diag. cbn [fst].
  replace (cond_Zopp s (Z.pos m) + cond_Zopp (negb s) (Z.pos m))%Z with 0%Z
    by (destruct s; simpl; lia).
  reflexivity.
Qed.

(** The clamp of the AoS kernels: whatever the impulse and the
    accumulator, the accumulator it leaves is not negative or is NaN. *)
Lemma clamp_sign (delta acc : binary32) :
  nonneg_or_nan
    (acc + (if ltb (delta + acc) zero then - acc else delta)).
Proof.
  destruct (ltb (delta + acc) zero) eqn:E.
  - apply add_opp.
  - rewrite add_comm. by apply not_negative.
Qed.

Lemma same_refl (a : binary32) : same a a.
Proof. by left. Qed.

Lemma same_sym (a b : binary32) : same a b -> same b a.
Proof. intros [->|[? ?]]; [by left|by right]. Qed.

Lemma same_trans (a b c : binary32) : same a b -> same b c -> same a c.
Proof.
  intros [->|[Ha Hb]] [->|[Hb' Hc]]; try (by left); try (by right).
Qed.

Lemma same_zero (a b : binary32) :
  is_zero a = true -> is_zero b = true -> same a b.
Proof. by right. Qed.

Lemma is_zero_same (a b : binary32) :
  same a b -> is_zero a = true -> is_zero b = true.
Proof. by intros [->|[_ ?]]. Qed.

Lemma mul_same (a a' b b' : binary32) :
  same a a' -> same b b' -> same (a * b) (a' * b').
Proof.
  intros [->|[Ha Ha']] [->|[Hb Hb']]; [by left| | |].
  - destruct b as [?|?| |? ? ?], b' as [?|?| |? ? ?]; try discriminate.
    destruct a' as [| | |]; try (by left); by right.
  - destruct a as [?|?| |? ? ?], a' as [?|?| |? ? ?]; try discriminate.
    destruct b' as [| | |]; try (by left); by right.
  - destruct a as [?|?| |? ? ?], a' as [?|?| |? ? ?]; try discriminate.
    destruct b as [?|?| |? ? ?], b' as [?|?| |? ? ?]; try discriminate.
    by right.
Qed.

Lemma add_same (a a' b b' : binary32) :
  same a a' -> same b b' -> same (a + b) (a' + b').
Proof.
  intros [->|[Ha Ha']] [->|[Hb Hb']]; [by left| | |].
  - destruct b as [sb|?| |? ? ?], b' as [sb'|?| |? ? ?]; try discriminate.
    destruct a' as [sa| | |]; try (by left).
    right. by destruct sa, sb, sb'.
  - destruct a as [sa|?| |? ? ?], a' as [sa'|?| |? ? ?]; try discriminate.
    destruct b' as [sb| | |]; try (by left).
    right. by destruct sa, sa', sb.
  - destruct a as [sa|?| |? ? ?], a' as [sa'|?| |? ? ?]; try discriminate.
    destruct b as [sb|?| |? ? ?], b' as [sb'|?| |? ? ?]; try discriminate.
    right. by destruct sa, sa', sb, sb'.
Qed.

Lemma sub_same (a a' b b' : binary32) :
  same a a' -> same b b' -> same (a - b) (a' - b').
Proof.
  intros [->|[Ha Ha']] [->|[Hb Hb']]; [by left| | |].
  - destruct b as [sb|?| |? ? ?], b' as [sb'|?| |? ? ?]; try discriminate.
    destruct a' as [sa| | |]; try (by left).
    right. by destruct sa, sb, sb'.
  - destruct a as [sa|?| |? ? ?], a' as [sa'|?| |? ? ?]; try discriminate.
    destruct b' as [sb| | |]; try (by left).
    right. by destruct sa, sa', sb.
  - destruct a as [sa|?| |? ? ?], a' as [sa'|?| |? ? ?]; try discriminate.
    destruct b as [sb|?| |? ? ?], b' as [sb'|?| |? ? ?]; try discriminate.
    right. by destruct sa, sa', sb, sb'.
Qed.

Lemma fabsf_same (a a' : binary32) : same a a' -> same (fabsf a) (fabsf a').
Proof.
  intros [->|[Ha Ha']]; [by left|].
  destruct a as [?|?| |? ? ?], a' as [?|?| |? ? ?]; try discriminate. by right.
Qed.

Lemma compare_same (a a' b b' : binary32) :
  same a a' -> same b b' -> SFcompare a b = SFcompare a' b'.
Proof.
  intros [->|[Ha Ha']] [->|[Hb Hb']]; [done| | |].
  - destruct b as [?|?| |? ? ?], b' as [?|?| |? ? ?]; try discriminate.
    by destruct a' as [| | |].
  - destruct a as [?|?| |? ? ?], a' as [?|?| |? ? ?]; try discriminate.
    by destruct b' as [| | |].
  - destruct a as [?|?| |? ? ?], a' as [?|?| |? ? ?]; try discriminate.
    by destruct b as [?|?| |? ? ?], b' as [?|?| |? ? ?].
Qed.

Lemma ltb_same (a a' b b' : binary32) :
  same a a' -> same b b' -> ltb a b = ltb a' b'.
Proof. intros Ha Hb. unfold ltb, SFltb. by rewrite (compare_same a a' b b'). Qed.

Lemma leb_same (a a' b b' : binary32) :
  same a a' -> same b b' -> leb a b = leb a' b'.
Proof. intros Ha Hb. unfold leb, SFleb. by rewrite (compare_same a a' b b'). Qed.

Lemma is_finite_same (a a' : binary32) :
  same a a' -> is_finite a = is_finite a'.
Proof.
  intros [->|[Ha Ha']]; [done|].
  by destruct a as [?|?| |? ? ?], a' as [?|?| |? ? ?].
Qed.

(** A finite number times a zero is a zero. *)
Lemma mul_zero_r (a c : binary32) :
  is_finite a = true -> is_zero c = true -> is_zero (a * c) = true.
Proof. by destruct a as [| | |], c as [| | |]. Qed.

(** Adding a zero changes no number. *)
Lemma add_zero_r (a z : binary32) : is_zero z = true -> same (a + z) a.
Proof.
  destruct z as [sz|?| |? ? ?]; try discriminate. intros _.
  destruct a as [sa| | |]; try (by left). right. by destruct sa, sz.
Qed.

Lemma add_zero_l (a z : binary32) : is_zero z = true -> same (z + a) a.
Proof. intros Hz. rewrite add_comm. by apply add_zero_r. Qed.

Lemma opp_zero (z : binary32) : is_zero z = true -> is_zero (- z) = true.
Proof. by destruct z. Qed.

(** A number that is at least zero is not below zero after a zero is
    added to it. *)
Lemma nonneg_add_zero (acc z : binary32) :
  leb zero acc = true -> is_zero z = true -> ltb (z + acc) zero = false.
Proof.
  intros Hacc Hz.
  rewrite (ltb_same (z + acc) acc zero zero); [|by apply add_zero_l|by left].
  by apply leb_not_ltb.
Qed.

End Binary32Facts.

(** ** The accumulators of the rounded kernels *)

Section RoundedInvariant.

Import Rounded.

Local Open Scope binary32_scope.

Lemma sign_ok_lookup (joints : list ContactJoint) (jointIndex : nat) :
  Forall sign_ok joints -> sign_ok (joints !!! jointIndex).
Proof.
  intros H. destruct (decide (jointIndex < length joints)) as [Hj|Hj].
  - by apply Forall_lookup_total.
  - rewrite list_lookup_total_alt, (proj2 (lookup_ge_None _ _)) by lia.
    split; by right.
Qed.

(** The impulse kernel leaves the normal accumulator of the joint it
    visits not negative or NaN, whatever it was. *)
Lemma impulse_joint_sign (i : Z) (jointIndex : nat) (s : AoS) :
  Forall sign_ok (aos_joints s) ->
  Forall sign_ok (aos_joints (fst (SolveJointsImpulsesAoS_joint i jointIndex s))).
Proof.
  intros H. unfold SolveJointsImpulsesAoS_joint.
  destruct (Binary32.ltb kProductiveImpulse _); cbn [fst aos_joints];
    (apply Forall_insert; [done|]);
    (split; [apply clamp_sign|]);
    apply (sign_ok_lookup _ jointIndex H).
Qed.

Lemma displacement_joint_sign (i : Z) (jointIndex : nat) (s : AoS) :
  Forall sign_ok (aos_joints s) ->
  Forall sign_ok
    (aos_joints (fst (SolveJointsDisplacementAoS_joint i jointIndex s))).
Proof.
  intros H. unfold SolveJointsDisplacementAoS_joint.
  destruct (Binary32.ltb kProductiveImpulse _); cbn [fst aos_joints];
    (apply Forall_insert; [done|]);
    (split; [|apply clamp_sign]);
    apply (sign_ok_lookup _ jointIndex H).
Qed.

Lemma impulse_pass_sign (jointStart jointCount : nat) (i : Z) (s : AoS) :
  Forall sign_ok (aos_joints s) ->
  Forall sign_ok
    (aos_joints (fst (SolveJointsImpulsesAoS jointStart jointCount i s))).
Proof.
  apply (for_joints_inv (fun s => Forall sign_ok (aos_joints s))).
  intros j s' Hs'. unfold SolveJointsImpulsesAoS_body.
  destruct (skip_AoS _ _ _); [done|]. by apply impulse_joint_sign.
Qed.

Lemma displacement_pass_sign (jointStart jointCount : nat) (i : Z) (s : AoS) :
  Forall sign_ok (aos_joints s) ->
  Forall sign_ok
    (aos_joints (fst (SolveJointsDisplacementAoS jointStart jointCount i s))).
Proof.
  apply (for_joints_inv (fun s => Forall sign_ok (aos_joints s))).
  intros j s' Hs'. unfold SolveJointsDisplacementAoS_body.
  destruct (skip_displacement_AoS _ _ _); [done|].
  by apply displacement_joint_sign.
Qed.

Lemma is_nan_fabsf (a : Binary32.binary32) :
  Binary32.is_nan (Binary32.fabsf a) = Binary32.is_nan a.
Proof. by destruct a. Qed.

(** When the cap does not apply, the friction accumulator that the
    kernel stores is within the rounded cap, unless a NaN is in the
    comparison. *)
Lemma friction_uncapped (nl fl : Limiter) (body1 body2 : RigidBody) :
  friction_capped nl fl body1 body2 = false ->
  let stored :=
    accumulatedImpulse fl + frictionDeltaImpulse_AoS nl fl body1 body2 in
  let cap := accumulatedImpulse nl * kFrictionCoefficient in
  Binary32.is_nan stored = true \/ Binary32.is_nan cap = true
  \/ Binary32.leb (Binary32.fabsf stored) cap = true.
Proof.
  intros H. unfold frictionDeltaImpulse_AoS. rewrite H. cbv zeta.
  unfold friction_capped in H. cbv zeta in H.
  destruct (not_ltb_leb _ _ H) as [Hn|[Hn|Hle]].
  - right. by left.
  - left. by rewrite is_nan_fabsf in Hn.
  - right. by right.
Qed.

End RoundedInvariant.

(** The two constants are the correctly rounded quotients [1 / 10000]
    and [3 / 10], and the exact kernels use their values. *)
Lemma constants_rounded :
  Rounded.kProductiveImpulse = Binary32.div (Binary32.of_int 1) (Binary32.of_int 10000)
  /\ Rounded.kFrictionCoefficient = Binary32.div (Binary32.of_int 3) (Binary32.of_int 10)
  /\ Q2Qc (Binary32.to_Q Rounded.kProductiveImpulse) = kProductiveImpulse
  /\ Q2Qc (Binary32.to_Q Rounded.kFrictionCoefficient) = kFrictionCoefficient.
Proof.
  repeat split; try reflexivity; apply Qc_is_canon; reflexivity.
Qed.


(** ** Degenerate joints in the rounded kernels *)

Section RoundedSame.

Import Rounded.

Local Open Scope binary32_scope.

Lemma same_vector_refl (v : Vector2f) : same_vector v v.
Proof. split; apply same_refl. Qed.

Lemma same_vector_trans (u v w : Vector2f) :
  same_vector u v -> same_vector v w -> same_vector u w.
Proof. intros [? ?] [? ?]. split; by eapply same_trans. Qed.

Lemma same_vector_sym (u v : Vector2f) : same_vector u v -> same_vector v u.
Proof. intros [? ?]. split; by apply same_sym. Qed.

Lemma same_body_sym (a b : RigidBody) : same_body a b -> same_body b a.
Proof.
  intros (H1 & H2 & H3 & H4 & H5 & H6).
  split; [by apply same_vector_sym|]. split; [by apply same_sym|].
  split; [by apply same_vector_sym|]. split; [by apply same_sym|].
  by split.
Qed.

Lemma same_limiter_sym (a b : Limiter) : same_limiter a b -> same_limiter b a.
Proof.
  intros (H1 & H2 & H3).
  split; [by apply same_sym|]. split; [by apply same_sym|]. done.
Qed.

Lemma same_joint_sym (a b : ContactJoint) : same_joint a b -> same_joint b a.
Proof.
  intros (H1 & H2 & H3 & H4).
  split; [done|]. split; [done|]. split; by apply same_limiter_sym.
Qed.

Lemma same_body_refl (b : RigidBody) : same_body b b.
Proof.
  repeat split; first [apply same_refl | apply same_vector_refl].
Qed.

Lemma same_body_trans (a b c : RigidBody) :
  same_body a b -> same_body b c -> same_body a c.
Proof.
  intros (H1 & H2 & H3 & H4 & H5 & H6) (G1 & G2 & G3 & G4 & G5 & G6).
  split; [by eapply same_vector_trans|].
  split; [by eapply same_trans|].
  split; [by eapply same_vector_trans|].
  split; [by eapply same_trans|].
  split; congruence.
Qed.

Lemma same_limiter_refl (l : Limiter) : same_limiter l l.
Proof. repeat split; apply same_refl. Qed.

Lemma same_limiter_trans (a b c : Limiter) :
  same_limiter a b -> same_limiter b c -> same_limiter a c.
Proof.
  intros (H1 & H2 & H3) (G1 & G2 & G3).
  split; [by eapply same_trans|]. split; [by eapply same_trans|]. congruence.
Qed.

Lemma same_joint_refl (j : ContactJoint) : same_joint j j.
Proof. repeat split; apply same_refl. Qed.

Lemma same_joint_trans (a b c : ContactJoint) :
  same_joint a b -> same_joint b c -> same_joint a c.
Proof.
  intros (H1 & H2 & H3 & H4) (G1 & G2 & G3 & G4).
  split; [congruence|]. split; [congruence|].
  split; by eapply same_limiter_trans.
Qed.

Lemma Forall2_same_refl {A : Type} (R : A -> A -> Prop) (l : list A) :
  (forall a, R a a) -> Forall2 R l l.
Proof. intros HR. induction l; by constructor. Qed.

Lemma Forall2_same_trans {A : Type} (R : A -> A -> Prop) (l1 l2 l3 : list A) :
  (forall a b c, R a b -> R b c -> R a c) ->
  Forall2 R l1 l2 -> Forall2 R l2 l3 -> Forall2 R l1 l3.
Proof.
  intros HR H. revert l3. induction H as [|a b l1 l2 Hab H IH]; intros l3 G.
  - by inversion G.
  - inversion G as [|? c ? l3' Hbc G']; subst. constructor; [by eapply HR|].
    by apply IH.
Qed.

Lemma same_state_refl (s : AoS) : same_state s s.
Proof.
  split; apply Forall2_same_refl;
    [apply same_body_refl | apply same_joint_refl].
Qed.

Lemma same_state_trans (a b c : AoS) :
  same_state a b -> same_state b c -> same_state a c.
Proof.
  intros [H1 H2] [G1 G2]. split.
  - by apply (Forall2_same_trans _ _ _ _ same_body_trans H1).
  - by apply (Forall2_same_trans _ _ _ _ same_joint_trans H2).
Qed.

(** An update that changes no number of a body changes none of the
    array. *)
Lemma alter_same (f : RigidBody -> RigidBody) (k : nat) (l : list RigidBody) :
  (forall b, same_body (f b) b) -> Forall2 same_body (alter f k l) l.
Proof.
  intros Hf. revert k. induction l as [|b l IH]; intros [|k]; simpl.
  - constructor.
  - constructor.
  - constructor; [apply Hf|]. apply Forall2_same_refl, same_body_refl.
  - constructor; [apply same_body_refl|]. apply IH.
Qed.

Lemma lookup_total_same (l l' : list RigidBody) (k : nat) :
  Forall2 same_body l l' -> same_body (l !!! k) (l' !!! k).
Proof.
  intros H. revert k. induction H as [|b b' l l' Hb H IH]; intros k.
  - apply same_body_refl.
  - destruct k as [|k]; [exact Hb|apply IH].
Qed.

Lemma insert_same (joints : list ContactJoint) (jointIndex : nat)
    (joint joint' : ContactJoint) :
  joints !! jointIndex = Some joint -> same_joint joint' joint ->
  Forall2 same_joint (<[jointIndex := joint']> joints) joints.
Proof.
  intros Hj Hs. rewrite <- (list_insert_id joints jointIndex joint Hj) at 2.
  apply Forall2_insert; [|done].
  apply Forall2_same_refl, same_joint_refl.
Qed.

(** The fields of a limiter that no kernel writes. *)
Lemma same_limiter_constants (l l' : Limiter) :
  same_limiter l l' ->
  normalProjector1 l = normalProjector1 l'
  /\ normalProjector2 l = normalProjector2 l'
  /\ angularProjector1 l = angularProjector1 l'
  /\ angularProjector2 l = angularProjector2 l'
  /\ masses l = masses l'
  /\ compInvMass l = compInvMass l'
  /\ dstVelocity l = dstVelocity l'
  /\ dstDisplacingVelocity l = dstDisplacingVelocity l'.
Proof.
  intros (_ & _ & H).
  split; [exact (f_equal normalProjector1 H)|].
  split; [exact (f_equal normalProjector2 H)|].
  split; [exact (f_equal angularProjector1 H)|].
  split; [exact (f_equal angularProjector2 H)|].
  split; [exact (f_equal masses H)|].
  split; [exact (f_equal compInvMass H)|].
  split; [exact (f_equal dstVelocity H)|].
  exact (f_equal dstDisplacingVelocity H).
Qed.

Lemma normaldV_same (nl : Limiter) (body1 body1' body2 body2' : RigidBody) :
  same_body body1 body1' -> same_body body2 body2' ->
  Binary32.same (normaldV_AoS nl body1 body2) (normaldV_AoS nl body1' body2').
Proof.
  intros ([? ?] & ? & _) ([? ?] & ? & _). unfold normaldV_AoS.
  repeat first [apply sub_same | apply mul_same | apply same_refl | assumption].
Qed.

Lemma frictiondV_same (fl : Limiter) (body1 body1' body2 body2' : RigidBody) :
  same_body body1 body1' -> same_body body2 body2' ->
  Binary32.same (frictiondV_AoS fl body1 body2) (frictiondV_AoS fl body1' body2').
Proof.
  intros ([? ?] & ? & _) ([? ?] & ? & _). unfold frictiondV_AoS.
  repeat first [apply sub_same | apply mul_same | apply same_refl | assumption].
Qed.

Lemma displacingdV_same (nl : Limiter) (body1 body1' body2 body2' : RigidBody) :
  same_body body1 body1' -> same_body body2 body2' ->
  Binary32.same (displacingdV_AoS nl body1 body2)
    (displacingdV_AoS nl body1' body2').
Proof.
  intros (_ & _ & [? ?] & ? & _) (_ & _ & [? ?] & ? & _).
  unfold displacingdV_AoS.
  repeat first [apply sub_same | apply mul_same | apply same_refl | assumption].
Qed.

(** The hypotheses on a joint hold of the same joint. *)
Lemma degenerate_same (joint joint' : ContactJoint) :
  same_joint joint joint' -> degenerate joint -> degenerate joint'.
Proof.
  intros (_ & _ & Hn & Hf) [H1 H2].
  destruct (same_limiter_constants _ _ Hn) as (_ & _ & _ & _ & _ & Hcn & _).
  destruct (same_limiter_constants _ _ Hf) as (_ & _ & _ & _ & _ & Hcf & _).
  split; congruence.
Qed.

Lemma accumulators_ok_same (joint joint' : ContactJoint) :
  same_joint joint joint' -> accumulators_ok joint -> accumulators_ok joint'.
Proof.
  intros (_ & _ & (Hn1 & Hn2 & _) & (Hf1 & _)) (H1 & H2 & H3).
  split; [|split].
  - by rewrite <- (leb_same _ _ _ _ (same_refl _) Hn1).
  - by rewrite <- (leb_same _ _ _ _ (same_refl _) Hn2).
  - rewrite <- H3. symmetry. apply leb_same; [by apply fabsf_same|].
    apply mul_same; [done|apply same_refl].
Qed.

Lemma finite_masses_same (joint joint' : ContactJoint) :
  same_joint joint joint' -> finite_masses joint -> finite_masses joint'.
Proof.
  intros (_ & _ & Hn & Hf). unfold finite_masses.
  destruct (same_limiter_constants _ _ Hn) as (_ & _ & _ & _ & -> & _).
  by destruct (same_limiter_constants _ _ Hf) as (_ & _ & _ & _ & -> & _).
Qed.

Lemma normaldV_constants (nl nl' : Limiter) (body1 body2 : RigidBody) :
  same_limiter nl nl' ->
  normaldV_AoS nl body1 body2 = normaldV_AoS nl' body1 body2.
Proof.
  intros H. destruct (same_limiter_constants _ _ H)
    as (H1 & H2 & H3 & H4 & _ & _ & H7 & _).
  unfold normaldV_AoS. by rewrite H1, H2, H3, H4, H7.
Qed.

Lemma frictiondV_constants (fl fl' : Limiter) (body1 body2 : RigidBody) :
  same_limiter fl fl' ->
  frictiondV_AoS fl body1 body2 = frictiondV_AoS fl' body1 body2.
Proof.
  intros H. destruct (same_limiter_constants _ _ H)
    as (H1 & H2 & H3 & H4 & _).
  unfold frictiondV_AoS. by rewrite H1, H2, H3, H4.
Qed.

Lemma displacingdV_constants (nl nl' : Limiter) (body1 body2 : RigidBody) :
  same_limiter nl nl' ->
  displacingdV_AoS nl body1 body2 = displacingdV_AoS nl' body1 body2.
Proof.
  intros H. destruct (same_limiter_constants _ _ H)
    as (H1 & H2 & H3 & H4 & _ & _ & _ & H8).
  unfold displacingdV_AoS. by rewrite H1, H2, H3, H4, H8.
Qed.

Lemma errors_finite_same (joint joint' : ContactJoint)
    (body1 body1' body2 body2' : RigidBody) :
  same_joint joint joint' -> same_body body1 body1' -> same_body body2 body2' ->
  errors_finite joint body1 body2 -> errors_finite joint' body1' body2'.
Proof.
  intros (_ & _ & Hn & Hf) Hb1 Hb2 (H1 & H2 & H3). split; [|split].
  - rewrite <- (normaldV_constants _ _ _ _ Hn), <- H1. symmetry.
    by apply is_finite_same, normaldV_same.
  - rewrite <- (frictiondV_constants _ _ _ _ Hf), <- H2. symmetry.
    by apply is_finite_same, frictiondV_same.
  - rewrite <- (displacingdV_constants _ _ _ _ Hn), <- H3. symmetry.
    by apply is_finite_same, displacingdV_same.
Qed.

End RoundedSame.

Section RoundedDegenerate.

Import Rounded.

Local Open Scope binary32_scope.

Lemma finite_masses_normal (joint : ContactJoint) :
  finite_masses joint ->
  Forall (fun a => Binary32.is_finite a = true) (masses (normalLimiter joint)).
Proof. intros H. by apply Forall_app in H as [? _]. Qed.

Lemma finite_masses_friction (joint : ContactJoint) :
  finite_masses joint ->
  Forall (fun a => Binary32.is_finite a = true) (masses (frictionLimiter joint)).
Proof. intros H. by apply Forall_app in H as [_ ?]. Qed.

(** With finite masses, an impulse that is a zero changes no number of
    a body. *)
Lemma add_velocity_zero (l : Limiter) (delta : float) (b : RigidBody) :
  Forall (fun a => Binary32.is_finite a = true) (masses l) ->
  Binary32.is_zero delta = true ->
  same_body (add_velocity (compMass1_linear l) (compMass1_angular l) delta b) b
  /\ same_body (add_velocity (compMass2_linear l) (compMass2_angular l) delta b) b.
Proof.
  intros Hm Hz. unfold masses in Hm.
  repeat (apply Forall_cons in Hm as [? Hm]).
  split; (split; [split|split; [|repeat split; apply same_refl]]);
    cbn [velocity angularVelocity x y add_velocity];
    by apply add_zero_r, mul_zero_r.
Qed.

Lemma add_displacingVelocity_zero (l : Limiter) (delta : float) (b : RigidBody) :
  Forall (fun a => Binary32.is_finite a = true) (masses l) ->
  Binary32.is_zero delta = true ->
  same_body
    (add_displacingVelocity (compMass1_linear l) (compMass1_angular l) delta b) b
  /\ same_body
       (add_displacingVelocity (compMass2_linear l) (compMass2_angular l) delta b)
       b.
Proof.
  intros Hm Hz. unfold masses in Hm.
  repeat (apply Forall_cons in Hm as [? Hm]).
  split;
    (split; [apply same_vector_refl|];
     split; [apply same_refl|];
     split; [split|split; [|split; reflexivity]]);
    cbn [displacingVelocity displacingAngularVelocity x y add_displacingVelocity];
    by apply add_zero_r, mul_zero_r.
Qed.

(** The three impulses of a degenerate joint are zeros when the
    velocity error is finite. *)
Lemma degenerate_normalDeltaImpulse (nl : Limiter) (body1 body2 : RigidBody) :
  Binary32.is_zero (compInvMass nl) = true ->
  Binary32.leb Binary32.zero (accumulatedImpulse nl) = true ->
  Binary32.is_finite (normaldV_AoS nl body1 body2) = true ->
  Binary32.is_zero (normalDeltaImpulse_AoS nl body1 body2) = true.
Proof.
  intros Hc Ha Hf. unfold normalDeltaImpulse_AoS. cbv zeta.
  pose proof (mul_zero_r _ _ Hf Hc) as Hz.
  by rewrite (nonneg_add_zero _ _ Ha Hz).
Qed.

Lemma degenerate_displacingDeltaImpulse (nl : Limiter) (body1 body2 : RigidBody) :
  Binary32.is_zero (compInvMass nl) = true ->
  Binary32.leb Binary32.zero (accumulatedDisplacingImpulse nl) = true ->
  Binary32.is_finite (displacingdV_AoS nl body1 body2) = true ->
  Binary32.is_zero (displacingDeltaImpulse_AoS nl body1 body2) = true.
Proof.
  intros Hc Ha Hf. unfold displacingDeltaImpulse_AoS. cbv zeta.
  pose proof (mul_zero_r _ _ Hf Hc) as Hz.
  by rewrite (nonneg_add_zero _ _ Ha Hz).
Qed.

Lemma degenerate_frictionDeltaImpulse (nl fl : Limiter)
    (body1 body2 : RigidBody) :
  Binary32.is_zero (compInvMass fl) = true ->
  Binary32.leb (Binary32.fabsf (accumulatedImpulse fl))
    (accumulatedImpulse nl * kFrictionCoefficient) = true ->
  Binary32.is_finite (frictiondV_AoS fl body1 body2) = true ->
  Binary32.is_zero (frictionDeltaImpulse_AoS nl fl body1 body2) = true.
Proof.
  intros Hc Ha Hf. unfold frictionDeltaImpulse_AoS, friction_capped. cbv zeta.
  pose proof (mul_zero_r _ _ Hf Hc) as Hz.
  rewrite (ltb_same _ (accumulatedImpulse nl * kFrictionCoefficient) _
             (Binary32.fabsf (accumulatedImpulse fl)));
    [|apply same_refl|by apply fabsf_same, add_zero_r].
  by rewrite (leb_not_ltb _ _ Ha).
Qed.

Lemma unproductive_zeros (a b : float) :
  Binary32.is_zero a = true -> Binary32.is_zero b = true ->
  Binary32.ltb kProductiveImpulse
    (Binary32.max (Binary32.fabsf a) (Binary32.fabsf b)) = false.
Proof. by destruct a, b. Qed.

Lemma unproductive_zero (a : float) :
  Binary32.is_zero a = true ->
  Binary32.ltb kProductiveImpulse (Binary32.fabsf a) = false.
Proof. by destruct a. Qed.

(** The impulse kernel on a degenerate joint whose two velocity errors
    are finite: no number of the state changes and the joint is not
    productive. *)
Lemma degenerate_impulse_joint (i : Z) (jointIndex : nat) (s : AoS)
    (joint : ContactJoint) :
  aos_joints s !! jointIndex = Some joint ->
  degenerate joint -> accumulators_ok joint -> finite_masses joint ->
  errors_finite joint (aos_bodies s !!! body1Index joint)
    (aos_bodies s !!! body2Index joint) ->
  snd (SolveJointsImpulsesAoS_joint i jointIndex s) = false
  /\ same_state (fst (SolveJointsImpulsesAoS_joint i jointIndex s)) s.
Proof.
  intros Hj [Hdn Hdf] (Han & Had & Haf) Hm (Hnd & Hfd & _).
  unfold SolveJointsImpulsesAoS_joint.
  rewrite (list_lookup_total_correct _ _ _ Hj).
  set (bodies := aos_bodies s) in *.
  set (nl := normalLimiter joint) in *. set (fl := frictionLimiter joint) in *.
  set (nd := normalDeltaImpulse_AoS nl _ _).
  assert (Hnd0 : Binary32.is_zero nd = true)
    by by apply degenerate_normalDeltaImpulse.
  set (bodies1 := alter _ (body2Index joint) (alter _ (body1Index joint) bodies)).
  assert (HB1 : Forall2 same_body bodies1 bodies).
  { apply (Forall2_same_trans _ _ _ _ same_body_trans
             (alter_same _ _ _
                (fun b => proj2 (add_velocity_zero nl nd b
                                   (finite_masses_normal _ Hm) Hnd0)))).
    apply alter_same. intros b.
    apply (proj1 (add_velocity_zero nl nd b (finite_masses_normal _ Hm) Hnd0)). }
  set (nl' := set_accumulatedImpulse (accumulatedImpulse nl + nd) nl).
  assert (Hacc : Binary32.same (accumulatedImpulse nl') (accumulatedImpulse nl))
    by by apply add_zero_r.
  set (fd := frictionDeltaImpulse_AoS nl' fl _ _).
  assert (Hfd0 : Binary32.is_zero fd = true).
  { apply degenerate_frictionDeltaImpulse; [done| |].
    - rewrite <- Haf. apply leb_same; [apply same_refl|].
      apply mul_same; [exact Hacc|apply same_refl].
    - rewrite <- Hfd. apply is_finite_same.
      apply frictiondV_same; by apply lookup_total_same. }
  rewrite (unproductive_zeros _ _ Hnd0 Hfd0). cbn [fst snd].
  split; [done|]. split; cbn [aos_bodies aos_joints].
  - apply (Forall2_same_trans _ _ bodies1 _ same_body_trans); [|exact HB1].
    apply (Forall2_same_trans _ _ _ _ same_body_trans
             (alter_same _ _ _
                (fun b => proj2 (add_velocity_zero fl fd b
                                   (finite_masses_friction _ Hm) Hfd0)))).
    apply alter_same. intros b.
    apply (proj1 (add_velocity_zero fl fd b (finite_masses_friction _ Hm) Hfd0)).
  - apply (insert_same _ _ joint); [done|].
    split; [done|]. split; [done|]. split.
    + split; [exact Hacc|]. split; [apply same_refl|reflexivity].
    + split; [by apply add_zero_r|]. split; [apply same_refl|reflexivity].
Qed.

Lemma degenerate_displacement_joint (i : Z) (jointIndex : nat) (s : AoS)
    (joint : ContactJoint) :
  aos_joints s !! jointIndex = Some joint ->
  degenerate joint -> accumulators_ok joint -> finite_masses joint ->
  errors_finite joint (aos_bodies s !!! body1Index joint)
    (aos_bodies s !!! body2Index joint) ->
  snd (SolveJointsDisplacementAoS_joint i jointIndex s) = false
  /\ same_state (fst (SolveJointsDisplacementAoS_joint i jointIndex s)) s.
Proof.
  intros Hj [Hdn Hdf] (Han & Had & Haf) Hm (_ & _ & Hdd).
  unfold SolveJointsDisplacementAoS_joint.
  rewrite (list_lookup_total_correct _ _ _ Hj).
  set (bodies := aos_bodies s) in *.
  set (nl := normalLimiter joint) in *.
  set (dd := displacingDeltaImpulse_AoS nl _ _).
  assert (Hdd0 : Binary32.is_zero dd = true)
    by by apply degenerate_displacingDeltaImpulse.
  rewrite (unproductive_zero _ Hdd0). cbn [fst snd].
  split; [done|]. split; cbn [aos_bodies aos_joints].
  - apply (Forall2_same_trans _ _ _ _ same_body_trans
             (alter_same _ _ _
                (fun b => proj2 (add_displacingVelocity_zero nl dd b
                                   (finite_masses_normal _ Hm) Hdd0)))).
    apply alter_same. intros b.
    apply (proj1 (add_displacingVelocity_zero nl dd b
                    (finite_masses_normal _ Hm) Hdd0)).
  - apply (insert_same _ _ joint); [done|].
    split; [done|]. split; [done|]. split; [|apply same_limiter_refl].
    split; [apply same_refl|]. split; [by apply add_zero_r|reflexivity].
Qed.

(** The two loop bodies, early-out included. *)
Lemma degenerate_impulse_body (i : Z) (jointIndex : nat) (s : AoS)
    (joint : ContactJoint) :
  aos_joints s !! jointIndex = Some joint ->
  degenerate joint -> accumulators_ok joint -> finite_masses joint ->
  errors_finite joint (aos_bodies s !!! body1Index joint)
    (aos_bodies s !!! body2Index joint) ->
  snd (SolveJointsImpulsesAoS_body i jointIndex s) = false
  /\ same_state (fst (SolveJointsImpulsesAoS_body i jointIndex s)) s.
Proof.
  intros Hj Hd Ha Hm He. unfold SolveJointsImpulsesAoS_body.
  destruct (skip_AoS _ _ _); [split; [done|apply same_state_refl]|].
  by apply (degenerate_impulse_joint i jointIndex s joint).
Qed.

Lemma degenerate_displacement_body (i : Z) (jointIndex : nat) (s : AoS)
    (joint : ContactJoint) :
  aos_joints s !! jointIndex = Some joint ->
  degenerate joint -> accumulators_ok joint -> finite_masses joint ->
  errors_finite joint (aos_bodies s !!! body1Index joint)
    (aos_bodies s !!! body2Index joint) ->
  snd (SolveJointsDisplacementAoS_body i jointIndex s) = false
  /\ same_state (fst (SolveJointsDisplacementAoS_body i jointIndex s)) s.
Proof.
  intros Hj Hd Ha Hm He. unfold SolveJointsDisplacementAoS_body.
  destruct (skip_displacement_AoS _ _ _); [split; [done|apply same_state_refl]|].
  by apply (degenerate_displacement_joint i jointIndex s joint).
Qed.

End RoundedDegenerate.

Section RoundedScene.

Import Rounded.

Local Open Scope binary32_scope.

Lemma rounded_prepare_all (bodies : list RigidBody) :
  SolvePrepareAoS bodies (length bodies)
  = (fun b => set_lastDisplacementIteration (-1) (set_lastIteration (-1) b))
      <$> bodies.
Proof. unfold SolvePrepareAoS. apply foldl_alter_const_seq. Qed.

Lemma rounded_prepare_lookup (bodies : list RigidBody) (b : nat) :
  b < length bodies ->
  SolvePrepareAoS bodies (length bodies) !!! b
  = set_lastDisplacementIteration (-1) (set_lastIteration (-1) (bodies !!! b)).
Proof.
  intros Hb. rewrite rounded_prepare_all.
  by rewrite (list_lookup_total_fmap
                (fun b => set_lastDisplacementIteration (-1)
                            (set_lastIteration (-1) b))) by done.
Qed.

(** The velocity errors do not read the tags. *)
Lemma errors_finite_prepared (joint : ContactJoint) (body1 body2 : RigidBody) :
  errors_finite joint body1 body2 ->
  errors_finite joint
    (set_lastDisplacementIteration (-1) (set_lastIteration (-1) body1))
    (set_lastDisplacementIteration (-1) (set_lastIteration (-1) body2)).
Proof.
  unfold errors_finite, normaldV_AoS, frictiondV_AoS, displacingdV_AoS.
  cbn [velocity angularVelocity displacingVelocity displacingAngularVelocity
       set_lastIteration set_lastDisplacementIteration].
  exact id.
Qed.

(** A scene of one degenerate joint: each loop runs one pass and leaves
    through [break], no number of the state changes, and the average
    is 2. *)
Lemma degenerate_scene (joint : ContactJoint) (bodies : list RigidBody)
    (C P : nat) :
  degenerate joint -> accumulators_ok joint -> finite_masses joint ->
  body1Index joint < length bodies -> body2Index joint < length bodies ->
  errors_finite joint (bodies !!! body1Index joint)
    (bodies !!! body2Index joint) ->
  let s0 := mkAoS (SolvePrepareAoS bodies (length bodies)) [joint] in
  exists s1 s2 : AoS,
    impulse_loop (SolveJointsImpulsesAoS 0 1) (S C) s0 = mkLoop s1 1 true
    /\ displacement_loop (SolveJointsDisplacementAoS 0 1) (S P) s1
       = mkLoop s2 1 true
    /\ same_state s2 s0
    /\ SolveJointsAoS [joint] bodies (length bodies) (S C) (S P)
       = (s2, Binary32.of_int 2).
Proof.
  intros Hd Ha Hm Hb1 Hb2 He s0.
  assert (He0 : errors_finite joint (aos_bodies s0 !!! body1Index joint)
                  (aos_bodies s0 !!! body2Index joint)).
  { unfold s0. cbn [aos_bodies]. rewrite !rounded_prepare_lookup by done.
    by apply errors_finite_prepared. }
  assert (Htag : forall b, b < length bodies ->
            lastIteration (aos_bodies s0 !!! b) = (-1)%Z
            /\ lastDisplacementIteration (aos_bodies s0 !!! b) = (-1)%Z).
  { intros b Hb. unfold s0. cbn [aos_bodies].
    by rewrite rounded_prepare_lookup by done. }
  (* the impulse pass *)
  assert (HpI : SolveJointsImpulsesAoS 0 1 0 s0
                = SolveJointsImpulsesAoS_joint 0 0 s0).
  { unfold SolveJointsImpulsesAoS. rewrite for_joints_single.
    unfold SolveJointsImpulsesAoS_body. cbn [aos_joints s0 lookup_total
      list_lookup_total].
    destruct (Htag _ Hb1) as [-> _]. by destruct (Htag _ Hb2) as [-> _]. }
  destruct (degenerate_impulse_joint 0 0 s0 joint eq_refl Hd Ha Hm He0)
    as [Hq1 Hs1].
  destruct (SolveJointsImpulsesAoS_joint 0 0 s0) as [s1 q1] eqn:E1.
  cbn [fst snd] in Hq1, Hs1. subst q1.
  (* what the displacement pass finds *)
  destruct Hs1 as [HB1 HJ1].
  destruct s1 as [bodies1 joints1]. cbn [aos_bodies aos_joints] in HB1, HJ1.
  unfold s0 in HJ1. cbn [aos_joints] in HJ1.
  apply Forall2_cons_inv_r in HJ1 as (joint1 & rest & Hj1 & Hnil & ->).
  apply Forall2_nil_inv_r in Hnil as ->.
  set (s1 := mkAoS bodies1 [joint1]) in *.
  pose proof (same_joint_sym _ _ Hj1) as Hj1'.
  pose proof Hj1 as (Hi1 & Hi2 & _).
  assert (Hsb : forall b, same_body (aos_bodies s0 !!! b) (bodies1 !!! b)).
  { intros b. apply same_body_sym. by apply lookup_total_same. }
  assert (He1 : errors_finite joint1 (aos_bodies s1 !!! body1Index joint1)
                  (aos_bodies s1 !!! body2Index joint1)).
  { rewrite Hi1, Hi2. cbn [aos_bodies s1].
    exact (errors_finite_same joint joint1 _ _ _ _ Hj1' (Hsb _) (Hsb _) He0). }
  assert (HpD : SolveJointsDisplacementAoS 0 1 0 s1
                = SolveJointsDisplacementAoS_joint 0 0 s1).
  { unfold SolveJointsDisplacementAoS. rewrite for_joints_single.
    unfold SolveJointsDisplacementAoS_body. cbn [aos_joints aos_bodies s1
      lookup_total list_lookup_total]. rewrite Hi1, Hi2.
    destruct (Hsb (body1Index joint)) as (_ & _ & _ & _ & _ & <-).
    destruct (Hsb (body2Index joint)) as (_ & _ & _ & _ & _ & <-).
    destruct (Htag _ Hb1) as [_ ->]. by destruct (Htag _ Hb2) as [_ ->]. }
  destruct (degenerate_displacement_joint 0 0 s1 joint1 eq_refl
              (degenerate_same _ _ Hj1' Hd) (accumulators_ok_same _ _ Hj1' Ha)
              (finite_masses_same _ _ Hj1' Hm) He1) as [Hq2 Hs2].
  destruct (SolveJointsDisplacementAoS_joint 0 0 s1) as [s2 q2] eqn:E2.
  cbn [fst snd] in Hq2, Hs2. subst q2.
  assert (Hs20 : same_state s2 s0).
  { apply (same_state_trans _ s1); [exact Hs2|].
    split; [exact HB1|]. by constructor. }
  assert (HI : impulse_loop (SolveJointsImpulsesAoS 0 1) (S C) s0
               = mkLoop s1 1 true).
  { unfold impulse_loop. cbn [iterate]. by rewrite HpI. }
  assert (HD : displacement_loop (SolveJointsDisplacementAoS 0 1) (S P) s1
               = mkLoop s2 1 true).
  { unfold displacement_loop. cbn [iterate]. by rewrite HpD. }
  exists s1, s2. split; [exact HI|]. split; [exact HD|]. split; [exact Hs20|].
  unfold SolveJointsAoS, solve. cbn [length]. fold s0.
  rewrite HI. cbn [loop_state]. rewrite HD. cbn [loop_state]. f_equal.
  (* the finish step *)
  destruct Hs20 as [HB2 HJ2]. destruct s2 as [bodies2 joints2].
  cbn [aos_bodies aos_joints] in HB2, HJ2. unfold s0 in HJ2.
  cbn [aos_joints] in HJ2.
  apply Forall2_cons_inv_r in HJ2 as (joint2 & rest & Hj2 & Hnil2 & ->).
  apply Forall2_nil_inv_r in Hnil2 as ->.
  destruct Hj2 as (Hk1 & Hk2 & _).
  unfold SolveFinishAoS. cbn [aos_joints aos_bodies foldl length].
  rewrite Hk1, Hk2.
  destruct (lookup_total_same _ _ (body1Index joint) HB2)
    as (_ & _ & _ & _ & -> & ->).
  destruct (lookup_total_same _ _ (body2Index joint) HB2)
    as (_ & _ & _ & _ & -> & ->).
  destruct (Htag _ Hb1) as [-> ->]. destruct (Htag _ Hb2) as [-> ->].
  reflexivity.
Qed.

End RoundedScene.

(** C8.  Degenerate joint neutrality, in binary32: for a joint of the
    AoS backend whose two limiters have a zero [compInvMass], whose
    accumulators are within P1 and whose mass components are finite,
    and for two bodies on which the three velocity errors that the
    kernels compute ([normaldV], [frictiondV], [dV]) are finite, the
    three impulses are zeros; the loop bodies of the impulse and of the
    displacement kernel change no number of the state (a zero may
    change its sign) and are not productive; and in a scene of only
    this joint each loop of [SolveJointsAoS] runs one pass and leaves
    through [break], and the returned average is 2. *)
Theorem degenerate_joint_neutral (joint : Rounded.ContactJoint) :
  Rounded.degenerate joint -> Rounded.accumulators_ok joint ->
  Rounded.finite_masses joint ->
  (forall body1 body2 : Rounded.RigidBody,
     Rounded.errors_finite joint body1 body2 ->
     Binary32.is_zero
       (Rounded.normalDeltaImpulse_AoS (Rounded.normalLimiter joint) body1 body2)
     = true
     /\ Binary32.is_zero
          (Rounded.frictionDeltaImpulse_AoS (Rounded.normalLimiter joint)
             (Rounded.frictionLimiter joint) body1 body2) = true
     /\ Binary32.is_zero
          (Rounded.displacingDeltaImpulse_AoS (Rounded.normalLimiter joint)
             body1 body2) = true)
  /\ (forall (i : Z) (jointIndex : nat) (s : Rounded.AoS),
        Rounded.aos_joints s !! jointIndex = Some joint ->
        Rounded.errors_finite joint
          (Rounded.aos_bodies s !!! Rounded.body1Index joint)
          (Rounded.aos_bodies s !!! Rounded.body2Index joint) ->
        snd (Rounded.SolveJointsImpulsesAoS_body i jointIndex s) = false
        /\ Rounded.same_state
             (fst (Rounded.SolveJointsImpulsesAoS_body i jointIndex s)) s
        /\ snd (Rounded.SolveJointsDisplacementAoS_body i jointIndex s) = false
        /\ Rounded.same_state
             (fst (Rounded.SolveJointsDisplacementAoS_body i jointIndex s)) s)
  /\ (forall (bodies : list Rounded.RigidBody)
        (contactIterationsCount penetrationIterationsCount : nat),
        Rounded.body1Index joint < length bodies ->
        Rounded.body2Index joint < length bodies ->
        Rounded.errors_finite joint (bodies !!! Rounded.body1Index joint)
          (bodies !!! Rounded.body2Index joint) ->
        let s0 :=
          Rounded.mkAoS (Rounded.SolvePrepareAoS bodies (length bodies)) [joint] in
        exists s1 s2 : Rounded.AoS,
          impulse_loop (Rounded.SolveJointsImpulsesAoS 0 1)
            (S contactIterationsCount) s0 = mkLoop s1 1 true
          /\ displacement_loop (Rounded.SolveJointsDisplacementAoS 0 1)
               (S penetrationIterationsCount) s1 = mkLoop s2 1 true
          /\ Rounded.same_state s2 s0
          /\ Rounded.SolveJointsAoS [joint] bodies (length bodies)
               (S contactIterationsCount) (S penetrationIterationsCount)
             = (s2, Binary32.of_int 2)).
Proof.
  intros Hd Ha Hm. split; [|split].
  - intros body1 body2 (H1 & H2 & H3).
    destruct Hd as [Hdn Hdf]. destruct Ha as (Han & Had & Haf).
    split; [by apply degenerate_normalDeltaImpulse|].
    split; [by apply degenerate_frictionDeltaImpulse|].
    by apply degenerate_displacingDeltaImpulse.
  - intros i jointIndex s Hj He.
    destruct (degenerate_impulse_body i jointIndex s joint Hj Hd Ha Hm He)
      as [G1 G2].
    destruct (degenerate_displacement_body i jointIndex s joint Hj Hd Ha Hm He)
      as [G3 G4].
    exact (conj G1 (conj G2 (conj G3 G4))).
  - intros bodies C P Hb1 Hb2 He.
    exact (degenerate_scene joint bodies C P Hd Ha Hm Hb1 Hb2 He).
Qed.

Lemma degenerate_joint_neutral_witness :
  exists s1 s2 : Rounded.AoS,
    impulse_loop (Rounded.SolveJointsImpulsesAoS 0 1) 5
      (Rounded.mkAoS
         (Rounded.SolvePrepareAoS [Rounded.still; Rounded.still] 2)
         [Rounded.infinite_mass_joint])
    = mkLoop s1 1 true
    /\ displacement_loop (Rounded.SolveJointsDisplacementAoS 0 1) 5 s1
       = mkLoop s2 1 true
    /\ Rounded.same_state s2
         (Rounded.mkAoS
            (Rounded.SolvePrepareAoS [Rounded.still; Rounded.still] 2)
            [Rounded.infinite_mass_joint])
    /\ Rounded.SolveJointsAoS [Rounded.infinite_mass_joint]
         [Rounded.still; Rounded.still] 2 5 5
       = (s2, Binary32.of_int 2).
Proof.
  apply (proj2 (proj2
           (degenerate_joint_neutral Rounded.infinite_mass_joint
              (conj eq_refl eq_refl)
              (conj eq_refl (conj eq_refl eq_refl))
              ltac:(repeat constructor)))
           [Rounded.still; Rounded.still] 4 4);
    [simpl; lia | simpl; lia | by vm_compute].
Defined.

(** With finite inputs the products of the velocity error can still
    overflow: on [steep_degenerate_joint] and a body at [2^100] the
    error is an infinity, its product with the zero gain is NaN, the
    clamp test is false on NaN, and the kernel writes NaN to the
    velocity of the body and to the accumulator, and reports the joint
    not productive. *)
Lemma steep_degenerate_joint_not_neutral :
  Rounded.degenerate Rounded.steep_degenerate_joint
  /\ Rounded.accumulators_ok Rounded.steep_degenerate_joint
  /\ Rounded.finite_joint Rounded.steep_degenerate_joint = true
  /\ Rounded.finite_body Rounded.sliding_body = true
  /\ Rounded.finite_body Rounded.still = true
  /\ Rounded.normalDeltaImpulse_AoS
       (Rounded.normalLimiter Rounded.steep_degenerate_joint)
       Rounded.sliding_body Rounded.still = Binary32.NaN
  /\ (let r :=
        Rounded.SolveJointsImpulsesAoS 0 1 0
          (Rounded.mkAoS [Rounded.sliding_body; Rounded.still]
             [Rounded.steep_degenerate_joint]) in
      snd r = false
      /\ Rounded.x (Rounded.velocity (Rounded.aos_bodies (fst r) !!! 0))
         = Binary32.NaN
      /\ Rounded.accumulatedImpulse
           (Rounded.normalLimiter (Rounded.aos_joints (fst r) !!! 0))
         = Binary32.NaN
      /\ ~ Rounded.same_state (fst r)
             (Rounded.mkAoS [Rounded.sliding_body; Rounded.still]
                [Rounded.steep_degenerate_joint])).
Proof.
  repeat split; try reflexivity.
  intros [HB _]. vm_compute in HB. inversion HB as [|? ? ? ? Hb _].
  destruct Hb as ([[Hx|[Hx _]] _] & _); discriminate.
Qed.

(** The state is kept up to the sign of a zero, not bit for bit: the
    kernel adds a product with the zero impulse to every velocity, and
    [-0 + 0] is [+0]. *)
Lemma negative_zero_not_kept :
  let s := Rounded.mkAoS [Rounded.backing_body; Rounded.still]
             [Rounded.infinite_mass_joint] in
  let r := Rounded.SolveJointsImpulsesAoS 0 1 0 s in
  Rounded.x (Rounded.velocity (Rounded.aos_bodies s !!! 0%nat)) = S754_zero true
  /\ Rounded.x (Rounded.velocity (Rounded.aos_bodies (fst r) !!! 0%nat))
     = S754_zero false
  /\ Rounded.same_state (fst r) s.
Proof.
  split; [reflexivity|]. split; [reflexivity|].
  vm_compute.
  repeat first [by left | by right | split | apply Forall2_cons | apply Forall2_nil].
Qed.

(** ** The accumulator invariant, rounded and exact *)

Section AccumulatorInvariant.

Local Open Scope Qc_scope.




End AccumulatorInvariant.

(** ** The diagnostic of the rounded AoS driver *)

Section RoundedRun.

Import Rounded.

Lemma rounded_impulse_body_run (i : Z) (jointIndex n : nat) (hiI hiD : Z)
    (s : AoS) :
  (-1 <= i <= hiI)%Z -> rounded_run_inv n hiI hiD s ->
  rounded_run_inv n hiI hiD (fst (SolveJointsImpulsesAoS_body i jointIndex s)).
Proof.
  intros Hi [Hn Ht]. unfold SolveJointsImpulsesAoS_body.
  destruct (skip_AoS _ _ _); [done|].
  unfold SolveJointsImpulsesAoS_joint.
  destruct (Binary32.ltb kProductiveImpulse _); unfold rounded_run_inv;
    cbn [fst aos_bodies aos_joints];
    (split; [by rewrite length_insert|]);
    repeat (apply Forall_alter;
            [|intros b _ [Hb1 Hb2]; split; cbn; lia]);
    exact Ht.
Qed.

Lemma rounded_displacement_body_run (i : Z) (jointIndex n : nat) (hiI hiD : Z)
    (s : AoS) :
  (-1 <= i <= hiD)%Z -> rounded_run_inv n hiI hiD s ->
  rounded_run_inv n hiI hiD
    (fst (SolveJointsDisplacementAoS_body i jointIndex s)).
Proof.
  intros Hi [Hn Ht]. unfold SolveJointsDisplacementAoS_body.
  destruct (skip_displacement_AoS _ _ _); [done|].
  unfold SolveJointsDisplacementAoS_joint.
  destruct (Binary32.ltb kProductiveImpulse _); unfold rounded_run_inv;
    cbn [fst aos_bodies aos_joints];
    (split; [by rewrite length_insert|]);
    repeat (apply Forall_alter;
            [|intros b _ [Hb1 Hb2]; split; cbn; lia]);
    exact Ht.
Qed.

Lemma rounded_run_mono (n : nat) (hiI hiI' hiD hiD' : Z) (s : AoS) :
  (hiI <= hiI')%Z -> (hiD <= hiD')%Z ->
  rounded_run_inv n hiI hiD s -> rounded_run_inv n hiI' hiD' s.
Proof.
  intros HI HD [Hn Ht]. split; [done|].
  eapply Forall_impl; [exact Ht|]. intros b [[? ?] [? ?]]. split; lia.
Qed.

(** The two loops of [SolveJointsAoS]: no tag of the impulse channel
    ends above [C - 1], none of the displacement channel above
    [P - 1]. *)
Lemma rounded_loops_run (n C P : nat) (s : AoS) :
  rounded_run_inv n (-1) (-1) s ->
  rounded_run_inv n (Z.of_nat C - 1) (Z.of_nat P - 1)
    (loop_state
       (displacement_loop (SolveJointsDisplacementAoS 0 n) P
          (loop_state (impulse_loop (SolveJointsImpulsesAoS 0 n) C s)))).
Proof.
  intros H0. unfold impulse_loop, displacement_loop.
  assert (H1 : rounded_run_inv n (Z.of_nat C - 1) (-1)
                 (loop_state (iterate (SolveJointsImpulsesAoS 0 n) C 0 s))).
  { destruct (iterate_indexed (SolveJointsImpulsesAoS 0 n)
                (fun i s => (0 <= i)%Z /\ rounded_run_inv n (i - 1) (-1) s))
      with (n := C) (i := 0%Z) (s := s) as [_ G].
    - intros i s0 [Hi Hs]. split; [lia|].
      replace (i + 1 - 1)%Z with i by lia.
      apply (for_joints_inv (rounded_run_inv n i (-1))).
      + intros j s1. apply rounded_impulse_body_run. lia.
      + eapply rounded_run_mono; [| |exact Hs]; lia.
    - intros i j s0 Hij [Hi Hs]. split; [lia|].
      eapply rounded_run_mono; [| |exact Hs]; lia.
    - by split.
    - by rewrite Z.add_0_l in G. }
  destruct (iterate_indexed (SolveJointsDisplacementAoS 0 n)
              (fun i s => (0 <= i)%Z
                          /\ rounded_run_inv n (Z.of_nat C - 1) (i - 1) s))
    with (n := P) (i := 0%Z)
         (s := loop_state (iterate (SolveJointsImpulsesAoS 0 n) C 0 s))
    as [_ G].
  - intros i s0 [Hi Hs]. split; [lia|].
    replace (i + 1 - 1)%Z with i by lia.
    apply (for_joints_inv (rounded_run_inv n (Z.of_nat C - 1) i)).
    + intros j s1. apply rounded_displacement_body_run. lia.
    + eapply rounded_run_mono; [| |exact Hs]; lia.
  - intros i j s0 Hij [Hi Hs]. split; [lia|].
    eapply rounded_run_mono; [| |exact Hs]; lia.
  - by split.
  - by rewrite Z.add_0_l in G.
Qed.

Lemma rounded_tags_lookup (hiI hiD : Z) (bodies : list RigidBody) (k : nat) :
  Forall (rounded_tags_within hiI hiD) bodies ->
  (-1 <= lastIteration (bodies !!! k) <= Z.max hiI 0)%Z
  /\ (-1 <= lastDisplacementIteration (bodies !!! k) <= Z.max hiD 0)%Z.
Proof.
  intros H. destruct (decide (k < length bodies)) as [Hk|Hk].
  - destruct (Forall_lookup_total_1 _ _ _ H Hk) as [? ?]. lia.
  - rewrite list_lookup_total_alt, (proj2 (lookup_ge_None _ _)) by lia.
    simpl. lia.
Qed.

(** [SolveFinishAoS] returns the quotient of the iteration sum. *)
Lemma rounded_SolveFinishAoS_average (s : AoS) :
  Forall (fun b => (-1 <= lastIteration b)%Z
                   /\ (-1 <= lastDisplacementIteration b)%Z) (aos_bodies s) ->
  (rounded_iteration_sum s < 2147483648)%Z ->
  SolveFinishAoS s
  = Binary32.div (Binary32.of_int (rounded_iteration_sum s))
      (Binary32.of_int (Z.of_nat (length (aos_joints s)))).
Proof.
  intros Htags Hfit. unfold SolveFinishAoS. f_equal. f_equal.
  assert (Hk : forall k,
             (-1 <= lastIteration (aos_bodies s !!! k))%Z
             /\ (-1 <= lastDisplacementIteration (aos_bodies s !!! k))%Z).
  { intros k. destruct (decide (k < length (aos_bodies s))) as [Hk|Hk].
    - exact (Forall_lookup_total_1 _ _ _ Htags Hk).
    - rewrite list_lookup_total_alt, (proj2 (lookup_ge_None _ _)) by lia.
      simpl. lia. }
  rewrite (foldl_int_sum _
             (fun joint =>
                Z.max (lastIteration (aos_bodies s !!! body1Index joint))
                  (lastIteration (aos_bodies s !!! body2Index joint)))
             (fun joint =>
                Z.max (lastDisplacementIteration (aos_bodies s !!! body1Index joint))
                  (lastDisplacementIteration
                     (aos_bodies s !!! body2Index joint)))).
  - by rewrite Z.add_0_l.
  - intros a joint _. reflexivity.
  - apply Forall_forall. intros joint _.
    destruct (Hk (body1Index joint)). lia.
  - done.
  - rewrite Z.add_0_l. exact Hfit.
Qed.

(** A run of [SolveJointsAoS] returns the quotient of the iteration
    sum of the state that it leaves. *)
Lemma rounded_run_average (joints : list ContactJoint) (bodies : list RigidBody)
    (C P : nat) :
  (Z.of_nat (length joints) * (Z.of_nat C + Z.of_nat P + 4) < 2147483648)%Z ->
  snd (SolveJointsAoS joints bodies (length bodies) C P)
  = Binary32.div
      (Binary32.of_int
         (rounded_iteration_sum
            (fst (SolveJointsAoS joints bodies (length bodies) C P))))
      (Binary32.of_int (Z.of_nat (length joints))).
Proof.
  intros Hfit. unfold SolveJointsAoS, solve. cbv zeta. cbn [fst snd].
  pose proof (rounded_loops_run (length joints) C P
                (mkAoS (SolvePrepareAoS bodies (length bodies)) joints)) as Hrun.
  destruct Hrun as [Hn Ht].
  { split; [done|]. cbn [aos_bodies]. rewrite rounded_prepare_all.
    apply Forall_fmap, Forall_forall. intros b _. split; cbn; lia. }
  set (s2 := loop_state _) in *. clearbody s2.
  rewrite rounded_SolveFinishAoS_average, Hn; [done| |].
  - eapply Forall_impl; [exact Ht|]. intros b [[? ?] [? ?]]. lia.
  - unfold rounded_iteration_sum.
    pose proof (sum_Z_bounds
                  (fun joint =>
                     joint_iterations
                       (lastIteration (aos_bodies s2 !!! body1Index joint))
                       (lastIteration (aos_bodies s2 !!! body2Index joint))
                       (lastDisplacementIteration
                          (aos_bodies s2 !!! body1Index joint))
                       (lastDisplacementIteration
                          (aos_bodies s2 !!! body2Index joint)))
                  (Z.of_nat C + Z.of_nat P + 4) (aos_joints s2)) as Hb.
    rewrite Hn in Hb. cbv zeta.
    enough (0 <= 0)%Z by (apply Z.le_lt_trans with (2 := Hfit), Hb;
      apply Forall_forall; intros joint _;
      destruct (rounded_tags_lookup _ _ _ (body1Index joint) Ht);
      destruct (rounded_tags_lookup _ _ _ (body2Index joint) Ht);
      unfold joint_iterations, iterations_term; lia).
    lia.
Qed.

End RoundedRun.

(** C7.  The diagnostic.  [SolveFinishAoS] returns the binary32
    quotient [float(iterationSum) / float(jointCount)], where
    [iterationSum] is the sum over the joints of
    [(max(body1.lastIteration, body2.lastIteration) + 2)
     + (max(body1.lastDisplacementIteration, body2.lastDisplacementIteration) + 2)],
    when no tag is below -1 and the sum fits an [int], in the exact
    and in the rounded embedding of the AoS backend; a run of the
    rounded [SolveJointsAoS] returns that quotient for the state that
    it leaves, and each SoA driver returns, with the same quotient for
    the sum read from the two [SolveBody] channels that it leaves,
    when the number of joints times [C + P + 4] fits an [int]. *)
Theorem average_iterations :
  (forall s : AoS,
      Forall (fun b => (-1 <= lastIteration b)%Z
                       /\ (-1 <= lastDisplacementIteration b)%Z) (aos_bodies s) ->
      (iteration_sum_AoS s < 2147483648)%Z ->
      SolveFinishAoS s
      = Binary32.div (Binary32.of_int (iteration_sum_AoS s))
          (Binary32.of_int (Z.of_nat (length (aos_joints s)))))
  /\ (forall s : Rounded.AoS,
        Forall (fun b => (-1 <= Rounded.lastIteration b)%Z
                         /\ (-1 <= Rounded.lastDisplacementIteration b)%Z)
          (Rounded.aos_bodies s) ->
        (rounded_iteration_sum s < 2147483648)%Z ->
        Rounded.SolveFinishAoS s
        = Binary32.div (Binary32.of_int (rounded_iteration_sum s))
            (Binary32.of_int (Z.of_nat (length (Rounded.aos_joints s)))))
  /\ (forall (joints : list Rounded.ContactJoint)
             (bodies : list Rounded.RigidBody)
             (contactIterationsCount penetrationIterationsCount : nat),
        (Z.of_nat (length joints)
         * (Z.of_nat contactIterationsCount
            + Z.of_nat penetrationIterationsCount + 4) < 2147483648)%Z ->
        let r :=
          Rounded.SolveJointsAoS joints bodies (length bodies)
            contactIterationsCount penetrationIterationsCount in
        snd r
        = Binary32.div (Binary32.of_int (rounded_iteration_sum (fst r)))
            (Binary32.of_int (Z.of_nat (length joints))))
  /\ (forall (solver : Solver) (joint_packed : list ContactJointPacked.t)
             (bodies : list RigidBody)
             (bodiesCount contactIterationsCount penetrationIterationsCount : nat),
        (Z.of_nat (length (contactJoints solver))
         * (Z.of_nat contactIterationsCount
            + Z.of_nat penetrationIterationsCount + 4) < 2147483648)%Z ->
        let quotient (r : option (list RigidBody * Solver * Binary32.binary32)) :=
          exists bodies' solver' average,
            r = Some (bodies', solver', average)
            /\ average
               = Binary32.div (Binary32.of_int (iteration_sum_SoA solver'))
                   (Binary32.of_int (Z.of_nat (length (contactJoints solver)))) in
        quotient (SolveJointsSoA_Scalar solver joint_packed bodies bodiesCount
                    contactIterationsCount penetrationIterationsCount)
        /\ quotient (SolveJointsSoA_SSE2 solver joint_packed bodies bodiesCount
                       contactIterationsCount penetrationIterationsCount)
        /\ quotient (SolveJointsSoA_AVX2 solver joint_packed bodies bodiesCount
                       contactIterationsCount penetrationIterationsCount)
        /\ quotient (SolveJointsSoA_FMA solver joint_packed bodies bodiesCount
                       contactIterationsCount penetrationIterationsCount)).
Proof.
  split; [exact SolveFinishAoS_average|].
  split; [exact rounded_SolveFinishAoS_average|].
  split; [exact rounded_run_average|].
  intros solver joint_packed bodies bodiesCount C P Hfit. cbv zeta.
  assert (Hsimd : forall VN, 1 <= VN ->
            exists bodies' solver' average,
              SolveJointsSoA_SIMD VN solver joint_packed bodies bodiesCount C P
              = Some (bodies', solver', average)
              /\ average
                 = Binary32.div (Binary32.of_int (iteration_sum_SoA solver'))
                     (Binary32.of_int
                        (Z.of_nat (length (contactJoints solver))))).
  { intros VN HVN.
    apply (SoA_driver_average
             (grouped_pass (SolveJointsImpulsesSoA VN) (SolveJointsImpulsesSoA 1))
             (grouped_pass (SolveJointsDisplacementSoA VN)
                (SolveJointsDisplacementSoA 1))); [done| | |done].
    - intros groupOffset jointCount packed0 i s Hi.
      apply (grouped_pass_keeps (channel_inv packed0 (-1) i));
        intros a n s0; by apply impulse_kernel_frame.
    - intros groupOffset jointCount packed0 i s Hi.
      apply (grouped_pass_keeps (channel_inv packed0 (-1) i));
        intros a n s0; by apply displacement_kernel_frame. }
  split; [|split; [|split]].
  - apply (SoA_driver_average
             (fun _ jointCount => SolveJointsImpulsesSoA 1 0 jointCount)
             (fun _ jointCount => SolveJointsDisplacementSoA 1 0 jointCount));
      [done| | |done].
    + intros groupOffset jointCount packed0 i s. apply impulse_kernel_frame.
    + intros groupOffset jointCount packed0 i s. apply displacement_kernel_frame.
  - apply (Hsimd 4). lia.
  - apply (Hsimd 8). lia.
  - apply (SoA_driver_average
             (grouped_pass SolveJointsImpulsesSoA_FMA (SolveJointsImpulsesSoA 1))
             (grouped_pass SolveJointsDisplacementSoA_FMA
                (SolveJointsDisplacementSoA 1))); [lia| | |done].
    + intros groupOffset jointCount packed0 i s Hi.
      apply (grouped_pass_keeps (channel_inv packed0 (-1) i)).
      * intros a n s0. by apply impulse_FMA_kernel_frame.
      * intros a n s0. by apply impulse_kernel_frame.
    + intros groupOffset jointCount packed0 i s Hi.
      apply (grouped_pass_keeps (channel_inv packed0 (-1) i)).
      * intros a n s0. by apply displacement_FMA_kernel_frame.
      * intros a n s0. by apply displacement_kernel_frame.
Qed.

Lemma average_iterations_witness :
  SolveFinishAoS seven_iterations = S754_finite false 9786709 (-22).
Proof.
  apply (proj1 average_iterations seven_iterations).
  - repeat constructor; simpl; lia.
  - reflexivity.
Defined.
